(** * LotteryAnalyzer (app.py): a shallow embedding and its properties

    The embedding follows [class LotteryAnalyzer] method by method.

    - Python integers are [Z]; lists are [list]; the [set] of candidate
      numbers is a [gset Z]; a [Counter] is an association list in
      insertion order, because [most_common] breaks ties by that order;
      the [transformation] dict is a [gmap Z Z].
    - A method returns a value, returns a message string (the code's
      "not enough data" returns), or raises: type [outcome].
    - The [random] module is a stream of raw naturals read at a moving
      position: type [Rng].  [randint] and [choice] reduce the raw value
      into the requested range, so every run of the real generator is the
      run of some stream.
    - Where the question is what a method changes, the analyzer is an
      object whose draws refer to list objects in a heap: type [PyState].
      The methods on it are proved to compute what the functions on lists
      of draws compute.
    - Quotients of integers computed in floating point ([avg_range],
      [odd_even_ratio]) are exact rationals [Q]; the logarithm sum of
      the chaos analysis is stated over an interface of float operations,
      instantiated with the real numbers. *)

From Stdlib Require Import ZArith QArith Qround Reals Lia String.
From stdpp Require Import base tactics option list sorting gmap.

Set Default Proof Using "Type".
Set Warnings "-clear-no-such-hyp".
Local Open Scope Z_scope.

(** ** Data model *)

(** One entry of [self.historical_results]:
    [{'regular': [...], 'hot': n}]. *)
Record Draw := mkDraw { regular : list Z; hot : Z }.

(** [self.max_number] and [self.hot_number_max], set once in [__init__]. *)
Definition max_number : Z := 43.
Definition hot_number_max : Z := 16.

Inductive exn :=
| ValueError (msg : string)
| IndexError
| KeyError (key : Z)
| TypeError.

Inductive outcome (A : Type) :=
| Value (a : A)
| Message (msg : string)
| Raised (e : exn).
Arguments Value {A} a.
Arguments Message {A} msg.
Arguments Raised {A} e.

Definition is_value {A} (o : outcome A) : Prop :=
  match o with Value _ => True | _ => False end.
Definition is_message {A} (o : outcome A) : Prop :=
  match o with Message _ => True | _ => False end.
Definition is_value_error {A} (o : outcome A) : Prop :=
  match o with Raised (ValueError _) => True | _ => False end.

(** Python's [sorted] on integers. *)
Definition sorted (l : list Z) : list Z := merge_sort Z.le l.

(** Python's [sum] on integers. *)
Definition sum (l : list Z) : Z := fold_left Z.add l 0.

Definition out_of_range (num : Z) : bool := (num <? 0) || (num >? max_number).
Definition hot_out_of_range (h : Z) : bool := (h <? 1) || (h >? hot_number_max).

(** ** add_result *)

(** [add_result] is the only method that writes [self.historical_results];
    it returns the outcome and the new value of that attribute. *)
Definition add_result (regular_numbers : list Z) (hot_number : Z)
    (self : list Draw) : outcome unit * list Draw :=
  if negb (length regular_numbers =? 5)%nat then
    (Raised (ValueError "Se necesitan exactamente 5 números regulares"), self)
  else if existsb out_of_range regular_numbers then
    (Raised (ValueError "Los números regulares deben estar entre 0 y 43"), self)
  else if hot_out_of_range hot_number then
    (Raised (ValueError "El número caliente debe estar entre 1 y 16"), self)
  else if negb (size (list_to_set regular_numbers : gset Z) =? length regular_numbers)%nat then
    (Raised (ValueError "Los números regulares no deben repetirse"), self)
  else
    (Value tt, self ++ [mkDraw (sorted regular_numbers) hot_number]).

(** The four ways [add_result] refuses a draw; anything else is stored. *)
Definition rejected (regs : list Z) (h : Z) : Prop :=
  length regs ≠ 5%nat ∨ Exists (fun x => x < 0 ∨ max_number < x) regs ∨
  (h < 1 ∨ hot_number_max < h) ∨ ¬ NoDup regs.

(** A sequence of [add_result] calls in the style of [main]: a call that
    raises is caught and the next one is made on the unchanged store. *)
Definition add_results (inputs : list (list Z * Z)) (self : list Draw) : list Draw :=
  fold_left (fun st i => snd (add_result (fst i) (snd i) st)) inputs self.

(** The store of the worked example of the specification. *)
Definition example_store : list Draw :=
  add_results [([5; 12; 23; 31; 40], 3); ([2; 12; 19; 31; 38], 7);
               ([5; 18; 23; 29; 40], 3)] [].

(** What every stored draw satisfies. *)
Definition valid_draw (d : Draw) : Prop :=
  length (regular d) = 5%nat ∧ NoDup (regular d) ∧
  Forall (fun x => 0 <= x <= max_number) (regular d) ∧
  Sorted Z.le (regular d) ∧ 1 <= hot d <= hot_number_max.

Definition valid_store (st : list Draw) : Prop := Forall valid_draw st.

(** ** analyze_frequency *)

(** A [Counter]: keys in order of first insertion, each with its count. *)
Fixpoint counter_incr (k : Z) (c : list (Z * Z)) : list (Z * Z) :=
  match c with
  | [] => [(k, 1)]
  | (k', n) :: c' =>
      if decide (k = k') then (k', n + 1) :: c' else (k', n) :: counter_incr k c'
  end.

(** [Counter.update(iterable)]. *)
Definition counter_update (c : list (Z * Z)) (iterable : list Z) : list (Z * Z) :=
  fold_left (fun c k => counter_incr k c) iterable c.

Record FrequencyTable := mkFrequency {
  freq_regular : list (Z * Z);
  freq_hot : list (Z * Z)
}.

(** The loop [for result in self.historical_results], from any pair of
    counters. *)
Definition frequency_loop (self : list Draw) (f : FrequencyTable) : FrequencyTable :=
  fold_left
    (fun f result =>
       mkFrequency (counter_update (freq_regular f) (regular result))
                   (counter_update (freq_hot f) [hot result]))
    self f.

Definition analyze_frequency (self : list Draw) : FrequencyTable :=
  frequency_loop self (mkFrequency [] []).

(** The sum of the counts held by a counter. *)
Definition total_count (c : list (Z * Z)) : Z := sum (map snd c).

(** [Counter.most_common(n)] is [sorted(items, key=count, reverse=True)[:n]]:
    a stable sort, so equal counts keep their insertion order. *)
Fixpoint insert_by_count (x : Z * Z) (l : list (Z * Z)) : list (Z * Z) :=
  match l with
  | [] => [x]
  | y :: l' => if snd x <? snd y then y :: insert_by_count x l' else x :: y :: l'
  end.

Definition sort_by_count (c : list (Z * Z)) : list (Z * Z) :=
  foldr insert_by_count [] c.

Definition most_common (n : nat) (c : list (Z * Z)) : list (Z * Z) :=
  take n (sort_by_count c).

(** ** analyze_patterns *)

Record Patterns := mkPatterns {
  sum_regular : list Z;
  odd_even_ratio : list Q;
  range_distribution : list (list Z);
  consecutive_numbers : list bool;
  hot_correlation : list bool
}.

(** Python list indexing: a negative index counts from the end, anything
    else out of range raises [IndexError] (here [None]). *)
Definition py_index (len : nat) (i : Z) : option nat :=
  if (0 <=? i) && (i <? Z.of_nat len) then Some (Z.to_nat i)
  else if (- Z.of_nat len <=? i) && (i <? 0) then Some (Z.to_nat (Z.of_nat len + i))
  else None.

(** [ranges[i] += 1]. *)
Definition bump (ranges : list Z) (i : Z) : option (list Z) :=
  match py_index (length ranges) i with
  | Some idx =>
      match ranges !! idx with
      | Some x => Some (<[idx := x + 1]> ranges)
      | None => None
      end
  | None => None
  end.

(** The inner loop [for num in result['regular']: ranges[min(3, num // 11)] += 1]. *)
Fixpoint range_histogram (nums : list Z) (ranges : list Z) : option (list Z) :=
  match nums with
  | [] => Some ranges
  | num :: nums' =>
      match bump ranges (Z.min 3 (num / 11)) with
      | Some ranges' => range_histogram nums' ranges'
      | None => None
      end
  end.

Definition odd_count (nums : list Z) : Z :=
  Z.of_nat (length (filter (fun num => num mod 2 = 1) nums)).

(** The scan [for i in range(len(sorted_nums) - 1)] with its [break]. *)
Definition has_consecutive (nums : list Z) : bool :=
  let sorted_nums := sorted nums in
  existsb (fun i => nth (S i) sorted_nums 0 - nth i sorted_nums 0 =? 1)
          (seq 0 (length sorted_nums - 1)).

(** One iteration of [for result in self.historical_results]. *)
Definition pattern_step (p : Patterns) (result : Draw) : outcome Patterns :=
  match range_histogram (regular result) [0; 0; 0; 0] with
  | None => Raised IndexError
  | Some ranges =>
      Value (mkPatterns
        (sum_regular p ++ [sum (regular result)])
        (odd_even_ratio p ++ [(odd_count (regular result) # 5)%Q])
        (range_distribution p ++ [ranges])
        (consecutive_numbers p ++ [has_consecutive (regular result)])
        (hot_correlation p ++ [bool_decide (hot result ∈ regular result)]))
  end.

Fixpoint patterns_loop (results : list Draw) (p : Patterns) : outcome Patterns :=
  match results with
  | [] => Value p
  | result :: rest =>
      match pattern_step p result with
      | Value p' => patterns_loop rest p'
      | o => o
      end
  end.

Definition analyze_patterns (self : list Draw) : outcome Patterns :=
  if (length self <? 2)%nat then
    Message "No hay suficientes datos para analizar patrones"
  else patterns_loop self (mkPatterns [] [] [] [] []).

(** ** chaos_theory_analysis *)

(** The float operations the method uses: conversion from [int], [+], [/],
    [math.log] and the test [> 0]. *)
Class FloatOps (F : Type) := {
  of_int : Z → F;
  fadd : F → F → F;
  fdiv : F → F → F;
  flog : F → F;
  fpositive : F → bool
}.

Record ChaosSignal (F : Type) := mkChaos {
  lyapunov_estimate : F;
  is_chaotic : bool
}.
Arguments mkChaos {F} _ _.
Arguments lyapunov_estimate {F} _.
Arguments is_chaotic {F} _.

Section Chaos.
Context {F : Type} `{FloatOps F}.

(** [total_numbers] after the first loop. *)
Definition total_numbers (self : list Draw) : list Z :=
  fold_left (fun acc result => (acc ++ regular result) ++ [hot result]) self [].

(** [differences] after the loop [for i in range(1, len(total_numbers))]. *)
Definition differences (total : list Z) : list Z :=
  fold_left
    (fun acc i => acc ++ [Z.abs (nth i total 0 - nth (i - 1) total 0)])
    (seq 1 (length total - 1)) [].

(** One term of the generator passed to [sum]. *)
Definition log_term (d : Z) : F :=
  if decide (d ≠ 0) then flog (of_int (Z.abs d)) else of_int 0.

(** [sum(...)] over floats, starting from [0]. *)
Definition fsum (l : list F) : F := fold_left fadd l (of_int 0).

Definition chaos_theory_analysis (self : list Draw) : outcome (ChaosSignal F) :=
  if (length self <? 3)%nat then
    Message "No hay suficientes datos para análisis de caos"
  else
    let diffs := differences (total_numbers self) in
    match diffs with
    | [] => Message "No se pueden calcular diferencias"
    | _ =>
        let estimate :=
          fdiv (fsum (map log_term diffs)) (of_int (Z.of_nat (length diffs))) in
        Value (mkChaos estimate (fpositive estimate))
    end.

(** The estimate as the specification words it: the flattened stream,
    its consecutive absolute differences, the mean of their logarithms
    with a zero difference counted as [0]. *)
Definition spec_stream (st : list Draw) : list Z :=
  flat_map (fun d => regular d ++ [hot d]) st.

Fixpoint spec_differences (stream : list Z) : list Z :=
  match stream with
  | a :: (b :: _) as rest => Z.abs (b - a) :: spec_differences rest
  | _ => []
  end.

Definition spec_lyapunov (st : list Draw) : F :=
  let ds := spec_differences (spec_stream st) in
  fdiv (fsum (map (fun d => if decide (d = 0) then of_int 0 else flog (of_int d)) ds))
       (of_int (Z.of_nat (length ds))).
End Chaos.

(** The real numbers as floats without rounding. *)
Definition R_ops : FloatOps R := {|
  of_int := IZR;
  fadd := Rplus;
  fdiv := Rdiv;
  flog := ln;
  fpositive := fun x => if Rlt_dec 0 x then true else false
|}.

(** ** enigma_inspired_analysis *)

Record Enigma := mkEnigma {
  transformation : gmap Z Z;
  transformed_results : list (list Z)
}.

(** [[transformation[num] for num in nums]]; a missing key raises [KeyError]. *)
Fixpoint transform (tr : gmap Z Z) (nums : list Z) : outcome (list Z) :=
  match nums with
  | [] => Value []
  | num :: rest =>
      match tr !! num with
      | None => Raised (KeyError num)
      | Some t =>
          match transform tr rest with
          | Value ts => Value (t :: ts)
          | o => o
          end
      end
  end.

Fixpoint transform_all (tr : gmap Z Z) (results : list Draw) (acc : list (list Z))
    : outcome (list (list Z)) :=
  match results with
  | [] => Value acc
  | result :: rest =>
      match transform tr (regular result) with
      | Value t => transform_all tr rest (acc ++ [t])
      | Message m => Message m
      | Raised e => Raised e
      end
  end.

Definition enigma_inspired_analysis (self : list Draw) : outcome Enigma :=
  match last self with
  | None => Message "No hay datos para analizar"
  | Some last_draw =>
      let last_results := regular last_draw in
      let tr :=
        fold_left
          (fun tr i => <[i := (i + sum last_results) mod (max_number + 1)]> tr)
          (seqZ 0 (max_number + 1)) (∅ : gmap Z Z) in
      match transform_all tr self [] with
      | Value ts => Value (mkEnigma tr ts)
      | Message m => Message m
      | Raised e => Raised e
      end
  end.

(** ** The random source *)

(** The state of the [random] module: a stream of raw values and the
    position of the next one. *)
Record Rng := mkRng { source : nat → nat; pos : nat }.

Definition next (g : Rng) : nat * Rng :=
  (source g (pos g), mkRng (source g) (S (pos g))).

(** A computation that reads the random source.  [None]: the computation
    did not finish within its fuel (only the loop [while len(...) < 5]
    takes fuel). *)
Definition Gen (A : Type) : Type := Rng → option (outcome A * Rng).

Definition gret {A} (a : A) : Gen A := fun g => Some (Value a, g).

Definition graise {A} (e : exn) : Gen A := fun g => Some (Raised e, g).

Definition gbind {A B} (m : Gen A) (k : A → Gen B) : Gen B :=
  fun g =>
    match m g with
    | Some (Value a, g') => k a g'
    | Some (Message msg, g') => Some (Message msg, g')
    | Some (Raised e, g') => Some (Raised e, g')
    | None => None
    end.

Notation "'let*' x ':=' m 'in' k" := (gbind m (fun x => k))
  (at level 10, x name, m at level 100, k at level 200).

(** The value [random.randint(a, b)] makes of the raw value [r]. *)
Definition randint_value (a b : Z) (r : nat) : Z := a + Z.of_nat r mod (b - a + 1).

Definition randint (a b : Z) : Gen Z :=
  fun g =>
    if b <? a then Some (Raised (ValueError "empty range for randrange()"), g)
    else let '(r, g') := next g in Some (Value (randint_value a b r), g').

(** [random.choice(seq)]; an empty sequence raises [IndexError]. *)
Definition choice {A} (seq : list A) : Gen A :=
  fun g =>
    match seq with
    | [] => Some (Raised IndexError, g)
    | _ =>
        let '(r, g') := next g in
        match seq !! (r mod length seq)%nat with
        | Some x => Some (Value x, g')
        | None => Some (Raised IndexError, g')
        end
    end.

(** ** predict_next_result *)

Record Prediction := mkPrediction { pred_regular : list Z; pred_hot : Z }.

(** [int(x)] on a float: truncation toward zero. *)
Definition int_of_float (x : Q) : Z :=
  if (0 <=? Qnum x) then Qfloor x else Qceiling x.

(** [avg_range] after the two statements that compute it. *)
Definition avg_range_of (range_dist : list (list Z)) : list Q :=
  let totals :=
    fold_left
      (fun avg dist => map (fun i => nth i avg 0 + nth i dist 0) (seq 0 4))
      range_dist [0; 0; 0; 0] in
  map (fun r => (inject_Z r / inject_Z (Z.of_nat (length range_dist)))%Q) totals.

(** [ranges_to_pick] after its loop. *)
Definition ranges_to_pick_of (avg_range : list Q) : list Z :=
  flat_map
    (fun i => repeat (Z.of_nat i)
                (Z.to_nat (Z.max 1 (int_of_float (nth i avg_range 0%Q * 2)%Q))))
    (seq 0 4).

(** [for _ in range(3): if most_common_regular: candidate_numbers.add(choice(...))]. *)
Fixpoint frequent_phase (k : nat) (most_common_regular : list Z) (s : gset Z)
    : Gen (gset Z) :=
  match k with
  | O => gret s
  | S k' =>
      match most_common_regular with
      | [] => frequent_phase k' most_common_regular s
      | _ =>
          let* x := choice most_common_regular in
          frequent_phase k' most_common_regular ({[x]} ∪ s)
      end
  end.

(** [while attempts < 10: ...]; [left] is [10 - attempts]. *)
Fixpoint attempts_loop (left : nat) (min_val max_val : Z) (s : gset Z) : Gen (gset Z) :=
  match left with
  | O => gret s
  | S left' =>
      let* new_num := randint min_val max_val in
      if decide (new_num ∈ s) then attempts_loop left' min_val max_val s
      else gret ({[new_num]} ∪ s)
  end.

(** [for _ in range(nums_needed): ...]. *)
Fixpoint ranged_phase (k : nat) (ranges_to_pick : list Z) (s : gset Z) : Gen (gset Z) :=
  match k with
  | O => gret s
  | S k' =>
      if (5 <=? size s)%nat then gret s
      else
        let* range_idx := choice ranges_to_pick in
        let min_val := range_idx * 11 in
        let max_val := Z.min max_number ((range_idx + 1) * 11 - 1) in
        let* s' := attempts_loop 10 min_val max_val s in
        ranged_phase k' ranges_to_pick s'
  end.

(** [while len(candidate_numbers) < 5: candidate_numbers.add(randint(0, 43))].
    The loop has no bound of its own: [fuel] bounds its iterations. *)
Fixpoint top_up (fuel : nat) (s : gset Z) : Gen (gset Z) :=
  if (size s <? 5)%nat then
    match fuel with
    | O => fun _ => None
    | S fuel' =>
        let* new_num := randint 0 max_number in
        top_up fuel' ({[new_num]} ∪ s)
    end
  else gret s.

(** The candidate set on entry to the top-up loop. *)
Definition candidate_before_top_up (most_common_regular : list Z) (avg_range : list Q)
    : Gen (gset Z) :=
  let* s := frequent_phase 3 most_common_regular ∅ in
  let nums_needed := 5 - Z.of_nat (size s) in
  let ranges_to_pick := ranges_to_pick_of avg_range in
  ranged_phase (Z.to_nat nums_needed) ranges_to_pick s.

(** The hot number of a prediction. *)
Definition pick_hot (most_common_hot : list Z) : Gen Z :=
  match most_common_hot with
  | [] => randint 1 hot_number_max
  | _ => choice most_common_hot
  end.

(** One iteration of [for _ in range(num_predictions)].  The order in which
    [list(candidate_numbers)] lists the set does not show: the set has
    exactly five members when the slice is taken, and the slice is sorted. *)
Definition one_prediction (fuel : nat) (most_common_regular most_common_hot : list Z)
    (avg_range : list Q) : Gen Prediction :=
  let* s := candidate_before_top_up most_common_regular avg_range in
  let* s' := top_up fuel s in
  let final_numbers := sorted (take 5 (elements s')) in
  let* hot_number := pick_hot most_common_hot in
  gret (mkPrediction final_numbers hot_number).

Fixpoint predictions_loop (k fuel : nat) (most_common_regular most_common_hot : list Z)
    (avg_range : list Q) (predictions : list Prediction) : Gen (list Prediction) :=
  match k with
  | O => gret predictions
  | S k' =>
      let* p := one_prediction fuel most_common_regular most_common_hot avg_range in
      predictions_loop k' fuel most_common_regular most_common_hot avg_range
        (predictions ++ [p])
  end.

(** The two lists [predict_next_result] draws from. *)
Definition most_common_regular_of (st : list Draw) : list Z :=
  map fst (most_common 10 (freq_regular (analyze_frequency st))).
Definition most_common_hot_of (st : list Draw) : list Z :=
  map fst (most_common 3 (freq_hot (analyze_frequency st))).

(** [avg_sum] and [avg_odd_ratio] are computed and never read; with three
    draws or more their divisions cannot fail, so they are left out.  With
    three draws [analyze_patterns] does not return its message; if it did,
    subscripting the string would raise [TypeError]. *)
Definition predict_next_result (fuel : nat) (num_predictions : Z) (self : list Draw)
    : Gen (list Prediction) :=
  if (length self <? 3)%nat then
    fun g => Some (Message "Se necesitan al menos 3 resultados históricos para hacer predicciones", g)
  else
    let frequency := analyze_frequency self in
    match analyze_patterns self with
    | Raised e => graise e
    | Message _ => graise TypeError
    | Value patterns =>
        let most_common_regular := map fst (most_common 10 (freq_regular frequency)) in
        let most_common_hot := map fst (most_common 3 (freq_hot frequency)) in
        let avg_range := avg_range_of (range_distribution patterns) in
        predictions_loop (Z.to_nat num_predictions) fuel
          most_common_regular most_common_hot avg_range []
    end.

(** Two random sources: one that always gives the same raw value, one that
    counts 0, 1, 2, ... *)
Definition constant_source (c : nat) : Rng := mkRng (fun _ => c) 0.
Definition counting_source : Rng := mkRng (fun i => i) 0.

(** A source escapes when, from any position on, it cannot stay for ever
    inside a set of fewer than five values of [randint(0, 43)]. *)
Definition escapes (src : nat → nat) : Prop :=
  ∀ (X : gset Z) (p : nat), (size X < 5)%nat →
    ∃ k, randint_value 0 max_number (src (p + k)%nat) ∉ X.

(** ** The analyzer as an object holding list objects *)

(** A Python list is an object: two names can hold the same list, and a
    method that appends to it or assigns to one of its items changes it for
    both.  Here list objects of integers live in a heap, at locations.  The
    dict of a stored draw holds a reference to its list of regular numbers;
    [self.historical_results] is the list of these dicts. *)
Record DrawObj := mkDrawObj { regular_ref : nat; hot_val : Z }.

Record PyState := mkPyState {
  results : list DrawObj;
  heap : gmap nat (list Z)
}.

(** A method body: from a state to an outcome and the state it leaves. *)
Definition Py (A : Type) : Type := PyState → outcome A * PyState.

Definition pret {A} (a : A) : Py A := fun st => (Value a, st).
Definition praise {A} (e : exn) : Py A := fun st => (Raised e, st).
Definition pmessage {A} (msg : string) : Py A := fun st => (Message msg, st).

Definition pbind {A B} (m : Py A) (k : A → Py B) : Py B :=
  fun st =>
    match m st with
    | (Value a, st') => k a st'
    | (Message msg, st') => (Message msg, st')
    | (Raised e, st') => (Raised e, st')
    end.

Notation "'let!' x ':=' m 'in' k" := (pbind m (fun x => k))
  (at level 10, x name, m at level 100, k at level 200).

(** Reading and writing [self.historical_results]. *)
Definition get_results : Py (list DrawObj) := fun st => (Value (results st), st).
Definition put_results (rs : list DrawObj) : Py unit :=
  fun st => (Value tt, mkPyState rs (heap st)).

(** The contents of a list object.  A reference always leads to an object;
    the [None] case is kept only to make the function total. *)
Definition load (l : nat) : Py (list Z) :=
  fun st =>
    match heap st !! l with
    | Some v => (Value v, st)
    | None => (Raised TypeError, st)
    end.

(** A new list object. *)
Definition alloc (v : list Z) : Py nat :=
  fun st =>
    let l := fresh (dom (heap st)) in
    (Value l, mkPyState (results st) (<[l := v]> (heap st))).

(** Changing a list object in place ([append], [extend], [x[i] += 1]). *)
Definition store (l : nat) (v : list Z) : Py unit :=
  fun st => (Value tt, mkPyState (results st) (<[l := v]> (heap st))).

(** The draws a state holds, by value. *)
Definition deref (st : PyState) (r : DrawObj) : Draw :=
  mkDraw (default [] (heap st !! regular_ref r)) (hot_val r).
Definition store_of (st : PyState) : list Draw := map (deref st) (results st).

(** Every stored reference leads to an object. *)
Definition no_dangling (st : PyState) : Prop :=
  Forall (fun r => is_Some (heap st !! regular_ref r)) (results st).

(** Nothing that existed in [st0] has changed in [st]: the list of results
    is the same and every list object of [st0] has its contents.  New
    objects may have appeared. *)
Definition unchanged_from (st0 st : PyState) : Prop :=
  results st = results st0 ∧ ∀ l v, heap st0 !! l = Some v → heap st !! l = Some v.

(** [add_result] on the object: [sorted] makes a new list object, the dict
    that refers to it is appended to [self.historical_results]. *)
Definition add_result_py (regular_numbers : list Z) (hot_number : Z) : Py unit :=
  if negb (length regular_numbers =? 5)%nat then
    praise (ValueError "Se necesitan exactamente 5 números regulares")
  else if existsb out_of_range regular_numbers then
    praise (ValueError "Los números regulares deben estar entre 0 y 43")
  else if hot_out_of_range hot_number then
    praise (ValueError "El número caliente debe estar entre 1 y 16")
  else if negb (size (list_to_set regular_numbers : gset Z) =? length regular_numbers)%nat then
    praise (ValueError "Los números regulares no deben repetirse")
  else
    let! l := alloc (sorted regular_numbers) in
    let! rs := get_results in
    put_results (rs ++ [mkDrawObj l hot_number]).

(** The state after [__init__], and after the three draws of the worked
    example. *)
Definition initial_state : PyState := mkPyState [] ∅.
Definition example_state : PyState :=
  fold_left (fun st i => snd (add_result_py (fst i) (snd i) st))
    [([5; 12; 23; 31; 40], 3); ([2; 12; 19; 31; 38], 7); ([5; 18; 23; 29; 40], 3)]
    initial_state.

(** [analyze_frequency] on the object.  The two counters are made by the
    method and hold integers only; they are kept as values. *)
Fixpoint frequency_loop_py (rs : list DrawObj) (f : FrequencyTable) : Py FrequencyTable :=
  match rs with
  | [] => pret f
  | result :: rest =>
      let! regular := load (regular_ref result) in
      frequency_loop_py rest
        (mkFrequency (counter_update (freq_regular f) regular)
                     (counter_update (freq_hot f) [hot_val result]))
  end.

Definition analyze_frequency_py : Py FrequencyTable :=
  let! rs := get_results in
  frequency_loop_py rs (mkFrequency [] []).

(** [analyze_patterns] on the object.  [ranges] is a new list object that
    the inner loop changes in place, one item at a time.  A [for] loop runs
    over the items its list has when the loop starts. *)
Fixpoint histogram_loop_py (nums : list Z) (ranges : nat) : Py unit :=
  match nums with
  | [] => pret tt
  | num :: rest =>
      let! current := load ranges in
      match bump current (Z.min 3 (num / 11)) with
      | Some current' =>
          let! _ := store ranges current' in
          histogram_loop_py rest ranges
      | None => praise IndexError
      end
  end.

(** One turn of the outer loop.  [result['regular']] is read from the heap
    each time the code names it; [sorted] makes a new list object. *)
Definition pattern_step_py (p : Patterns) (result : DrawObj) : Py Patterns :=
  let! regular1 := load (regular_ref result) in
  let sums := sum_regular p ++ [sum regular1] in
  let! regular2 := load (regular_ref result) in
  let ratios := odd_even_ratio p ++ [(odd_count regular2 # 5)%Q] in
  let! ranges := alloc [0; 0; 0; 0] in
  let! regular3 := load (regular_ref result) in
  let! _ := histogram_loop_py regular3 ranges in
  let! histogram := load ranges in
  let distributions := range_distribution p ++ [histogram] in
  let! regular4 := load (regular_ref result) in
  let! sorted_nums := alloc (sorted regular4) in
  let! sorted_list := load sorted_nums in
  let consecutive :=
    consecutive_numbers p ++
      [existsb (fun i => nth (S i) sorted_list 0 - nth i sorted_list 0 =? 1)
               (seq 0 (length sorted_list - 1))] in
  let! regular5 := load (regular_ref result) in
  let correlations :=
    hot_correlation p ++ [bool_decide (hot_val result ∈ regular5)] in
  pret (mkPatterns sums ratios distributions consecutive correlations).

Fixpoint patterns_loop_py (rs : list DrawObj) (p : Patterns) : Py Patterns :=
  match rs with
  | [] => pret p
  | result :: rest =>
      let! p' := pattern_step_py p result in
      patterns_loop_py rest p'
  end.

Definition analyze_patterns_py : Py Patterns :=
  let! rs := get_results in
  if (length rs <? 2)%nat then
    pmessage "No hay suficientes datos para analizar patrones"
  else patterns_loop_py rs (mkPatterns [] [] [] [] []).

(** [enigma_inspired_analysis] on the object.  [last_results] is a second
    name for the list object of the last stored draw; it is read at every
    turn of the first loop. *)
Fixpoint table_loop_py (keys : list Z) (last_results : nat) (tr : gmap Z Z)
    : Py (gmap Z Z) :=
  match keys with
  | [] => pret tr
  | i :: rest =>
      let! last := load last_results in
      table_loop_py rest last_results (<[i := (i + sum last) mod (max_number + 1)]> tr)
  end.

Fixpoint transform_loop_py (tr : gmap Z Z) (rs : list DrawObj) (acc : list (list Z))
    : Py (list (list Z)) :=
  match rs with
  | [] => pret acc
  | result :: rest =>
      let! regular := load (regular_ref result) in
      match transform tr regular with
      | Value t => transform_loop_py tr rest (acc ++ [t])
      | Message m => pmessage m
      | Raised e => praise e
      end
  end.

Definition enigma_inspired_analysis_py : Py Enigma :=
  let! rs := get_results in
  match last rs with
  | None => pmessage "No hay datos para analizar"
  | Some last_draw =>
      let last_results := regular_ref last_draw in
      let! tr := table_loop_py (seqZ 0 (max_number + 1)) last_results ∅ in
      let! ts := transform_loop_py tr rs [] in
      pret (mkEnigma tr ts)
  end.

Section ChaosObject.
Context {F : Type} `{FloatOps F}.

(** [chaos_theory_analysis] on the object.  [total_numbers] and
    [differences] are new list objects, grown by [extend] and [append]. *)
Fixpoint total_loop_py (rs : list DrawObj) (total_numbers : nat) : Py unit :=
  match rs with
  | [] => pret tt
  | result :: rest =>
      let! regular := load (regular_ref result) in
      let! current := load total_numbers in
      let! _ := store total_numbers (current ++ regular) in
      let! current' := load total_numbers in
      let! _ := store total_numbers (current' ++ [hot_val result]) in
      total_loop_py rest total_numbers
  end.

Fixpoint differences_loop_py (indices : list nat) (total_numbers differences : nat)
    : Py unit :=
  match indices with
  | [] => pret tt
  | i :: rest =>
      let! total := load total_numbers in
      let! current := load differences in
      let! _ := store differences
                  (current ++ [Z.abs (nth i total 0 - nth (i - 1) total 0)]) in
      differences_loop_py rest total_numbers differences
  end.

Definition chaos_theory_analysis_py : Py (ChaosSignal F) :=
  let! rs := get_results in
  if (length rs <? 3)%nat then
    pmessage "No hay suficientes datos para análisis de caos"
  else
    let! total_numbers := alloc [] in
    let! _ := total_loop_py rs total_numbers in
    let! total := load total_numbers in
    let! differences := alloc [] in
    let! _ := differences_loop_py (seq 1 (length total - 1)) total_numbers differences in
    let! diffs := load differences in
    match diffs with
    | [] => pmessage "No se pueden calcular diferencias"
    | _ =>
        let estimate :=
          fdiv (fsum (map log_term diffs)) (of_int (Z.of_nat (length diffs))) in
        pret (mkChaos estimate (fpositive estimate))
    end.
End ChaosObject.

(** [m], run from a state in which nothing of [st0] has changed, ends in
    such a state again, with an outcome and a state that satisfy [Q]. *)
Definition wp {A} (st0 : PyState) (m : Py A) (st : PyState)
    (Q : outcome A → PyState → Prop) : Prop :=
  unchanged_from st0 st →
  ∃ o st', m st = (o, st') ∧ unchanged_from st0 st' ∧ Q o st'.

(** [m] called twice in a row from [st]: both calls give the outcome [o],
    and neither changes anything that existed before it; in particular the
    draws held are the same after each call. *)
Definition same_twice {A} (m : Py A) (st : PyState) (o : outcome A) : Prop :=
  ∃ st1 st2,
    m st = (o, st1) ∧ m st1 = (o, st2) ∧
    unchanged_from st st1 ∧ unchanged_from st1 st2 ∧
    store_of st1 = store_of st ∧ store_of st2 = store_of st.

(** Arithmetic rounding (halves go up), as the specification reads
    [round]. *)
Definition arithmetic_round (x : Q) : Z := Qfloor (x + (1 # 2))%Q.

(** A set of candidate numbers all within [0, 43]. *)
Definition in_range_set (s : gset Z) : Prop := ∀ x, x ∈ s → 0 <= x <= max_number.

(** What the specification asks of a prediction. *)
Definition well_formed (p : Prediction) : Prop :=
  length (pred_regular p) = 5%nat ∧ NoDup (pred_regular p) ∧
  Forall (fun x => 0 <= x <= 43) (pred_regular p) ∧
  Sorted Z.le (pred_regular p) ∧ 1 <= pred_hot p <= 16.

(** ** Runs of a random computation *)

(** [m], given enough fuel, finishes from [g] with one value, which
    satisfies [P], and reads on in the same stream. *)
Definition converges {A} (m : nat → Gen A) (g : Rng) (P : A → Prop) : Prop :=
  ∃ fuel a g',
    (∀ f, (fuel ≤ f)%nat → m f g = Some (Value a, g')) ∧ source g' = source g ∧ P a.

(** [m] never comes back with a message string. *)
Definition never_message {A} (m : Gen A) : Prop :=
  ∀ g msg g', m g ≠ Some (Message msg, g').

(** Whenever [m] finishes it finishes with a value, and the value
    satisfies [P]. *)
Definition safe {A} (m : Gen A) (P : A → Prop) : Prop :=
  ∀ g r, m g = Some r → ∃ a g', r = (Value a, g') ∧ P a.


(** ** Further notions used in the properties below *)

(** How often [k] occurs among the regular numbers of the store, and how
    many draws have [k] as hot number. *)
Definition regular_occurrences (st : list Draw) (k : Z) : Z :=
  Z.of_nat (count_occ Z.eq_dec (flat_map regular st) k).
Definition hot_occurrences (st : list Draw) (k : Z) : Z :=
  Z.of_nat (count_occ Z.eq_dec (map hot st) k).

(** [c[k]] on a [Counter]: the count of [k], and [0] for a missing key. *)
Fixpoint counter_get (c : list (Z * Z)) (k : Z) : Z :=
  match c with
  | [] => 0
  | (k', n) :: c' => if decide (k = k') then n else counter_get c' k
  end.

(** Whether [add_result] refuses a draw can be decided. *)
#[local] Instance rejected_decision regs h : Decision (rejected regs h).
Proof. unfold rejected. apply _. Defined.

(** Some neighbours in the list differ by exactly one. *)
Fixpoint has_step (l : list Z) : bool :=
  match l with
  | a :: (b :: _) as rest => (b - a =? 1) || has_step rest
  | _ => false
  end.

(** The numbers of a list that fall in bucket [i]: [11 i .. 11 i + 10]. *)
Definition in_bucket (i : nat) (nums : list Z) : list Z :=
  filter (fun x => 11 * Z.of_nat i <= x <= 11 * Z.of_nat i + 10) nums.

(** The range histogram the specification gives for a draw: how many of
    its regular numbers fall in each of the four buckets. *)
Definition histogram_of (d : Draw) : list Z :=
  [Z.of_nat (length (in_bucket 0 (regular d))); Z.of_nat (length (in_bucket 1 (regular d)));
   Z.of_nat (length (in_bucket 2 (regular d))); Z.of_nat (length (in_bucket 3 (regular d)))].

(** The rotation by [s] on [0..43] and the rotation that undoes it. *)
Definition rotate (s x : Z) : Z := (x + s) mod (max_number + 1).
Definition rotate_back (s t : Z) : Z := (t - s) mod (max_number + 1).

From Stdlib Require Import Lra.

(** ** visualize_data *)

(** What the method hands to the plotting library: the heights of the bars
    of the first chart, at [x = 0..43], and of the second, at [x = 1..16].
    Titles, axis labels and the figure layout are constants of the code and
    are left out. *)
Record Chart := mkChart { regular_bars : list Z; hot_bars : list Z }.

(** [for num in nums: frequencies[num] += 1]. *)
Fixpoint tally (nums : list Z) (frequencies : list Z) : option (list Z) :=
  match nums with
  | [] => Some frequencies
  | num :: rest =>
      match bump frequencies num with
      | Some frequencies' => tally rest frequencies'
      | None => None
      end
  end.

(** The first loop over [self.historical_results]. *)
Fixpoint tally_regular (results : list Draw) (frequencies : list Z) : option (list Z) :=
  match results with
  | [] => Some frequencies
  | result :: rest =>
      match tally (regular result) frequencies with
      | Some frequencies' => tally_regular rest frequencies'
      | None => None
      end
  end.

(** The second loop: [hot_frequencies[result['hot']] += 1]. *)
Fixpoint tally_hot (results : list Draw) (hot_frequencies : list Z) : option (list Z) :=
  match results with
  | [] => Some hot_frequencies
  | result :: rest =>
      match bump hot_frequencies (hot result) with
      | Some hot_frequencies' => tally_hot rest hot_frequencies'
      | None => None
      end
  end.

(** [Value (c, msg)]: the chart [c] was shown and [msg] returned. *)
Definition visualize_data (self : list Draw) : outcome (Chart * string) :=
  match self with
  | [] => Message "No hay datos para visualizar"
  | _ =>
      match tally_regular self (repeat 0 (Z.to_nat (max_number + 1))) with
      | None => Raised IndexError
      | Some frequencies =>
          match tally_hot self (repeat 0 (Z.to_nat (hot_number_max + 1))) with
          | None => Raised IndexError
          | Some hot_frequencies =>
              Value (mkChart frequencies (drop 1 hot_frequencies),
                     "Visualización generada"%string)
          end
      end
  end.

(** ** main: the loop that fills the store *)

Section MainInput.
(** The two conversions the loop applies to a line of input:
    [[int(num) for num in line.split('-')]] and [int(line)].  [None]: the
    conversion raises [ValueError]. *)
Variable parse_regular : string → option (list Z).
Variable parse_hot : string → option Z.

(** The body [while not valid_input: try: ... except ValueError: ...] for one
    week, on the lines still to be read; the messages it prints are left
    out.  A failed conversion of the first line skips the second prompt; any
    [ValueError] starts the week again; [input()] with no line left raises
    [EOFError], which ends [main] ([None]). *)
Fixpoint read_week (lines : list string) (self : list Draw)
    : option (list Draw * list string) :=
  match lines with
  | [] => None
  | regular_input :: rest =>
      match parse_regular regular_input with
      | None => read_week rest self
      | Some regular_numbers =>
          match rest with
          | [] => None
          | hot_input :: rest' =>
              match parse_hot hot_input with
              | None => read_week rest' self
              | Some hot_number =>
                  match add_result regular_numbers hot_number self with
                  | (Value _, self') => Some (self', rest')
                  | (_, self') => read_week rest' self'
                  end
              end
          end
      end
  end.

(** [for i in range(num_weeks): ...]. *)
Fixpoint read_weeks (num_weeks : nat) (lines : list string) (self : list Draw)
    : option (list Draw * list string) :=
  match num_weeks with
  | O => Some (self, lines)
  | S n =>
      match read_week lines self with
      | Some (self', rest) => read_weeks n rest self'
      | None => None
      end
  end.
End MainInput.

(** A reader that knows the three lines of the worked example, and one for
    hot numbers of one digit. *)
Definition example_parse_regular (line : string) : option (list Z) :=
  if String.eqb line "05-12-23-31-40" then Some [5; 12; 23; 31; 40]
  else if String.eqb line "02-12-19-31-38" then Some [2; 12; 19; 31; 38]
  else if String.eqb line "05-18-23-29-40" then Some [5; 18; 23; 29; 40]
  else if String.eqb line "05-05-23-29-40" then Some [5; 5; 23; 29; 40]
  else None.
Definition example_parse_hot (line : string) : option Z :=
  if String.eqb line "3" then Some 3
  else if String.eqb line "7" then Some 7
  else None.

(** * Properties *)

(** ** Integers, sorting, sets *)

Lemma fold_left_add_shift l a : fold_left Z.add l a = a + fold_left Z.add l 0.
Proof.
  revert a. induction l as [|y l IH]; intros a; simpl; [lia|].
  rewrite (IH (a + y)), (IH (0 + y)). lia.
Qed.

Lemma sum_cons x l : sum (x :: l) = x + sum l.
Proof. unfold sum. simpl. apply fold_left_add_shift. Qed.

Lemma sum_app l1 l2 : sum (l1 ++ l2) = sum l1 + sum l2.
Proof.
  induction l1 as [|x l1 IH]; [reflexivity|].
  change ((x :: l1) ++ l2) with (x :: (l1 ++ l2)).
  rewrite !sum_cons, IH. lia.
Qed.

Lemma sorted_perm l : sorted l ≡ₚ l.
Proof. apply merge_sort_Permutation. Qed.

Lemma sorted_Sorted l : Sorted Z.le (sorted l).
Proof. apply (Sorted_merge_sort Z.le). Qed.

Lemma sorted_length l : length (sorted l) = length l.
Proof. apply Permutation_length, sorted_perm. Qed.

Lemma size_list_to_set_le (l : list Z) : (size (list_to_set l : gset Z) ≤ length l)%nat.
Proof.
  induction l as [|x l IH].
  - rewrite list_to_set_nil, size_empty. simpl. lia.
  - rewrite list_to_set_cons, size_union_alt, size_singleton. simpl.
    assert (size (list_to_set l ∖ {[x]} : gset Z) ≤ size (list_to_set l : gset Z))%nat
      by (apply subseteq_size; set_solver).
    lia.
Qed.

Lemma size_list_to_set_NoDup (l : list Z) :
  size (list_to_set l : gset Z) = length l ↔ NoDup l.
Proof.
  split; [|apply size_list_to_set].
  induction l as [|x l IH]; intros Hsz; [constructor|].
  rewrite list_to_set_cons in Hsz. simpl in Hsz.
  destruct (decide (x ∈ l)) as [Hin|Hnin].
  - assert (({[x]} ∪ list_to_set l : gset Z) = list_to_set l) as Heq by set_solver.
    rewrite Heq in Hsz. pose proof (size_list_to_set_le l). lia.
  - constructor; [exact Hnin|]. apply IH.
    rewrite size_union, size_singleton in Hsz by set_solver. lia.
Qed.

Lemma out_of_range_spec x : out_of_range x = true ↔ x < 0 ∨ max_number < x.
Proof. unfold out_of_range. rewrite orb_true_iff, Z.ltb_lt, Z.gtb_ltb, Z.ltb_lt. tauto. Qed.

Lemma hot_out_of_range_spec h : hot_out_of_range h = true ↔ h < 1 ∨ hot_number_max < h.
Proof. unfold hot_out_of_range. rewrite orb_true_iff, Z.ltb_lt, Z.gtb_ltb, Z.ltb_lt. tauto. Qed.

Lemma existsb_out_of_range l :
  existsb out_of_range l = true ↔ Exists (fun x => x < 0 ∨ max_number < x) l.
Proof.
  rewrite existsb_exists, Exists_exists. split; intros (x & Hx & Hr); exists x;
    (split; [|by apply out_of_range_spec]).
  - by apply list_elem_of_In.
  - by apply list_elem_of_In.
Qed.

(** ** add_result *)


Lemma add_result_rejected regs h st :
  rejected regs h →
  is_value_error (fst (add_result regs h st)) ∧ snd (add_result regs h st) = st.
Proof.
  intros Hrej. unfold add_result.
  destruct (length regs =? 5)%nat eqn:Hlen; simpl; [|done].
  apply Nat.eqb_eq in Hlen.
  destruct (existsb out_of_range regs) eqn:Hrng; [done|].
  destruct (hot_out_of_range h) eqn:Hhot; [done|].
  destruct (size (list_to_set regs : gset Z) =? length regs)%nat eqn:Hdup; simpl; [|done].
  exfalso. apply Nat.eqb_eq, size_list_to_set_NoDup in Hdup.
  destruct Hrej as [?|[Hex|[Hh|?]]]; [done| | |done].
  - apply existsb_out_of_range in Hex. congruence.
  - apply hot_out_of_range_spec in Hh. congruence.
Qed.

Lemma add_result_accepted regs h st :
  ¬ rejected regs h →
  add_result regs h st = (Value tt, st ++ [mkDraw (sorted regs) h]).
Proof.
  intros Hok. unfold add_result, rejected in *.
  destruct (length regs =? 5)%nat eqn:Hlen; simpl.
  2:{ apply Nat.eqb_neq in Hlen. tauto. }
  destruct (existsb out_of_range regs) eqn:Hrng.
  { apply existsb_out_of_range in Hrng. tauto. }
  destruct (hot_out_of_range h) eqn:Hhot.
  { apply hot_out_of_range_spec in Hhot. tauto. }
  destruct (size (list_to_set regs : gset Z) =? length regs)%nat eqn:Hdup; simpl; [done|].
  apply Nat.eqb_neq in Hdup. rewrite size_list_to_set_NoDup in Hdup. tauto.
Qed.

Lemma rejected_dec regs h : rejected regs h ∨ ¬ rejected regs h.
Proof.
  unfold rejected.
  destruct (decide (length regs = 5%nat)); [|tauto].
  destruct (existsb out_of_range regs) eqn:Hrng.
  { apply existsb_out_of_range in Hrng. tauto. }
  assert (¬ Exists (fun x => x < 0 ∨ max_number < x) regs)
    by (rewrite <- existsb_out_of_range; congruence).
  destruct (hot_out_of_range h) eqn:Hhot.
  { apply hot_out_of_range_spec in Hhot. tauto. }
  assert (¬ (h < 1 ∨ hot_number_max < h))
    by (rewrite <- hot_out_of_range_spec; congruence).
  destruct (decide (NoDup regs)); tauto.
Qed.

(** C3. [add_result] raises [ValueError] exactly when the regular sequence
    does not have five entries, or one of them is outside [0,43], or the
    hot number is outside [1,16], or a regular number is repeated.  When it
    raises the store is the same list as before; otherwise the store is
    the old one with one draw appended, so its length grows by one. *)
Theorem add_result_validation (regs : list Z) (h : Z) (st : list Draw) :
  (is_value_error (fst (add_result regs h st)) ↔
     (length regs ≠ 5%nat ∨ Exists (fun x => x < 0 ∨ 43 < x) regs ∨
      (h < 1 ∨ 16 < h) ∨ ¬ NoDup regs)) ∧
  (is_value_error (fst (add_result regs h st)) → snd (add_result regs h st) = st) ∧
  (¬ is_value_error (fst (add_result regs h st)) →
     fst (add_result regs h st) = Value tt ∧
     snd (add_result regs h st) = st ++ [mkDraw (sorted regs) h] ∧
     length (snd (add_result regs h st)) = S (length st)).
Proof.
  change (length regs ≠ 5%nat ∨ Exists (fun x => x < 0 ∨ 43 < x) regs ∨
      (h < 1 ∨ 16 < h) ∨ ¬ NoDup regs) with (rejected regs h).
  destruct (rejected_dec regs h) as [Hrej|Hok].
  - destruct (add_result_rejected regs h st Hrej) as [Herr Hst]. tauto.
  - rewrite (add_result_accepted regs h st Hok). simpl.
    rewrite length_app. simpl. split; [tauto|]. split; [tauto|].
    intros _. repeat split. lia.
Qed.

(** ** The store invariant *)

Lemma add_result_valid regs h st :
  valid_store st → valid_store (snd (add_result regs h st)).
Proof.
  intros Hst. destruct (rejected_dec regs h) as [Hrej|Hok].
  - by rewrite (proj2 (add_result_rejected regs h st Hrej)).
  - rewrite (add_result_accepted regs h st Hok). simpl.
    apply Forall_app. split; [done|]. constructor; [|constructor].
    unfold rejected in Hok. unfold valid_draw. simpl.
    assert (length regs = 5%nat) by (destruct (decide (length regs = 5%nat)); tauto).
    assert (NoDup regs) by (destruct (decide (NoDup regs)); tauto).
    assert (1 <= h <= hot_number_max) by lia.
    assert (Forall (fun x => 0 <= x <= max_number) regs) as Hrange.
    { apply Forall_forall. intros x Hx.
      destruct (decide (0 <= x <= max_number)); [done|]. exfalso.
      apply Hok. right. left. apply Exists_exists. exists x. split; [done|lia]. }
    rewrite sorted_length. repeat split; try done; try lia.
    + by rewrite sorted_perm.
    + by rewrite sorted_perm.
    + apply sorted_Sorted.
Qed.

Lemma add_results_valid inputs st :
  valid_store st → valid_store (add_results inputs st).
Proof.
  revert st. induction inputs as [|i inputs IH]; intros st Hst; [done|].
  apply IH, add_result_valid, Hst.
Qed.

Lemma example_store_valid : valid_store example_store.
Proof. apply add_results_valid. constructor. Qed.

(** ** analyze_frequency *)


Lemma counter_incr_total k c : total_count (counter_incr k c) = total_count c + 1.
Proof.
  unfold total_count. induction c as [|[k' n] c IH]; simpl; [reflexivity|].
  case_decide; simpl; rewrite !sum_cons; [lia|]. rewrite IH. lia.
Qed.

Lemma counter_update_total l c :
  total_count (counter_update c l) = total_count c + Z.of_nat (length l).
Proof.
  unfold counter_update. revert c. induction l as [|k l IH]; intros c; simpl; [lia|].
  rewrite IH, counter_incr_total. lia.
Qed.

Lemma counter_incr_keys k c x :
  x ∈ map fst (counter_incr k c) ↔ x = k ∨ x ∈ map fst c.
Proof.
  induction c as [|[k' n] c IH]; simpl.
  - rewrite list_elem_of_singleton. set_solver.
  - case_decide; simpl; [set_solver|]. rewrite !elem_of_cons, IH. tauto.
Qed.

Lemma counter_incr_NoDup k c : NoDup (map fst c) → NoDup (map fst (counter_incr k c)).
Proof.
  induction c as [|[k' n] c IH]; simpl; intros Hnd.
  - apply NoDup_singleton.
  - case_decide; simpl; [done|].
    apply NoDup_cons in Hnd as [Hnin Hnd]. apply NoDup_cons. split; [|by apply IH].
    rewrite counter_incr_keys. intros [?|?]; congruence.
Qed.

Lemma counter_update_keys l c x :
  x ∈ map fst (counter_update c l) ↔ x ∈ l ∨ x ∈ map fst c.
Proof.
  unfold counter_update. revert c. induction l as [|k l IH]; intros c; simpl.
  - set_solver.
  - rewrite IH, counter_incr_keys, elem_of_cons. tauto.
Qed.

Lemma counter_update_NoDup l c :
  NoDup (map fst c) → NoDup (map fst (counter_update c l)).
Proof.
  unfold counter_update. revert c. induction l as [|k l IH]; intros c Hnd; simpl; [done|].
  by apply IH, counter_incr_NoDup.
Qed.


Lemma frequency_loop_cons d st f :
  frequency_loop (d :: st) f =
  frequency_loop st (mkFrequency (counter_update (freq_regular f) (regular d))
                                 (counter_update (freq_hot f) [hot d])).
Proof. reflexivity. Qed.

Lemma frequency_loop_totals st f :
  Forall (fun d => length (regular d) = 5%nat) st →
  total_count (freq_regular (frequency_loop st f))
    = total_count (freq_regular f) + 5 * Z.of_nat (length st) ∧
  total_count (freq_hot (frequency_loop st f))
    = total_count (freq_hot f) + Z.of_nat (length st).
Proof.
  revert f. induction st as [|d st IH]; intros f Hlen.
  - simpl. lia.
  - apply Forall_cons in Hlen as [Hd Hst]. rewrite frequency_loop_cons.
    destruct (IH (mkFrequency (counter_update (freq_regular f) (regular d))
                              (counter_update (freq_hot f) [hot d])) Hst) as [Hr Hh].
    rewrite Hr, Hh. cbn [freq_regular freq_hot].
    rewrite !counter_update_total, Hd. cbn [length]. lia.
Qed.

Lemma frequency_loop_keys st f :
  (∀ x, x ∈ map fst (freq_regular (frequency_loop st f)) ↔
        (∃ d, d ∈ st ∧ x ∈ regular d) ∨ x ∈ map fst (freq_regular f)) ∧
  (∀ x, x ∈ map fst (freq_hot (frequency_loop st f)) ↔
        (∃ d, d ∈ st ∧ x = hot d) ∨ x ∈ map fst (freq_hot f)).
Proof.
  revert f. induction st as [|d st IH]; intros f.
  - split; intros x; (split; [by right|]); intros [(d & Hd & _)|?]; try done;
      by apply not_elem_of_nil in Hd.
  - rewrite frequency_loop_cons.
    destruct (IH (mkFrequency (counter_update (freq_regular f) (regular d))
                              (counter_update (freq_hot f) [hot d]))) as [IHr IHh].
    split; intros x; [rewrite IHr|rewrite IHh]; cbn [freq_regular freq_hot];
      rewrite counter_update_keys.
    + split.
      * intros [(d' & Hd' & Hx)|[Hx|Hx]]; [left; exists d'|left; exists d|right];
          try done; split; try done; by constructor.
      * intros [(d' & Hd' & Hx)|Hx]; [|tauto].
        apply elem_of_cons in Hd' as [->|Hd']; [tauto|]. left. by exists d'.
    + rewrite list_elem_of_singleton. split.
      * intros [(d' & Hd' & Hx)|[Hx|Hx]]; [left; exists d'|left; exists d|right];
          try done; split; try done; by constructor.
      * intros [(d' & Hd' & Hx)|Hx]; [|tauto].
        apply elem_of_cons in Hd' as [->|Hd']; [tauto|]. left. by exists d'.
Qed.

Lemma frequency_loop_NoDup st f :
  NoDup (map fst (freq_regular f)) → NoDup (map fst (freq_hot f)) →
  NoDup (map fst (freq_regular (frequency_loop st f))) ∧
  NoDup (map fst (freq_hot (frequency_loop st f))).
Proof.
  revert f. induction st as [|d st IH]; intros f Hr Hh; [done|].
  rewrite frequency_loop_cons. apply IH; by apply counter_update_NoDup.
Qed.

Lemma valid_store_lengths st :
  valid_store st → Forall (fun d => length (regular d) = 5%nat) st.
Proof. intros Hst. eapply Forall_impl; [exact Hst|]. by intros d (? & _). Qed.

(** C5. After any sequence of [add_result] calls (those that raise leave
    the store as it was), every stored draw's [regular] list is sorted
    ascending, the counts of [analyze_frequency()['regular']] add up to five
    times the number of stored draws, and those of [...['hot']] to the
    number of stored draws. *)
Theorem stored_sorted_and_counted (inputs : list (list Z * Z)) :
  Forall (fun d => Sorted Z.le (regular d)) (add_results inputs []) ∧
  sum (map snd (freq_regular (analyze_frequency (add_results inputs []))))
    = 5 * Z.of_nat (length (add_results inputs [])) ∧
  sum (map snd (freq_hot (analyze_frequency (add_results inputs []))))
    = Z.of_nat (length (add_results inputs [])).
Proof.
  assert (valid_store (add_results inputs [])) as Hvalid
    by (apply add_results_valid; constructor).
  split.
  - eapply Forall_impl; [exact Hvalid|]. by intros d (_ & _ & _ & Hs & _).
  - destruct (frequency_loop_totals (add_results inputs []) (mkFrequency [] [])
                (valid_store_lengths _ Hvalid)) as [Hr Hh].
    exact (conj Hr Hh).
Qed.

(** ** most_common *)

Lemma insert_by_count_perm x l : insert_by_count x l ≡ₚ x :: l.
Proof.
  induction l as [|y l IH]; simpl; [done|].
  destruct (snd x <? snd y); [|done]. rewrite IH. apply Permutation_swap.
Qed.

Lemma sort_by_count_perm c : sort_by_count c ≡ₚ c.
Proof.
  unfold sort_by_count. induction c as [|x c IH]; simpl; [done|].
  by rewrite insert_by_count_perm, IH.
Qed.

Lemma most_common_length n c : length (most_common n c) = (n `min` length c)%nat.
Proof.
  unfold most_common. rewrite length_take.
  by rewrite (Permutation_length (sort_by_count_perm c)).
Qed.

Lemma most_common_keys n c x :
  x ∈ map fst (most_common n c) → x ∈ map fst c.
Proof.
  unfold most_common. intros Hx.
  apply list_elem_of_fmap in Hx as (y & -> & Hy).
  apply list_elem_of_fmap. exists y. split; [done|].
  rewrite <- (sort_by_count_perm c), <- (take_drop n (sort_by_count c)).
  apply elem_of_app. by left.
Qed.

Lemma NoDup_incl_length_le (l k : list Z) :
  NoDup l → (∀ x, x ∈ l → x ∈ k) → (length l ≤ length k)%nat.
Proof. intros Hnd Hincl. by apply submseteq_length, NoDup_submseteq. Qed.


Lemma most_common_regular_length st d :
  valid_store st → d ∈ st → (5 ≤ length (most_common_regular_of st))%nat.
Proof.
  intros Hvalid Hd. unfold most_common_regular_of.
  rewrite length_map, most_common_length.
  assert (5 ≤ length (freq_regular (analyze_frequency st)))%nat; [|lia].
  rewrite <- (length_map fst).
  pose proof (proj1 (Forall_forall _ _) Hvalid d Hd) as (Hlen & Hnd & _).
  rewrite <- Hlen. apply NoDup_incl_length_le; [done|].
  intros x Hx. apply (proj1 (frequency_loop_keys st (mkFrequency [] []))). left.
  by exists d.
Qed.

Lemma most_common_hot_length st d :
  d ∈ st → (1 ≤ length (most_common_hot_of st))%nat.
Proof.
  intros Hd. unfold most_common_hot_of.
  rewrite length_map, most_common_length.
  assert (1 ≤ length (freq_hot (analyze_frequency st)))%nat; [|lia].
  rewrite <- (length_map fst).
  change 1%nat with (length [hot d]). apply NoDup_incl_length_le; [apply NoDup_singleton|].
  intros x Hx. apply list_elem_of_singleton in Hx as ->.
  apply (proj2 (frequency_loop_keys st (mkFrequency [] []))). left. by exists d.
Qed.

Lemma most_common_regular_range st x :
  valid_store st → x ∈ most_common_regular_of st → 0 <= x <= max_number.
Proof.
  intros Hvalid Hx. apply most_common_keys in Hx.
  apply (proj1 (frequency_loop_keys st (mkFrequency [] []))) in Hx
    as [(d & Hd & Hx)|Hx]; [|by apply not_elem_of_nil in Hx].
  pose proof (proj1 (Forall_forall _ _) Hvalid d Hd) as (_ & _ & Hr & _).
  by apply (proj1 (Forall_forall _ _) Hr).
Qed.

Lemma most_common_hot_range st x :
  valid_store st → x ∈ most_common_hot_of st → 1 <= x <= hot_number_max.
Proof.
  intros Hvalid Hx. apply most_common_keys in Hx.
  apply (proj2 (frequency_loop_keys st (mkFrequency [] []))) in Hx
    as [(d & Hd & ->)|Hx]; [|by apply not_elem_of_nil in Hx].
  by pose proof (proj1 (Forall_forall _ _) Hvalid d Hd) as (_ & _ & _ & _ & Hh).
Qed.

(** ** The random source *)

Lemma choice_nonempty {A} (seq : list A) (g : Rng) :
  seq ≠ [] →
  ∃ x, choice seq g = Some (Value x, mkRng (source g) (S (pos g))) ∧ x ∈ seq.
Proof.
  intros Hne. destruct seq as [|a seq']; [done|].
  change (choice (a :: seq') g) with
    (match (a :: seq') !! (source g (pos g) mod length (a :: seq'))%nat with
     | Some x => Some (Value x, mkRng (source g) (S (pos g)))
     | None => Some (Raised IndexError, mkRng (source g) (S (pos g)))
     end).
  assert (source g (pos g) mod length (a :: seq') < length (a :: seq'))%nat as Hlt
    by (apply Nat.mod_upper_bound; simpl; lia).
  apply lookup_lt_is_Some in Hlt as [x Hx]. rewrite Hx.
  exists x. split; [done|]. by eapply list_elem_of_lookup_2.
Qed.

Lemma randint_value_range a b r :
  a <= b → a <= randint_value a b r <= b.
Proof.
  intros Hab. unfold randint_value.
  pose proof (Z.mod_pos_bound (Z.of_nat r) (b - a + 1)). lia.
Qed.

Lemma randint_ok a b g :
  a <= b →
  randint a b g
    = Some (Value (randint_value a b (source g (pos g))), mkRng (source g) (S (pos g))).
Proof.
  intros Hab. unfold randint. destruct (b <? a) eqn:Hlt; [lia|done].
Qed.

(** C10. With three valid draws or more in the store, [most_common_regular]
    has at least five entries and [most_common_hot] at least one.  So the
    guard [if most_common_regular] never skips the frequent-number draw, and
    the hot number is never taken from [randint(1, 16)]: it is an element of
    [most_common_hot] chosen by [random.choice]. *)
Theorem frequent_lists_never_empty (st : list Draw) :
  valid_store st → (3 ≤ length st)%nat →
  (5 ≤ length (most_common_regular_of st))%nat ∧
  (1 ≤ length (most_common_hot_of st))%nat ∧
  (∀ k s, frequent_phase (S k) (most_common_regular_of st) s
          = gbind (choice (most_common_regular_of st))
              (fun x => frequent_phase k (most_common_regular_of st) ({[x]} ∪ s))) ∧
  pick_hot (most_common_hot_of st) = choice (most_common_hot_of st) ∧
  (∀ g, ∃ h, pick_hot (most_common_hot_of st) g
               = Some (Value h, mkRng (source g) (S (pos g))) ∧
             h ∈ most_common_hot_of st).
Proof.
  intros Hvalid Hlen.
  destruct st as [|d st']; [simpl in Hlen; lia|].
  set (st := d :: st') in *.
  assert (d ∈ st) as Hd by (subst st; constructor).
  pose proof (most_common_regular_length st d Hvalid Hd) as Hr.
  pose proof (most_common_hot_length st d Hd) as Hh.
  split; [done|]. split; [done|].
  destruct (most_common_regular_of st) as [|r mcr] eqn:Hmcr; [simpl in Hr; lia|].
  destruct (most_common_hot_of st) as [|h mch] eqn:Hmch; [simpl in Hh; lia|].
  split; [done|]. split; [done|].
  intros g. apply choice_nonempty. done.
Qed.

Lemma frequent_lists_never_empty_witness :
  (5 ≤ length (most_common_regular_of example_store))%nat ∧
  (1 ≤ length (most_common_hot_of example_store))%nat.
Proof.
  pose proof (frequent_lists_never_empty example_store example_store_valid) as H.
  assert (3 ≤ length example_store)%nat as Hlen by (vm_compute; lia).
  destruct (H Hlen) as (H1 & H2 & _). exact (conj H1 H2).
Defined.

(** ** analyze_patterns *)

Lemma bump_in_range ranges i :
  length ranges = 4%nat → 0 <= i <= 3 →
  ∃ ranges', bump ranges i = Some ranges' ∧ length ranges' = 4%nat.
Proof.
  intros Hlen Hi. unfold bump, py_index. rewrite Hlen.
  destruct ((0 <=? i) && (i <? Z.of_nat 4)) eqn:Hb.
  2:{ apply andb_false_iff in Hb as [Hb|Hb]; [apply Z.leb_gt in Hb|apply Z.ltb_ge in Hb]; lia. }
  assert (Z.to_nat i < length ranges)%nat as Hlt by lia.
  apply lookup_lt_is_Some in Hlt as [x Hx]. rewrite Hx.
  eexists. split; [reflexivity|]. by rewrite length_insert.
Qed.

Lemma range_histogram_valid nums ranges :
  Forall (fun x => 0 <= x <= max_number) nums → length ranges = 4%nat →
  ∃ ranges', range_histogram nums ranges = Some ranges' ∧ length ranges' = 4%nat.
Proof.
  revert ranges. induction nums as [|num nums IH]; intros ranges Hr Hlen; simpl.
  - by exists ranges.
  - apply Forall_cons in Hr as [Hnum Hr]. unfold max_number in Hnum.
    assert (0 <= Z.min 3 (num / 11) <= 3) as Hidx.
    { pose proof (Z.div_pos num 11). lia. }
    destruct (bump_in_range ranges _ Hlen Hidx) as (ranges' & -> & Hlen').
    by apply IH.
Qed.

Lemma pattern_step_valid p d :
  valid_draw d → ∃ p', pattern_step p d = Value p'.
Proof.
  intros (_ & _ & Hr & _). unfold pattern_step.
  destruct (range_histogram_valid (regular d) [0; 0; 0; 0] Hr eq_refl) as (r & -> & _).
  by eexists.
Qed.

Lemma patterns_loop_valid st p :
  valid_store st → ∃ p', patterns_loop st p = Value p'.
Proof.
  revert p. induction st as [|d st IH]; intros p Hst; simpl.
  - by exists p.
  - apply Forall_cons in Hst as [Hd Hst].
    destruct (pattern_step_valid p d Hd) as (p1 & ->). by apply IH.
Qed.

Lemma patterns_loop_no_message st p : ¬ is_message (patterns_loop st p).
Proof.
  revert p. induction st as [|d st IH]; intros p; simpl; [tauto|].
  unfold pattern_step. destruct (range_histogram _ _); [apply IH|simpl; tauto].
Qed.

Lemma analyze_patterns_message st :
  is_message (analyze_patterns st) ↔ (length st < 2)%nat.
Proof.
  unfold analyze_patterns. destruct (length st <? 2)%nat eqn:Hlen.
  - apply Nat.ltb_lt in Hlen. simpl. tauto.
  - apply Nat.ltb_ge in Hlen. split; [|lia].
    intros Hm. by apply patterns_loop_no_message in Hm.
Qed.

Lemma analyze_patterns_value st :
  valid_store st → (2 ≤ length st)%nat → ∃ p, analyze_patterns st = Value p.
Proof.
  intros Hst Hlen. unfold analyze_patterns.
  destruct (length st <? 2)%nat eqn:Hlt; [apply Nat.ltb_lt in Hlt; lia|].
  by apply patterns_loop_valid.
Qed.

(** ** chaos_theory_analysis *)

Section ChaosProperties.
Context {F : Type} `{FloatOps F}.

Lemma total_numbers_stream st : total_numbers st = spec_stream st.
Proof.
  unfold total_numbers, spec_stream.
  assert (∀ acc, fold_left (fun acc result => (acc ++ regular result) ++ [hot result]) st acc
                 = acc ++ flat_map (fun d => regular d ++ [hot d]) st) as Hgen.
  { induction st as [|d st IH]; intros acc; simpl.
    - by rewrite app_nil_r.
    - by rewrite IH, <- !app_assoc. }
  apply (Hgen []).
Qed.

Lemma differences_map total :
  differences total
  = map (fun i => Z.abs (nth i total 0 - nth (i - 1) total 0)) (seq 1 (length total - 1)).
Proof.
  unfold differences.
  assert (∀ (l : list nat) acc,
            fold_left (fun acc i => acc ++ [Z.abs (nth i total 0 - nth (i - 1) total 0)]) l acc
            = acc ++ map (fun i => Z.abs (nth i total 0 - nth (i - 1) total 0)) l) as Hgen.
  { induction l as [|i l IH]; intros acc; simpl.
    - by rewrite app_nil_r.
    - by rewrite IH, <- app_assoc. }
  apply (Hgen _ []).
Qed.

Lemma differences_spec total : differences total = spec_differences total.
Proof.
  rewrite differences_map. induction total as [|a [|b rest] IH]; [done|done|].
  replace (length (a :: b :: rest) - 1)%nat with (S (length (b :: rest) - 1))
    by (simpl; lia).
  change (spec_differences (a :: b :: rest))
    with (Z.abs (b - a) :: spec_differences (b :: rest)).
  rewrite <- IH. cbn [seq map]. f_equal.
  rewrite <- seq_shift, map_map. apply map_ext_in.
  intros i Hi. apply in_seq in Hi.
  destruct i as [|i]; [lia|]. simpl. by rewrite Nat.sub_0_r.
Qed.

Lemma spec_differences_length l : length (spec_differences l) = (length l - 1)%nat.
Proof.
  induction l as [|a [|b rest] IH]; [done|done|].
  change (spec_differences (a :: b :: rest))
    with (Z.abs (b - a) :: spec_differences (b :: rest)).
  cbn [length] in *. lia.
Qed.

Lemma spec_differences_nonneg l : Forall (fun d => 0 <= d) (spec_differences l).
Proof.
  induction l as [|a [|b rest] IH]; [constructor|constructor|].
  change (spec_differences (a :: b :: rest))
    with (Z.abs (b - a) :: spec_differences (b :: rest)).
  constructor; [lia|done].
Qed.

Lemma spec_stream_length st : (length st ≤ length (spec_stream st))%nat.
Proof.
  unfold spec_stream. induction st as [|d st IH]; simpl; [lia|].
  rewrite !length_app. simpl. lia.
Qed.

Lemma differences_nonempty st :
  (3 ≤ length st)%nat → differences (total_numbers st) ≠ [].
Proof.
  intros Hlen Hnil. rewrite total_numbers_stream, differences_spec in Hnil.
  pose proof (spec_differences_length (spec_stream st)) as Hdl.
  pose proof (spec_stream_length st) as Hsl.
  rewrite Hnil in Hdl. simpl in Hdl. lia.
Qed.

Lemma chaos_value st :
  (3 ≤ length st)%nat → is_value (chaos_theory_analysis st).
Proof.
  intros Hlen. unfold chaos_theory_analysis.
  destruct (length st <? 3)%nat eqn:Hlt; [apply Nat.ltb_lt in Hlt; lia|].
  pose proof (differences_nonempty st Hlen) as Hne.
  destruct (differences (total_numbers st)); [done|exact I].
Qed.

Lemma log_term_nonneg d :
  0 <= d → log_term d = if decide (d = 0) then of_int 0 else flog (of_int d).
Proof.
  intros Hd. unfold log_term. rewrite Z.abs_eq by done.
  destruct (decide (d = 0)), (decide (d ≠ 0)); done.
Qed.

(** C6. With three draws or more, [chaos_theory_analysis] returns the
    estimate of the specification: over the stream that takes each draw's
    stored regular numbers followed by its hot number, in store order, the
    sum over the consecutive absolute differences [d] of [log d] (of [0]
    when [d = 0]), divided by the number of all differences; [is_chaotic]
    is the test [> 0] on that estimate. *)
Theorem chaos_estimate_formula (st : list Draw) :
  (3 ≤ length st)%nat →
  chaos_theory_analysis st
  = Value (mkChaos (spec_lyapunov st) (fpositive (spec_lyapunov st))).
Proof.
  intros Hlen. unfold chaos_theory_analysis, spec_lyapunov.
  destruct (length st <? 3)%nat eqn:Hlt; [apply Nat.ltb_lt in Hlt; lia|].
  rewrite total_numbers_stream, differences_spec.
  pose proof (spec_differences_length (spec_stream st)) as Hdl.
  pose proof (spec_stream_length st) as Hsl.
  pose proof (spec_differences_nonneg (spec_stream st)) as Hnn.
  destruct (spec_differences (spec_stream st)) as [|d ds] eqn:Hds.
  { simpl in Hdl. lia. }
  assert (map log_term (d :: ds)
          = map (fun d => if decide (d = 0) then of_int 0 else flog (of_int d)) (d :: ds))
    as ->; [|done].
  apply map_ext_in. intros x Hx. apply log_term_nonneg.
  by apply (proj1 (Forall_forall _ _) Hnn), list_elem_of_In.
Qed.

End ChaosProperties.

Lemma chaos_estimate_formula_witness :
  @chaos_theory_analysis R R_ops example_store
  = Value (mkChaos (@spec_lyapunov R R_ops example_store)
                   (@fpositive R R_ops (@spec_lyapunov R R_ops example_store))).
Proof.
  apply (@chaos_estimate_formula R R_ops example_store). vm_compute. lia.
Defined.

(** Over the reals the flag is the sign test itself. *)
Lemma is_chaotic_real (st : list Draw) (c : ChaosSignal R) :
  @chaos_theory_analysis R R_ops st = Value c →
  is_chaotic c = true ↔ (0 < lyapunov_estimate c)%R.
Proof.
  unfold chaos_theory_analysis. destruct (length st <? 3)%nat; [done|].
  destruct (differences _); [done|]. intros [= <-]. simpl.
  destruct (Rlt_dec _ _); split; done.
Qed.

(** ** enigma_inspired_analysis *)

Lemma table_lookup (f : Z → Z) (l : list Z) (m : gmap Z Z) (j : Z) :
  fold_left (fun tr i => <[i := f i]> tr) l m !! j
  = if decide (j ∈ l) then Some (f j) else m !! j.
Proof.
  revert m. induction l as [|i l IH]; intros m; cbn [fold_left].
  - destruct (decide (j ∈ [])) as [Hj|Hj]; [by apply not_elem_of_nil in Hj|done].
  - rewrite IH. destruct (decide (j ∈ l)) as [Hl|Hl].
    + rewrite decide_True by (by right). done.
    + destruct (decide (i = j)) as [->|Hne].
      * rewrite decide_True by (by left). apply lookup_insert_eq.
      * rewrite decide_False; [by apply lookup_insert_ne|].
        intros Hj. apply elem_of_cons in Hj as [Hj|Hj]; [congruence|done].
Qed.

Lemma transform_in_table (tr : gmap Z Z) (f : Z → Z) nums :
  Forall (fun x => tr !! x = Some (f x)) nums →
  transform tr nums = Value (map f nums).
Proof.
  induction 1 as [|x nums Hx _ IH]; simpl; [done|]. by rewrite Hx, IH.
Qed.

Lemma transform_all_in_table (tr : gmap Z Z) (f : Z → Z) st acc :
  Forall (fun d => Forall (fun x => tr !! x = Some (f x)) (regular d)) st →
  transform_all tr st acc = Value (acc ++ map (fun d => map f (regular d)) st).
Proof.
  intros Hst. revert acc. induction Hst as [|d st Hd _ IH]; intros acc; simpl.
  - by rewrite app_nil_r.
  - rewrite (transform_in_table tr f _ Hd), IH. by rewrite <- app_assoc.
Qed.

(** C7. On a store of valid draws: if the store is empty the analysis
    returns its "no data" message; otherwise, with [S] the sum of the regular
    numbers of the last stored draw, it returns a table that maps each [i] of
    [0..43] to [(i + S) mod 44] and has no other key, together with one list
    per stored draw, in store order, that is the table applied to the draw's
    regular numbers.  The method takes no random source. *)
Theorem enigma_table (st : list Draw) :
  valid_store st →
  match last st with
  | None => st = [] ∧ is_message (enigma_inspired_analysis st)
  | Some d =>
      ∃ e, enigma_inspired_analysis st = Value e ∧
           (∀ i, 0 <= i <= 43 → transformation e !! i = Some ((i + sum (regular d)) mod 44)) ∧
           (∀ i, ¬ 0 <= i <= 43 → transformation e !! i = None) ∧
           transformed_results e
           = map (fun r => map (fun x => (x + sum (regular d)) mod 44) (regular r)) st
  end.
Proof.
  intros Hvalid. unfold enigma_inspired_analysis.
  destruct (last st) as [d|] eqn:Hlast.
  2:{ apply last_None in Hlast. split; [done|]. simpl. tauto. }
  set (f := fun i => (i + sum (regular d)) mod (max_number + 1)).
  set (tr := fold_left _ _ _).
  assert (∀ j, tr !! j = if decide (j ∈ seqZ 0 (max_number + 1)) then Some (f j) else None)
    as Htr.
  { intros j. subst tr. rewrite (table_lookup f). by rewrite lookup_empty. }
  assert (∀ i, 0 <= i <= 43 → tr !! i = Some (f i)) as Hin.
  { intros i Hi. rewrite Htr, decide_True; [done|].
    apply elem_of_seqZ. unfold max_number. lia. }
  assert (∀ i, ¬ 0 <= i <= 43 → tr !! i = None) as Hout.
  { intros i Hi. rewrite Htr, decide_False; [done|].
    rewrite elem_of_seqZ. unfold max_number. lia. }
  rewrite (transform_all_in_table tr f).
  - eexists. split; [reflexivity|]. simpl. done.
  - eapply Forall_impl; [exact Hvalid|]. intros r (_ & _ & Hr & _).
    eapply Forall_impl; [exact Hr|]. intros x Hx. apply Hin. unfold max_number in Hx. lia.
Qed.

Lemma enigma_table_witness :
  ∃ e, enigma_inspired_analysis example_store = Value e ∧
       transformation e !! 0 = Some 27 ∧
       transformed_results e = [[32; 39; 6; 14; 23]; [29; 39; 2; 14; 21]; [32; 1; 6; 12; 23]].
Proof.
  pose proof (enigma_table example_store example_store_valid) as H.
  change (last example_store) with (Some (mkDraw [5; 18; 23; 29; 40] 3)) in H.
  destruct H as (e & He & Htab & _ & Hres).
  exists e. split; [exact He|]. split.
  - rewrite (Htab 0) by lia. reflexivity.
  - rewrite Hres. reflexivity.
Defined.

(** ** Analyses do not write the store *)

Lemma example_state_store : store_of example_state = example_store.
Proof. by vm_compute. Qed.

Lemma unchanged_from_refl st : unchanged_from st st.
Proof. by split. Qed.

Lemma unchanged_from_trans st0 st1 st2 :
  unchanged_from st0 st1 → unchanged_from st1 st2 → unchanged_from st0 st2.
Proof. intros [Hr1 Hh1] [Hr2 Hh2]. split; [congruence|]. auto. Qed.

Lemma unchanged_from_store_of st0 st :
  no_dangling st0 → unchanged_from st0 st →
  store_of st = store_of st0 ∧ no_dangling st.
Proof.
  intros Hnd [Hres Hheap]. unfold store_of, no_dangling. rewrite Hres. split.
  - apply map_ext_in. intros r Hr. apply list_elem_of_In in Hr.
    destruct (proj1 (Forall_forall _ _) Hnd r Hr) as [v Hv].
    unfold deref. by rewrite Hv, (Hheap _ _ Hv).
  - eapply Forall_impl; [exact Hnd|]. intros r [v Hv]. exists v. by apply Hheap.
Qed.

Lemma deref_old st0 r v :
  heap st0 !! regular_ref r = Some v → deref st0 r = mkDraw v (hot_val r).
Proof. intros Hv. unfold deref. by rewrite Hv. Qed.

(** *** Rules for running a method body *)

Lemma wp_ret {A} st0 (a : A) st (Q : outcome A → PyState → Prop) :
  Q (Value a) st → wp st0 (pret a) st Q.
Proof. intros HQ Hinv. by exists (Value a), st. Qed.

Lemma wp_raise {A} st0 e st (Q : outcome A → PyState → Prop) :
  Q (Raised e) st → wp st0 (praise e) st Q.
Proof. intros HQ Hinv. by exists (Raised e), st. Qed.

Lemma wp_message {A} st0 msg st (Q : outcome A → PyState → Prop) :
  Q (Message msg) st → wp st0 (pmessage msg) st Q.
Proof. intros HQ Hinv. by exists (Message msg), st. Qed.

Lemma wp_mono {A} st0 (m : Py A) st (Q Q' : outcome A → PyState → Prop) :
  wp st0 m st Q → (∀ o st', unchanged_from st0 st' → Q o st' → Q' o st') →
  wp st0 m st Q'.
Proof.
  intros Hm HQ Hinv. destruct (Hm Hinv) as (o & st' & Hrun & Hinv' & Ho).
  exists o, st'. auto.
Qed.

Lemma wp_bind {A B} st0 (m : Py A) (k : A → Py B) st
    (Q : outcome B → PyState → Prop) :
  wp st0 m st (fun o st' =>
    match o with
    | Value a => wp st0 (k a) st' Q
    | Message msg => Q (Message msg) st'
    | Raised e => Q (Raised e) st'
    end) →
  wp st0 (pbind m k) st Q.
Proof.
  intros Hm Hinv. destruct (Hm Hinv) as (o & st' & Hrun & Hinv' & Ho).
  unfold pbind. rewrite Hrun. destruct o as [a|msg|e].
  - exact (Ho Hinv').
  - by exists (Message msg), st'.
  - by exists (Raised e), st'.
Qed.

Lemma wp_get_results st0 st (Q : outcome (list DrawObj) → PyState → Prop) :
  Q (Value (results st0)) st → wp st0 get_results st Q.
Proof.
  intros HQ Hinv. exists (Value (results st)), st.
  split; [done|]. split; [done|]. destruct Hinv as [-> _]. done.
Qed.

(** Reading an object that existed in [st0] gives its contents in [st0]. *)
Lemma wp_load_old st0 l v st (Q : outcome (list Z) → PyState → Prop) :
  heap st0 !! l = Some v → Q (Value v) st → wp st0 (load l) st Q.
Proof.
  intros Hl HQ Hinv. exists (Value v), st. split; [|done].
  unfold load. destruct Hinv as [_ Hheap]. by rewrite (Hheap _ _ Hl).
Qed.

Lemma wp_load st0 l v st (Q : outcome (list Z) → PyState → Prop) :
  heap st !! l = Some v → Q (Value v) st → wp st0 (load l) st Q.
Proof.
  intros Hl HQ Hinv. exists (Value v), st. split; [|done]. unfold load. by rewrite Hl.
Qed.

(** A new object is none of the objects of [st0]. *)
Lemma wp_alloc st0 v st (Q : outcome nat → PyState → Prop) :
  (∀ l, heap st !! l = None → heap st0 !! l = None →
        Q (Value l) (mkPyState (results st) (<[l := v]> (heap st)))) →
  wp st0 (alloc v) st Q.
Proof.
  intros HQ Hinv. set (l := fresh (dom (heap st))).
  assert (heap st !! l = None) as Hl.
  { apply not_elem_of_dom. apply is_fresh. }
  assert (heap st0 !! l = None) as Hl0.
  { destruct (heap st0 !! l) as [v0|] eqn:H0; [|done].
    destruct Hinv as [_ Hheap]. rewrite (Hheap _ _ H0) in Hl. done. }
  exists (Value l), (mkPyState (results st) (<[l := v]> (heap st))).
  split; [done|]. split; [|by apply HQ].
  destruct Hinv as [Hres Hheap]. split; [done|]. simpl. intros l' v' Hl'.
  rewrite lookup_insert_ne; [by apply Hheap|]. intros <-. congruence.
Qed.

(** Writing to an object that is none of the objects of [st0]. *)
Lemma wp_store st0 l v st (Q : outcome unit → PyState → Prop) :
  heap st0 !! l = None →
  Q (Value tt) (mkPyState (results st) (<[l := v]> (heap st))) →
  wp st0 (store l v) st Q.
Proof.
  intros Hl0 HQ Hinv.
  exists (Value tt), (mkPyState (results st) (<[l := v]> (heap st))).
  split; [done|]. split; [|done].
  destruct Hinv as [Hres Hheap]. split; [done|]. simpl. intros l' v' Hl'.
  rewrite lookup_insert_ne; [by apply Hheap|]. intros <-. congruence.
Qed.

(** What a finished run says about the whole call. *)
Lemma wp_run {A} st0 (m : Py A) (Q : outcome A → PyState → Prop) :
  wp st0 m st0 Q → ∃ o st', m st0 = (o, st') ∧ unchanged_from st0 st' ∧ Q o st'.
Proof. intros Hm. apply Hm, unchanged_from_refl. Qed.

(** *** analyze_frequency *)

Lemma frequency_loop_py_wp st0 rs f st :
  Forall (fun r => is_Some (heap st0 !! regular_ref r)) rs →
  wp st0 (frequency_loop_py rs f) st
    (fun o _ => o = Value (frequency_loop (map (deref st0) rs) f)).
Proof.
  intros Hrs. revert f. induction Hrs as [|r rs [v Hv] _ IH]; intros f.
  - by apply wp_ret.
  - cbn [frequency_loop_py]. apply wp_bind, (wp_load_old st0 _ v); [done|].
    cbn [map]. rewrite frequency_loop_cons, (deref_old st0 r v Hv). apply IH.
Qed.

Lemma analyze_frequency_py_wp st0 :
  no_dangling st0 →
  wp st0 analyze_frequency_py st0
    (fun o _ => o = Value (analyze_frequency (store_of st0))).
Proof.
  intros Hnd. unfold analyze_frequency_py. apply wp_bind, wp_get_results.
  by apply frequency_loop_py_wp.
Qed.

(** *** analyze_patterns *)

Lemma histogram_loop_py_wp st0 nums ranges cur st :
  heap st0 !! ranges = None → heap st !! ranges = Some cur →
  wp st0 (histogram_loop_py nums ranges) st
    (fun o st' =>
       match range_histogram nums cur with
       | Some h => o = Value tt ∧ heap st' !! ranges = Some h
       | None => o = Raised IndexError
       end).
Proof.
  intros Hnew. revert cur st. induction nums as [|num nums IH]; intros cur st Hcur.
  - by apply wp_ret.
  - cbn [histogram_loop_py range_histogram].
    apply wp_bind, (wp_load st0 _ cur); [done|].
    destruct (bump cur (Z.min 3 (num / 11))) as [cur'|]; [|by apply wp_raise].
    apply wp_bind, wp_store; [done|]. apply IH. simpl. apply lookup_insert_eq.
Qed.

Lemma pattern_step_py_wp st0 p r v st :
  heap st0 !! regular_ref r = Some v →
  wp st0 (pattern_step_py p r) st
    (fun o _ => o = pattern_step p (mkDraw v (hot_val r))).
Proof.
  intros Hv. unfold pattern_step_py, pattern_step. cbn [regular hot].
  apply wp_bind, (wp_load_old st0 _ v); [done|].
  apply wp_bind, (wp_load_old st0 _ v); [done|].
  apply wp_bind, wp_alloc. intros ranges Hr Hr0.
  apply wp_bind, (wp_load_old st0 _ v); [done|].
  apply wp_bind.
  eapply wp_mono; [apply (histogram_loop_py_wp st0 v ranges [0; 0; 0; 0]); [done|]|].
  { simpl. apply lookup_insert_eq. }
  intros o st' _ Ho. destruct (range_histogram v [0; 0; 0; 0]) as [h|]; [|by subst o].
  destruct Ho as [-> Hh].
  apply wp_bind, (wp_load st0 _ h); [done|].
  apply wp_bind, (wp_load_old st0 _ v); [done|].
  apply wp_bind, wp_alloc. intros sorted_nums Hs Hs0.
  apply wp_bind, (wp_load st0 _ (sorted v)); [simpl; apply lookup_insert_eq|].
  apply wp_bind, (wp_load_old st0 _ v); [done|].
  by apply wp_ret.
Qed.

Lemma patterns_loop_py_wp st0 rs p st :
  Forall (fun r => is_Some (heap st0 !! regular_ref r)) rs →
  wp st0 (patterns_loop_py rs p) st
    (fun o _ => o = patterns_loop (map (deref st0) rs) p).
Proof.
  intros Hrs. revert p st. induction Hrs as [|r rs [v Hv] _ IH]; intros p st.
  - by apply wp_ret.
  - cbn [patterns_loop_py map patterns_loop]. apply wp_bind.
    eapply wp_mono; [by apply (pattern_step_py_wp st0 p r v)|].
    intros o st' _ ->. rewrite (deref_old st0 r v Hv).
    destruct (pattern_step p (mkDraw v (hot_val r))) as [p'|msg|e]; [apply IH|done|done].
Qed.

Lemma analyze_patterns_py_wp st0 :
  no_dangling st0 →
  wp st0 analyze_patterns_py st0 (fun o _ => o = analyze_patterns (store_of st0)).
Proof.
  intros Hnd. unfold analyze_patterns_py, analyze_patterns, store_of.
  apply wp_bind, wp_get_results. rewrite length_map.
  destruct (length (results st0) <? 2)%nat; [by apply wp_message|].
  by apply patterns_loop_py_wp.
Qed.

(** *** enigma_inspired_analysis *)

Lemma table_loop_py_wp st0 keys l v tr st (Q : outcome (gmap Z Z) → PyState → Prop) :
  heap st0 !! l = Some v →
  Q (Value (fold_left (fun tr i => <[i := (i + sum v) mod (max_number + 1)]> tr) keys tr)) st →
  wp st0 (table_loop_py keys l tr) st Q.
Proof.
  intros Hv. revert tr. induction keys as [|i keys IH]; intros tr HQ.
  - by apply wp_ret.
  - cbn [table_loop_py]. apply wp_bind, (wp_load_old st0 _ v); [done|]. by apply IH.
Qed.

Lemma transform_loop_py_wp st0 tr rs acc st :
  Forall (fun r => is_Some (heap st0 !! regular_ref r)) rs →
  wp st0 (transform_loop_py tr rs acc) st
    (fun o _ => o = transform_all tr (map (deref st0) rs) acc).
Proof.
  intros Hrs. revert acc. induction Hrs as [|r rs [v Hv] _ IH]; intros acc.
  - by apply wp_ret.
  - cbn [transform_loop_py map transform_all].
    apply wp_bind, (wp_load_old st0 _ v); [done|].
    rewrite (deref_old st0 r v Hv). cbn [regular].
    destruct (transform tr v) as [t|msg|e];
      [apply IH|by apply wp_message|by apply wp_raise].
Qed.

Lemma last_map {A B} (f : A → B) (l : list A) : last (map f l) = f <$> last l.
Proof.
  induction l as [|x [|y l] IH]; [done|done|].
  change (last (map f (x :: y :: l))) with (last (map f (y :: l))).
  by rewrite IH.
Qed.

Lemma analyze_enigma_py_wp st0 :
  no_dangling st0 →
  wp st0 enigma_inspired_analysis_py st0
    (fun o _ => o = enigma_inspired_analysis (store_of st0)).
Proof.
  intros Hnd. unfold enigma_inspired_analysis_py, enigma_inspired_analysis, store_of.
  apply wp_bind, wp_get_results. rewrite last_map.
  destruct (last (results st0)) as [r|] eqn:Hlast; [|by apply wp_message].
  cbn [fmap option_fmap option_map].
  assert (r ∈ results st0) as Hr.
  { apply last_Some in Hlast as [l' ->]. apply elem_of_app. right. by left. }
  destruct (proj1 (Forall_forall _ _) Hnd r Hr) as [v Hv].
  apply wp_bind, (table_loop_py_wp st0 _ _ v); [done|].
  rewrite (deref_old st0 r v Hv). cbn [regular].
  apply wp_bind.
  eapply wp_mono; [by apply (transform_loop_py_wp st0)|].
  intros o st' _ ->.
  destruct (transform_all _ _ _) as [ts|msg|e]; [by apply wp_ret|done|done].
Qed.

(** *** chaos_theory_analysis *)

Lemma total_loop_py_wp st0 rs total cur st :
  Forall (fun r => is_Some (heap st0 !! regular_ref r)) rs →
  heap st0 !! total = None → heap st !! total = Some cur →
  wp st0 (total_loop_py rs total) st
    (fun o st' =>
       o = Value tt ∧
       heap st' !! total
       = Some (fold_left (fun acc result => (acc ++ regular result) ++ [hot result])
                 (map (deref st0) rs) cur)).
Proof.
  intros Hrs Hnew. revert cur st. induction Hrs as [|r rs [v Hv] _ IH]; intros cur st Hcur.
  - by apply wp_ret.
  - cbn [total_loop_py map fold_left]. rewrite (deref_old st0 r v Hv). cbn [regular hot].
    apply wp_bind, (wp_load_old st0 _ v); [done|].
    apply wp_bind, (wp_load st0 _ cur); [done|].
    apply wp_bind, wp_store; [done|].
    apply wp_bind, (wp_load st0 _ (cur ++ v)); [simpl; apply lookup_insert_eq|].
    apply wp_bind, wp_store; [done|].
    apply IH. simpl. apply lookup_insert_eq.
Qed.

Lemma differences_loop_py_wp st0 indices total diffs tn cur st :
  heap st0 !! diffs = None → total ≠ diffs →
  heap st !! total = Some tn → heap st !! diffs = Some cur →
  wp st0 (differences_loop_py indices total diffs) st
    (fun o st' =>
       o = Value tt ∧
       heap st' !! diffs
       = Some (fold_left (fun acc i => acc ++ [Z.abs (nth i tn 0 - nth (i - 1) tn 0)])
                 indices cur)).
Proof.
  intros Hnew Hne. revert cur st.
  induction indices as [|i indices IH]; intros cur st Htn Hcur.
  - by apply wp_ret.
  - cbn [differences_loop_py fold_left].
    apply wp_bind, (wp_load st0 _ tn); [done|].
    apply wp_bind, (wp_load st0 _ cur); [done|].
    apply wp_bind, wp_store; [done|].
    apply IH; simpl.
    + by rewrite lookup_insert_ne.
    + apply lookup_insert_eq.
Qed.

Section ObjectChaos.
Context {F : Type} `{FloatOps F}.

Lemma chaos_theory_analysis_py_wp st0 :
  no_dangling st0 →
  wp st0 chaos_theory_analysis_py st0
    (fun o _ => o = chaos_theory_analysis (store_of st0)).
Proof.
  intros Hnd. unfold chaos_theory_analysis_py, chaos_theory_analysis, store_of.
  apply wp_bind, wp_get_results. rewrite length_map.
  destruct (length (results st0) <? 3)%nat; [by apply wp_message|].
  apply wp_bind, wp_alloc. intros total Ht Ht0.
  apply wp_bind.
  eapply wp_mono; [apply (total_loop_py_wp st0 (results st0) total []); [done|done|]|].
  { simpl. apply lookup_insert_eq. }
  intros o st1 _ [-> Htotal].
  fold (total_numbers (map (deref st0) (results st0))) in Htotal.
  set (tn := total_numbers (map (deref st0) (results st0))) in *.
  apply wp_bind, (wp_load st0 _ tn); [done|].
  apply wp_bind, wp_alloc. intros diffs Hd Hd0.
  assert (total ≠ diffs) as Hne by (intros ->; congruence).
  apply wp_bind.
  eapply wp_mono;
    [apply (differences_loop_py_wp st0 (seq 1 (length tn - 1)) total diffs tn []);
     [done|done| |]|].
  { simpl. by rewrite lookup_insert_ne. }
  { simpl. apply lookup_insert_eq. }
  intros o st2 _ [-> Hdiffs].
  fold (differences tn) in Hdiffs.
  apply wp_bind, (wp_load st0 _ (differences tn)); [done|].
  destruct (differences tn) as [|d ds]; [by apply wp_message|by apply wp_ret].
Qed.

End ObjectChaos.

(** *** Two calls in a row *)

Lemma same_twice_of_wp {A} (m : Py A) (f : list Draw → outcome A) :
  (∀ st0, no_dangling st0 → wp st0 m st0 (fun o _ => o = f (store_of st0))) →
  ∀ st, no_dangling st → same_twice m st (f (store_of st)).
Proof.
  intros Hm st Hnd.
  destruct (wp_run st m _ (Hm st Hnd)) as (o1 & st1 & Hrun1 & Hun1 & ->).
  destruct (unchanged_from_store_of st st1 Hnd Hun1) as [Hs1 Hnd1].
  destruct (wp_run st1 m _ (Hm st1 Hnd1)) as (o2 & st2 & Hrun2 & Hun2 & ->).
  destruct (unchanged_from_store_of st1 st2 Hnd1 Hun2) as [Hs2 Hnd2].
  exists st1, st2. rewrite Hs1 in Hrun2. split; [done|]. split; [done|].
  split; [done|]. split; [done|]. split; [done|]. congruence.
Qed.

(** [add_result] on the object does what [add_result] on the list of draws
    does, and keeps every reference alive. *)
Lemma add_result_py_refines regs h st :
  no_dangling st →
  fst (add_result_py regs h st) = fst (add_result regs h (store_of st)) ∧
  store_of (snd (add_result_py regs h st)) = snd (add_result regs h (store_of st)) ∧
  no_dangling (snd (add_result_py regs h st)).
Proof.
  intros Hnd. unfold add_result_py, add_result.
  destruct (negb (length regs =? 5)%nat); [done|].
  destruct (existsb out_of_range regs); [done|].
  destruct (hot_out_of_range h); [done|].
  destruct (negb (size (list_to_set regs : gset Z) =? length regs)%nat); [done|].
  unfold pbind, alloc, get_results, put_results. cbn [fst snd results heap].
  set (l := fresh (dom (heap st))).
  assert (heap st !! l = None) as Hl by (apply not_elem_of_dom, is_fresh).
  split; [done|]. unfold store_of, no_dangling. cbn [results heap].
  rewrite map_app. cbn [map]. split.
  - f_equal.
    + apply map_ext_in. intros r Hr. apply list_elem_of_In in Hr.
      destruct (proj1 (Forall_forall _ _) Hnd r Hr) as [v Hv].
      unfold deref. cbn [heap]. rewrite lookup_insert_ne; [done|]. intros Heq. congruence.
    + unfold deref. cbn [heap regular_ref hot_val]. by rewrite lookup_insert_eq.
  - apply Forall_app. split.
    + eapply Forall_impl; [exact Hnd|]. intros r [v Hv]. exists v.
      rewrite lookup_insert_ne; [done|]. intros Heq. congruence.
    + constructor; [|constructor]. cbn [regular_ref]. rewrite lookup_insert_eq. by eexists.
Qed.

Lemma example_state_no_dangling : no_dangling example_state.
Proof.
  unfold example_state. cbn [fold_left fst snd].
  repeat (apply add_result_py_refines). constructor.
Qed.

Section ReadOnly.
Context {F : Type} `{FloatOps F}.

(** C9. On the analyzer as an object whose draws refer to list objects
    (none of the references dangling): each analysis ([analyze_frequency],
    [analyze_patterns], [chaos_theory_analysis], [enigma_inspired_analysis]),
    called twice in a row, gives the same outcome both times, which is the
    outcome computed from the draws held; and no call changes
    [self.historical_results] or the contents of any list object that
    existed before it, so the draws held are the same after each call.  The
    list objects the methods do change ([ranges], [total_numbers],
    [differences]) are objects they have made themselves. *)
Theorem analyses_idempotent (st : PyState) :
  no_dangling st →
  same_twice analyze_frequency_py st (Value (analyze_frequency (store_of st))) ∧
  same_twice analyze_patterns_py st (analyze_patterns (store_of st)) ∧
  same_twice chaos_theory_analysis_py st (chaos_theory_analysis (store_of st)) ∧
  same_twice enigma_inspired_analysis_py st (enigma_inspired_analysis (store_of st)).
Proof.
  intros Hnd. split; [|split; [|split]].
  - apply (same_twice_of_wp analyze_frequency_py (fun s => Value (analyze_frequency s)));
      [apply analyze_frequency_py_wp|done].
  - apply (same_twice_of_wp analyze_patterns_py analyze_patterns);
      [apply analyze_patterns_py_wp|done].
  - apply (same_twice_of_wp chaos_theory_analysis_py chaos_theory_analysis);
      [apply chaos_theory_analysis_py_wp|done].
  - apply (same_twice_of_wp enigma_inspired_analysis_py enigma_inspired_analysis);
      [apply analyze_enigma_py_wp|done].
Qed.

End ReadOnly.

Lemma analyses_idempotent_witness :
  same_twice analyze_patterns_py example_state (analyze_patterns example_store) ∧
  same_twice enigma_inspired_analysis_py example_state
    (enigma_inspired_analysis example_store).
Proof.
  destruct (@analyses_idempotent R R_ops example_state example_state_no_dangling)
    as (_ & Hp & _ & He).
  rewrite example_state_store in Hp, He. exact (conj Hp He).
Defined.

(** By contrast [add_result], the one writer, does change the draws held. *)
Lemma add_result_py_writes :
  store_of (snd (add_result_py [1; 2; 3; 4; 5] 1 example_state)) ≠ store_of example_state.
Proof. vm_compute. discriminate. Qed.

(** ** Runs of random computations *)

Lemma converges_ret {A} (a : A) g (P : A → Prop) :
  P a → converges (fun _ => gret a) g P.
Proof. intros Ha. exists 0%nat, a, g. done. Qed.

Lemma converges_bind {A B} (m : nat → Gen A) (k : A → nat → Gen B) g
    (P : A → Prop) (Q : B → Prop) :
  converges m g P →
  (∀ a g', source g' = source g → P a → converges (k a) g' Q) →
  converges (fun f => gbind (m f) (fun a => k a f)) g Q.
Proof.
  intros (f1 & a & g1 & Hm & Hsrc & Ha) Hk.
  destruct (Hk a g1 Hsrc Ha) as (f2 & b & g2 & Hkb & Hsrc2 & Hb).
  exists (f1 `max` f2)%nat, b, g2. split; [|split; [congruence|done]].
  intros f Hf. unfold gbind. rewrite Hm by lia. apply Hkb. lia.
Qed.

Lemma converges_weaken {A} (m : nat → Gen A) g (P Q : A → Prop) :
  converges m g P → (∀ a, P a → Q a) → converges m g Q.
Proof. intros (f & a & g' & ? & ? & ?) HPQ. exists f, a, g'. auto. Qed.

Lemma converges_choice {A} (seq : list A) g :
  seq ≠ [] → converges (fun _ => choice seq) g (fun x => x ∈ seq).
Proof.
  intros Hne. destruct (choice_nonempty seq g Hne) as (x & Hx & Hin).
  exists 0%nat, x, (mkRng (source g) (S (pos g))). done.
Qed.

Lemma converges_randint a b g :
  a <= b → converges (fun _ => randint a b) g (fun x => a <= x <= b).
Proof.
  intros Hab. eexists 0%nat, _, _. split; [intros; by apply randint_ok|].
  split; [done|]. by apply randint_value_range.
Qed.

(** ** Growing the candidate set *)

Lemma size_add_le (x : Z) (s : gset Z) : (size ({[x]} ∪ s) ≤ S (size s))%nat.
Proof.
  rewrite size_union_alt, size_singleton.
  assert (size (s ∖ {[x]}) ≤ size s)%nat by (apply subseteq_size; set_solver). lia.
Qed.

Lemma size_add_ge (x : Z) (s : gset Z) : (size s ≤ size ({[x]} ∪ s))%nat.
Proof. apply subseteq_size. set_solver. Qed.

Lemma size_add_fresh (x : Z) (s : gset Z) : x ∉ s → size ({[x]} ∪ s) = S (size s).
Proof. intros Hx. rewrite size_union by set_solver. by rewrite size_singleton. Qed.

Lemma add_member (x : Z) (s : gset Z) : x ∈ s → {[x]} ∪ s = s.
Proof. set_solver. Qed.

Lemma in_range_add (x : Z) (s : gset Z) :
  0 <= x <= max_number → in_range_set s → in_range_set ({[x]} ∪ s).
Proof.
  intros Hx Hs y Hy. apply elem_of_union in Hy as [Hy|Hy]; [|by apply Hs].
  apply elem_of_singleton in Hy. by subst.
Qed.

Lemma frequent_phase_converges k mcr s g :
  (∀ x, x ∈ mcr → 0 <= x <= max_number) → in_range_set s →
  converges (fun _ => frequent_phase k mcr s) g
    (fun s' => in_range_set s' ∧ (size s' ≤ size s + k)%nat).
Proof.
  intros Hmcr. revert s g. induction k as [|k IH]; intros s g Hs.
  - apply converges_ret. split; [done|lia].
  - destruct mcr as [|a l] eqn:Heq.
    + eapply converges_weaken; [apply (IH s g Hs)|]. intros s' [? ?]. split; [done|lia].
    + rewrite <- Heq in *.
      assert (mcr ≠ []) as Hne by (by rewrite Heq).
      assert (frequent_phase (S k) mcr s
              = gbind (choice mcr) (fun x => frequent_phase k mcr ({[x]} ∪ s))) as ->
        by (by rewrite Heq).
      apply (converges_bind (fun _ => choice mcr)
               (fun x _ => frequent_phase k mcr ({[x]} ∪ s)) g (fun x => x ∈ mcr));
        [by apply converges_choice|].
      intros x g' _ Hx. eapply converges_weaken.
      { apply IH. apply in_range_add; [by apply Hmcr|done]. }
      intros s' [? Hsz]. split; [done|]. pose proof (size_add_le x s). lia.
Qed.

Lemma attempts_loop_converges left a b s g :
  0 <= a → a <= b → b <= max_number → in_range_set s →
  converges (fun _ => attempts_loop left a b s) g
    (fun s' => in_range_set s' ∧ (size s ≤ size s')%nat ∧ (size s' ≤ S (size s))%nat).
Proof.
  intros Ha Hab Hb Hs. revert g. induction left as [|left IH]; intros g.
  - apply converges_ret. split; [done|lia].
  - change (fun _ : nat => attempts_loop (S left) a b s) with
      (fun f : nat => gbind ((fun _ => randint a b) f)
         (fun x => (fun x (_ : nat) =>
            if decide (x ∈ s) then attempts_loop left a b s else gret ({[x]} ∪ s)) x f)).
    eapply converges_bind; [by apply converges_randint|].
    intros x g' _ Hx. simpl in Hx |- *. destruct (decide (x ∈ s)) as [Hin|Hnin].
    + apply IH.
    + apply converges_ret. split; [apply in_range_add; [unfold max_number in *; lia|done]|].
      rewrite size_add_fresh by done. lia.
Qed.

Lemma ranged_phase_step k pool s :
  ranged_phase (S k) pool s
  = if (5 <=? size s)%nat then gret s
    else gbind (choice pool) (fun range_idx =>
           gbind (attempts_loop 10 (range_idx * 11)
                    (Z.min max_number ((range_idx + 1) * 11 - 1)) s)
                 (fun s' => ranged_phase k pool s')).
Proof. reflexivity. Qed.

Lemma ranged_phase_converges k pool s g :
  pool ≠ [] → (∀ i, i ∈ pool → 0 <= i <= 3) → in_range_set s → (size s ≤ 5)%nat →
  converges (fun _ => ranged_phase k pool s) g
    (fun s' => in_range_set s' ∧ (size s' ≤ 5)%nat).
Proof.
  intros Hne Hpool. revert s g. induction k as [|k IH]; intros s g Hs Hsz.
  - by apply converges_ret.
  - destruct (5 <=? size s)%nat eqn:Hfull.
    + rewrite ranged_phase_step, Hfull. by apply converges_ret.
    + rewrite ranged_phase_step, Hfull. apply Nat.leb_gt in Hfull.
      apply (converges_bind (fun _ => choice pool)
               (fun range_idx f =>
                  gbind ((fun _ => attempts_loop 10 (range_idx * 11)
                           (Z.min max_number ((range_idx + 1) * 11 - 1)) s) f)
                        (fun s' => (fun s' (_ : nat) => ranged_phase k pool s') s' f))
               g (fun i => i ∈ pool)); [by apply converges_choice|].
      intros i g1 _ Hi. apply Hpool in Hi.
      eapply converges_bind.
      * apply attempts_loop_converges; unfold max_number; try done; lia.
      * intros s1 g2 _ (Hs1 & _ & Hsz1). simpl. apply IH; [done|lia].
Qed.

(** ** The top-up loop *)

Lemma top_up_step f s :
  top_up (S f) s
  = if (size s <? 5)%nat
    then gbind (randint 0 max_number) (fun new_num => top_up f ({[new_num]} ∪ s))
    else gret s.
Proof. reflexivity. Qed.

Lemma top_up_full f s : (5 ≤ size s)%nat → top_up f s = gret s.
Proof.
  intros Hsz. apply Nat.ltb_ge in Hsz.
  destruct f; [simpl|rewrite top_up_step]; by rewrite Hsz.
Qed.

Lemma top_up_short f s src p :
  (size s < 5)%nat →
  top_up (S f) s (mkRng src p)
  = top_up f ({[randint_value 0 max_number (src p)]} ∪ s) (mkRng src (S p)).
Proof.
  intros Hsz. apply Nat.ltb_lt in Hsz. rewrite top_up_step, Hsz.
  unfold gbind. by rewrite randint_ok.
Qed.

(** From a set of fewer than five members, a source that stays inside the
    set keeps the loop running for ever. *)
Lemma top_up_stuck fuel s src p :
  (size s < 5)%nat →
  (∀ i, randint_value 0 max_number (src i) ∈ s) →
  top_up fuel s (mkRng src p) = None.
Proof.
  intros Hsz Hin. revert p. induction fuel as [|fuel IH]; intros p.
  - apply Nat.ltb_lt in Hsz. simpl. by rewrite Hsz.
  - rewrite top_up_short by done. rewrite add_member by apply Hin. apply IH.
Qed.

(** If a value outside the set comes up within [k] more draws, the loop
    reaches its first such value and adds it. *)
Lemma top_up_advance k s src p :
  (size s < 5)%nat →
  randint_value 0 max_number (src (p + k)%nat) ∉ s →
  ∃ j x, (x ∉ s) ∧ (0 <= x <= max_number) ∧
    ∀ f, top_up (S j + f) s (mkRng src p) = top_up f ({[x]} ∪ s) (mkRng src (p + S j)).
Proof.
  intros Hsz. revert p. induction k as [|k IH]; intros p Hk.
  - exists 0%nat, (randint_value 0 max_number (src p)).
    rewrite Nat.add_0_r in Hk. split; [done|].
    split; [by apply randint_value_range|].
    intros f. rewrite Nat.add_1_r. by apply top_up_short.
  - destruct (decide (randint_value 0 max_number (src p) ∈ s)) as [Hin|Hnin].
    + destruct (IH (S p)) as (j & x & Hx & Hr & Hrun).
      { by replace (S p + k)%nat with (p + S k)%nat by lia. }
      exists (S j), x. split; [done|]. split; [done|].
      intros f. change (S (S j) + f)%nat with (S (S j + f)).
      rewrite top_up_short by done. rewrite add_member by done.
      rewrite Hrun. f_equal. f_equal. lia.
    + exists 0%nat, (randint_value 0 max_number (src p)).
      split; [done|]. split; [by apply randint_value_range|].
      intros f. rewrite Nat.add_1_r. by apply top_up_short.
Qed.

Lemma top_up_converges_aux n s g :
  escapes (source g) → (5 - size s ≤ n)%nat →
  converges (fun f => top_up f s) g
    (fun s' => s ⊆ s' ∧ (5 ≤ size s')%nat ∧ ((size s ≤ 5)%nat → size s' = 5%nat) ∧
               (in_range_set s → in_range_set s')).
Proof.
  revert s g. induction n as [|n IH]; intros s g Hesc Hn.
  - exists 0%nat, s, g. split; [intros; rewrite top_up_full by lia; done|].
    split; [done|]. split; [done|]. split; [lia|]. split; [lia|done].
  - destruct (decide (5 ≤ size s)%nat) as [Hfull|Hshort].
    { exists 0%nat, s, g. split; [intros; rewrite top_up_full by lia; done|].
      split; [done|]. split; [done|]. split; [lia|]. split; [lia|done]. }
    destruct g as [src p]. simpl in Hesc.
    destruct (Hesc s p) as [k Hk]; [lia|].
    destruct (top_up_advance k s src p) as (j & x & Hx & Hr & Hrun); [lia|done|].
    destruct (IH ({[x]} ∪ s) (mkRng src (p + S j))) as (f1 & s' & g' & Hf1 & Hsrc & HP).
    { done. }
    { rewrite size_add_fresh by done. lia. }
    exists (S j + f1)%nat, s', g'. split; [|split; [done|]].
    + intros f Hf. replace f with (S j + (f - S j))%nat by lia.
      rewrite Hrun. apply Hf1. lia.
    + destruct HP as (Hsub & Hfive & Heq & Hrange).
      rewrite size_add_fresh in Heq by done.
      split; [set_solver|]. split; [done|]. split; [intros; apply Heq; lia|].
      intros Hs. by apply Hrange, in_range_add.
Qed.

Lemma top_up_converges s g :
  escapes (source g) →
  converges (fun f => top_up f s) g
    (fun s' => s ⊆ s' ∧ (5 ≤ size s')%nat ∧ ((size s ≤ 5)%nat → size s' = 5%nat) ∧
               (in_range_set s → in_range_set s')).
Proof. intros Hesc. by apply (top_up_converges_aux (5 - size s)). Qed.

(** The counting source takes every value of [0..43] again and again. *)
Lemma counting_source_escapes : escapes (source counting_source).
Proof.
  intros X p Hsz. simpl.
  assert (∃ v, (v < 5)%nat ∧ Z.of_nat v ∉ X) as (v & Hv & Hout).
  { destruct (decide (0 ∈ X)); [|exists 0%nat; split; [lia|done]].
    destruct (decide (1 ∈ X)); [|exists 1%nat; split; [lia|done]].
    destruct (decide (2 ∈ X)); [|exists 2%nat; split; [lia|done]].
    destruct (decide (3 ∈ X)); [|exists 3%nat; split; [lia|done]].
    destruct (decide (4 ∈ X)); [|exists 4%nat; split; [lia|done]].
    exfalso.
    assert (({[0; 1; 2; 3; 4]} : gset Z) ⊆ X) as Hsub by set_solver.
    apply subseteq_size in Hsub.
    assert (size ({[0; 1; 2; 3; 4]} : gset Z) = 5%nat) as Hfive by (by vm_compute).
    lia. }
  exists (v + 43 * p)%nat. unfold randint_value, max_number.
  replace (Z.of_nat (p + (v + 43 * p))) with (Z.of_nat v + Z.of_nat p * (43 - 0 + 1)) by lia.
  rewrite Z.mod_add by lia. rewrite Z.mod_small by lia. by rewrite Z.add_0_l.
Qed.

(** C8 (amended). The top-up loop stops, with a set of at least five
    members (exactly five when it started with at most five), for every
    candidate set it is entered with, hence for every store, whenever the
    random source escapes: it cannot repeat for ever the values of a set of
    fewer than five numbers.  The loop draws from the whole range [0,43],
    members of the set included. *)
Theorem top_up_terminates (s : gset Z) (g : Rng) :
  escapes (source g) →
  ∃ fuel s' g',
    (∀ f, (fuel ≤ f)%nat → top_up f s g = Some (Value s', g')) ∧
    s ⊆ s' ∧ (5 ≤ size s')%nat ∧ ((size s ≤ 5)%nat → size s' = 5%nat).
Proof.
  intros Hesc.
  destruct (top_up_converges s g Hesc) as (fuel & s' & g' & Hrun & _ & Hsub & Hfive & Heq & _).
  exists fuel, s', g'. done.
Qed.

Lemma top_up_terminates_witness :
  ∃ fuel s' g',
    (∀ f, (fuel ≤ f)%nat →
          top_up f ({[7%Z]} : gset Z) counting_source = Some (Value s', g')) ∧
    ({[7%Z]} : gset Z) ⊆ s' ∧ (5 ≤ size s')%nat ∧
    ((size ({[7%Z]} : gset Z) ≤ 5)%nat → size s' = 5%nat).
Proof. exact (top_up_terminates {[7%Z]} counting_source counting_source_escapes). Defined.

(** ** One prediction *)

Lemma ranges_to_pick_unfold avg :
  ranges_to_pick_of avg
  = repeat 0 (Z.to_nat (Z.max 1 (int_of_float (nth 0 avg 0%Q * 2)%Q))) ++
    repeat 1 (Z.to_nat (Z.max 1 (int_of_float (nth 1 avg 0%Q * 2)%Q))) ++
    repeat 2 (Z.to_nat (Z.max 1 (int_of_float (nth 2 avg 0%Q * 2)%Q))) ++
    repeat 3 (Z.to_nat (Z.max 1 (int_of_float (nth 3 avg 0%Q * 2)%Q))).
Proof. unfold ranges_to_pick_of. cbn [seq flat_map]. by rewrite app_nil_r. Qed.

Lemma elem_of_repeat (x y : Z) n : x ∈ repeat y n → x = y.
Proof. intros Hx. apply list_elem_of_In in Hx. by apply repeat_spec in Hx. Qed.

Lemma ranges_to_pick_range avg i : i ∈ ranges_to_pick_of avg → 0 <= i <= 3.
Proof.
  rewrite ranges_to_pick_unfold, !elem_of_app.
  intros [H|[H|[H|H]]]; apply elem_of_repeat in H; lia.
Qed.

Lemma ranges_to_pick_nonempty avg : ranges_to_pick_of avg ≠ [].
Proof.
  rewrite ranges_to_pick_unfold.
  destruct (Z.to_nat (Z.max 1 (int_of_float (nth 0 avg 0%Q * 2)%Q))) as [|n] eqn:Hn; [lia|].
  done.
Qed.

Lemma candidate_before_top_up_converges mcr avg g :
  (∀ x, x ∈ mcr → 0 <= x <= max_number) →
  converges (fun _ => candidate_before_top_up mcr avg) g
    (fun s => in_range_set s ∧ (size s ≤ 5)%nat).
Proof.
  intros Hmcr. unfold candidate_before_top_up.
  apply (converges_bind (fun _ => frequent_phase 3 mcr ∅)
           (fun s _ => ranged_phase (Z.to_nat (5 - Z.of_nat (size s)))
                         (ranges_to_pick_of avg) s)
           g (fun s => in_range_set s ∧ (size s ≤ size (∅ : gset Z) + 3)%nat)).
  - apply frequent_phase_converges; [done|]. intros x Hx. by apply not_elem_of_empty in Hx.
  - intros s g' _ [Hs Hsz]. rewrite size_empty in Hsz.
    apply ranged_phase_converges; [apply ranges_to_pick_nonempty| |done|lia].
    apply ranges_to_pick_range.
Qed.

Lemma final_numbers_well_formed (s : gset Z) :
  size s = 5%nat → in_range_set s →
  length (sorted (take 5 (elements s))) = 5%nat ∧
  NoDup (sorted (take 5 (elements s))) ∧
  Forall (fun x => 0 <= x <= 43) (sorted (take 5 (elements s))) ∧
  Sorted Z.le (sorted (take 5 (elements s))).
Proof.
  intros Hsz Hs.
  assert (length (elements s) = 5%nat) as Hlen by exact Hsz.
  rewrite take_ge by lia.
  split; [by rewrite sorted_length|].
  split; [rewrite sorted_perm; apply NoDup_elements|].
  split; [|apply sorted_Sorted].
  rewrite sorted_perm. apply Forall_forall. intros x Hx.
  apply elem_of_elements in Hx. apply Hs in Hx. unfold max_number in Hx. lia.
Qed.

Lemma pick_hot_converges mch g :
  (∀ x, x ∈ mch → 1 <= x <= hot_number_max) →
  converges (fun _ => pick_hot mch) g (fun h => 1 <= h <= 16).
Proof.
  intros Hmch. destruct mch as [|h0 mch0] eqn:Heq.
  - simpl. apply converges_randint. unfold hot_number_max. lia.
  - rewrite <- Heq in *.
    assert (pick_hot mch = choice mch) as -> by (by rewrite Heq).
    eapply converges_weaken; [apply converges_choice; by rewrite Heq|].
    intros x Hx. apply Hmch in Hx. unfold hot_number_max in Hx. lia.
Qed.

Lemma one_prediction_converges mcr mch avg g :
  escapes (source g) →
  (∀ x, x ∈ mcr → 0 <= x <= max_number) →
  (∀ x, x ∈ mch → 1 <= x <= hot_number_max) →
  converges (fun f => one_prediction f mcr mch avg) g well_formed.
Proof.
  intros Hesc Hmcr Hmch. unfold one_prediction.
  apply (converges_bind (fun _ => candidate_before_top_up mcr avg)
           (fun s f => gbind (top_up f s) (fun s' =>
              gbind (pick_hot mch) (fun hot_number =>
                gret (mkPrediction (sorted (take 5 (elements s'))) hot_number))))
           g (fun s => in_range_set s ∧ (size s ≤ 5)%nat)).
  { by apply candidate_before_top_up_converges. }
  intros s g1 Hsrc1 [Hs Hsz].
  apply (converges_bind (fun f => top_up f s)
           (fun s' _ => gbind (pick_hot mch) (fun hot_number =>
                gret (mkPrediction (sorted (take 5 (elements s'))) hot_number)))
           g1 (fun s' => s ⊆ s' ∧ (5 ≤ size s')%nat ∧ ((size s ≤ 5)%nat → size s' = 5%nat) ∧
                         (in_range_set s → in_range_set s'))).
  { apply top_up_converges. by rewrite Hsrc1. }
  intros s' g2 Hsrc2 (_ & _ & Hfive & Hrange).
  apply (converges_bind (fun _ => pick_hot mch)
           (fun hot_number _ =>
                gret (mkPrediction (sorted (take 5 (elements s'))) hot_number))
           g2 (fun h => 1 <= h <= 16)).
  { by apply pick_hot_converges. }
  intros h g3 _ Hh. apply converges_ret.
  destruct (final_numbers_well_formed s' (Hfive Hsz) (Hrange Hs)) as (? & ? & ? & ?).
  unfold well_formed. simpl. done.
Qed.

Lemma predictions_loop_converges k mcr mch avg acc g :
  escapes (source g) →
  (∀ x, x ∈ mcr → 0 <= x <= max_number) →
  (∀ x, x ∈ mch → 1 <= x <= hot_number_max) →
  Forall well_formed acc →
  converges (fun f => predictions_loop k f mcr mch avg acc) g
    (fun ps => length ps = (length acc + k)%nat ∧ Forall well_formed ps).
Proof.
  intros Hesc Hmcr Hmch. revert acc g Hesc.
  induction k as [|k IH]; intros acc g Hesc Hacc.
  - apply converges_ret. split; [lia|done].
  - cbn [predictions_loop].
    apply (converges_bind (fun f => one_prediction f mcr mch avg)
             (fun p f => predictions_loop k f mcr mch avg (acc ++ [p]))
             g well_formed).
    { by apply one_prediction_converges. }
    intros p g1 Hsrc Hp. eapply converges_weaken.
    + apply IH; [by rewrite Hsrc|]. apply Forall_app. split; [done|]. by constructor.
    + intros ps [Hlen Hps]. split; [|done]. rewrite Hlen, length_app. simpl. lia.
Qed.

Lemma predict_unfold fuel n st p :
  (3 ≤ length st)%nat → analyze_patterns st = Value p →
  predict_next_result fuel n st
  = predictions_loop (Z.to_nat n) fuel (most_common_regular_of st) (most_common_hot_of st)
      (avg_range_of (range_distribution p)) [].
Proof.
  intros Hlen Hp. unfold predict_next_result.
  destruct (length st <? 3)%nat eqn:Hlt; [apply Nat.ltb_lt in Hlt; lia|].
  by rewrite Hp.
Qed.

Lemma predict_converges n st g :
  valid_store st → (3 ≤ length st)%nat → escapes (source g) →
  converges (fun f => predict_next_result f n st) g
    (fun ps => length ps = Z.to_nat n ∧ Forall well_formed ps).
Proof.
  intros Hvalid Hlen Hesc.
  destruct (analyze_patterns_value st Hvalid) as [p Hp]; [lia|].
  destruct (predictions_loop_converges (Z.to_nat n) (most_common_regular_of st)
              (most_common_hot_of st) (avg_range_of (range_distribution p)) [] g Hesc)
    as (fuel & ps & g' & Hrun & Hsrc & HP).
  - intros x. by apply most_common_regular_range.
  - intros x. by apply most_common_hot_range.
  - constructor.
  - exists fuel, ps, g'. split; [|done].
    intros f Hf. rewrite (predict_unfold f n st p Hlen Hp). by apply Hrun.
Qed.

(** ** What a finished run has produced *)

Lemma safe_ret {A} (a : A) (P : A → Prop) : P a → safe (gret a) P.
Proof. intros Ha g r [= <-]. by exists a, g. Qed.

Lemma safe_bind {A B} (m : Gen A) (k : A → Gen B) (P : A → Prop) (Q : B → Prop) :
  safe m P → (∀ a, P a → safe (k a) Q) → safe (gbind m k) Q.
Proof.
  intros Hm Hk g r. unfold gbind.
  destruct (m g) as [[o g1]|] eqn:Hmg; [|done].
  destruct (Hm g _ Hmg) as (a & g' & [= -> ->] & Ha).
  by apply Hk.
Qed.

Lemma safe_weaken {A} (m : Gen A) (P Q : A → Prop) :
  safe m P → (∀ a, P a → Q a) → safe m Q.
Proof. intros Hm HPQ g r Hr. destruct (Hm g r Hr) as (a & g' & ? & ?). exists a, g'. auto. Qed.

Lemma safe_choice {A} (seq : list A) : seq ≠ [] → safe (choice seq) (fun x => x ∈ seq).
Proof.
  intros Hne g r Hr. destruct (choice_nonempty seq g Hne) as (x & Hx & Hin).
  rewrite Hx in Hr. injection Hr as <-. by eexists _, _.
Qed.

Lemma safe_randint a b : a <= b → safe (randint a b) (fun x => a <= x <= b).
Proof.
  intros Hab g r Hr. rewrite randint_ok in Hr by done. injection Hr as <-.
  eexists _, _. split; [done|]. by apply randint_value_range.
Qed.

Lemma frequent_phase_safe k mcr s :
  (∀ x, x ∈ mcr → 0 <= x <= max_number) → in_range_set s →
  safe (frequent_phase k mcr s) (fun s' => in_range_set s' ∧ (size s' ≤ size s + k)%nat).
Proof.
  intros Hmcr. revert s. induction k as [|k IH]; intros s Hs.
  - apply safe_ret. split; [done|lia].
  - destruct mcr as [|a l] eqn:Heq.
    + eapply safe_weaken; [apply (IH s Hs)|]. intros s' [? ?]. split; [done|lia].
    + rewrite <- Heq in *.
      assert (frequent_phase (S k) mcr s
              = gbind (choice mcr) (fun x => frequent_phase k mcr ({[x]} ∪ s))) as ->
        by (by rewrite Heq).
      eapply safe_bind; [apply safe_choice; by rewrite Heq|].
      intros x Hx. eapply safe_weaken.
      { apply IH. apply in_range_add; [by apply Hmcr|done]. }
      intros s' [? Hsz]. split; [done|]. pose proof (size_add_le x s). lia.
Qed.

Lemma attempts_loop_safe left a b s :
  0 <= a → a <= b → b <= max_number → in_range_set s →
  safe (attempts_loop left a b s)
    (fun s' => in_range_set s' ∧ (size s' ≤ S (size s))%nat).
Proof.
  intros Ha Hab Hb Hs. induction left as [|left IH].
  - apply safe_ret. split; [done|lia].
  - cbn [attempts_loop]. eapply safe_bind; [by apply safe_randint|].
    intros x Hx. destruct (decide (x ∈ s)) as [Hin|Hnin]; [apply IH|].
    apply safe_ret. split; [|apply size_add_le].
    apply in_range_add; [simpl in Hx; unfold max_number in *; lia|done].
Qed.

Lemma ranged_phase_safe k pool s :
  pool ≠ [] → (∀ i, i ∈ pool → 0 <= i <= 3) → in_range_set s → (size s ≤ 5)%nat →
  safe (ranged_phase k pool s) (fun s' => in_range_set s' ∧ (size s' ≤ 5)%nat).
Proof.
  intros Hne Hpool. revert s. induction k as [|k IH]; intros s Hs Hsz.
  - by apply safe_ret.
  - rewrite ranged_phase_step. destruct (5 <=? size s)%nat eqn:Hfull; [by apply safe_ret|].
    apply Nat.leb_gt in Hfull.
    eapply safe_bind; [by apply safe_choice|]. intros i Hi. apply Hpool in Hi.
    eapply safe_bind.
    + apply attempts_loop_safe; unfold max_number; try done; lia.
    + intros s1 [Hs1 Hsz1]. apply IH; [done|lia].
Qed.

Lemma top_up_safe fuel s :
  in_range_set s → (size s ≤ 5)%nat →
  safe (top_up fuel s) (fun s' => in_range_set s' ∧ size s' = 5%nat).
Proof.
  revert s. induction fuel as [|fuel IH]; intros s Hs Hsz.
  - simpl. destruct (size s <? 5)%nat eqn:Hlt.
    + intros g r Hr. done.
    + apply Nat.ltb_ge in Hlt. apply safe_ret. split; [done|lia].
  - rewrite top_up_step. destruct (size s <? 5)%nat eqn:Hlt.
    + apply Nat.ltb_lt in Hlt.
      eapply safe_bind; [apply (safe_randint 0 max_number); by unfold max_number|].
      intros x Hx. apply IH; [by apply in_range_add|].
      pose proof (size_add_le x s). lia.
    + apply Nat.ltb_ge in Hlt. apply safe_ret. split; [done|lia].
Qed.

Lemma pick_hot_safe mch :
  (∀ x, x ∈ mch → 1 <= x <= hot_number_max) →
  safe (pick_hot mch) (fun h => 1 <= h <= 16).
Proof.
  intros Hmch. destruct mch as [|h0 mch0] eqn:Heq.
  - simpl. apply safe_randint. by unfold hot_number_max.
  - rewrite <- Heq in *.
    assert (pick_hot mch = choice mch) as -> by (by rewrite Heq).
    eapply safe_weaken; [apply safe_choice; by rewrite Heq|].
    intros x Hx. apply Hmch in Hx. unfold hot_number_max in Hx. lia.
Qed.

Lemma one_prediction_safe fuel mcr mch avg :
  (∀ x, x ∈ mcr → 0 <= x <= max_number) →
  (∀ x, x ∈ mch → 1 <= x <= hot_number_max) →
  safe (one_prediction fuel mcr mch avg) well_formed.
Proof.
  intros Hmcr Hmch. unfold one_prediction, candidate_before_top_up.
  eapply safe_bind.
  { eapply safe_bind.
    - apply frequent_phase_safe; [done|]. intros x Hx. by apply not_elem_of_empty in Hx.
    - intros s [Hs Hsz]. rewrite size_empty in Hsz.
      apply ranged_phase_safe; [apply ranges_to_pick_nonempty| |done|lia].
      apply ranges_to_pick_range. }
  intros s [Hs Hsz]. eapply safe_bind; [by apply top_up_safe|].
  intros s' [Hs' Hfive]. eapply safe_bind; [by apply pick_hot_safe|].
  intros h Hh. apply safe_ret.
  destruct (final_numbers_well_formed s' Hfive Hs') as (? & ? & ? & ?).
  unfold well_formed. simpl. done.
Qed.

Lemma predictions_loop_safe k fuel mcr mch avg acc :
  (∀ x, x ∈ mcr → 0 <= x <= max_number) →
  (∀ x, x ∈ mch → 1 <= x <= hot_number_max) →
  Forall well_formed acc →
  safe (predictions_loop k fuel mcr mch avg acc)
    (fun ps => length ps = (length acc + k)%nat ∧ Forall well_formed ps).
Proof.
  intros Hmcr Hmch. revert acc. induction k as [|k IH]; intros acc Hacc.
  - apply safe_ret. split; [lia|done].
  - cbn [predictions_loop]. eapply safe_bind; [by apply one_prediction_safe|].
    intros p Hp. eapply safe_weaken.
    + apply IH. apply Forall_app. split; [done|]. by constructor.
    + intros ps [Hlen Hps]. split; [|done]. rewrite Hlen, length_app. simpl. lia.
Qed.

Lemma predict_safe fuel n st :
  valid_store st → (3 ≤ length st)%nat →
  safe (predict_next_result fuel n st)
    (fun ps => length ps = Z.to_nat n ∧ Forall well_formed ps).
Proof.
  intros Hvalid Hlen.
  destruct (analyze_patterns_value st Hvalid) as [p Hp]; [lia|].
  rewrite (predict_unfold fuel n st p Hlen Hp).
  apply (predictions_loop_safe (Z.to_nat n) fuel _ _ _ []).
  - intros x. by apply most_common_regular_range.
  - intros x. by apply most_common_hot_range.
  - constructor.
Qed.

(** C1 (amended). For every store of at least three valid draws and every
    positive [n]: for every outcome of the random source under which
    [predict_next_result(n)] returns, it returns a list of exactly [n]
    predictions, each with a regular part of exactly five distinct integers
    of [0,43] in ascending order and a hot number in [1,16]; and it does
    return whenever the source escapes, that is, cannot repeat for ever the
    values of a set of fewer than five numbers. *)
Theorem predict_well_formed (n : Z) (st : list Draw) :
  valid_store st → (3 ≤ length st)%nat → 0 < n →
  (∀ fuel g r, predict_next_result fuel n st g = Some r →
     ∃ ps g', r = (Value ps, g') ∧ Z.of_nat (length ps) = n ∧ Forall well_formed ps) ∧
  (∀ g, escapes (source g) →
     ∃ fuel ps g', ∀ f, (fuel ≤ f)%nat →
       predict_next_result f n st g = Some (Value ps, g')).
Proof.
  intros Hvalid Hlen Hn. split.
  - intros fuel g r Hr.
    destruct (predict_safe fuel n st Hvalid Hlen g r Hr) as (ps & g' & -> & Hl & Hps).
    exists ps, g'. split; [done|]. split; [lia|done].
  - intros g Hesc.
    destruct (predict_converges n st g Hvalid Hlen Hesc) as (fuel & ps & g' & Hrun & _).
    by exists fuel, ps, g'.
Qed.

Lemma predict_well_formed_witness :
  ∃ fuel ps g',
    (∀ f, (fuel ≤ f)%nat →
       predict_next_result f 3 example_store counting_source = Some (Value ps, g')) ∧
    Z.of_nat (length ps) = 3 ∧ Forall well_formed ps.
Proof.
  assert (3 ≤ length example_store)%nat as Hlen by (vm_compute; lia).
  destruct (predict_well_formed 3 example_store example_store_valid Hlen ltac:(lia))
    as [Hsafe Hruns].
  destruct (Hruns counting_source counting_source_escapes) as (fuel & ps & g' & Hrun).
  exists fuel, ps, g'. split; [exact Hrun|].
  destruct (Hsafe fuel counting_source _ (Hrun fuel (le_n fuel)))
    as (ps' & g'' & Heq & Hl & Hps).
  injection Heq as <- <-. exact (conj Hl Hps).
Defined.

(** ** A source under which the top-up loop never stops *)

Lemma example_patterns :
  analyze_patterns example_store
  = Value (mkPatterns [111; 102; 115] [(3 # 5)%Q; (2 # 5)%Q; (3 # 5)%Q]
             [[1; 1; 2; 1]; [1; 2; 1; 1]; [1; 1; 2; 1]]
             [false; false; false] [false; false; false]).
Proof. by vm_compute. Qed.

(** With the constant source the first two phases leave the set [{0, 5}]
    after 38 draws. *)
Lemma example_before_top_up :
  candidate_before_top_up (most_common_regular_of example_store)
    (avg_range_of [[1; 1; 2; 1]; [1; 2; 1; 1]; [1; 1; 2; 1]]) (constant_source 0)
  = Some (Value ({[0; 5]} : gset Z), mkRng (fun _ => 0%nat) 38).
Proof. by vm_compute. Qed.

Lemma example_top_up_stuck fuel :
  top_up fuel ({[0; 5]} : gset Z) (mkRng (fun _ => 0%nat) 38) = None.
Proof.
  apply top_up_stuck.
  - vm_compute. lia.
  - intros _. change (randint_value 0 max_number 0) with 0. set_solver.
Qed.

(** C8, counterexample. On the example store with a source that always
    gives the same raw value, the top-up loop is entered with the set
    [{0, 5}] and every further draw is [0]: the loop runs out of any fuel. *)
Lemma top_up_diverges_on_constant_source :
  valid_store example_store ∧ (3 ≤ length example_store)%nat ∧
  ∃ p s g,
    analyze_patterns example_store = Value p ∧
    candidate_before_top_up (most_common_regular_of example_store)
      (avg_range_of (range_distribution p)) (constant_source 0) = Some (Value s, g) ∧
    ∀ fuel, top_up fuel s g = None.
Proof.
  split; [exact example_store_valid|]. split; [vm_compute; lia|].
  eexists _, _, _. split; [exact example_patterns|].
  split; [exact example_before_top_up|]. exact example_top_up_stuck.
Qed.

(** C1, counterexample. On the example store, asked for one prediction with
    a source that always gives the same raw value, [predict_next_result]
    does not return, whatever the fuel. *)
Lemma predict_diverges_on_constant_source :
  valid_store example_store ∧ (3 ≤ length example_store)%nat ∧
  ∀ fuel, predict_next_result fuel 1 example_store (constant_source 0) = None.
Proof.
  split; [exact example_store_valid|]. split; [vm_compute; lia|].
  intros fuel.
  rewrite (predict_unfold fuel 1 example_store _ ltac:(vm_compute; lia) example_patterns).
  change (Z.to_nat 1) with 1%nat. cbn [predictions_loop range_distribution].
  unfold one_prediction, gbind.
  by rewrite example_before_top_up, example_top_up_stuck.
Qed.

(** ** Messages *)

Lemma never_message_ret {A} (a : A) : never_message (gret a).
Proof. intros g msg g'. unfold gret. congruence. Qed.

Lemma never_message_bind {A B} (m : Gen A) (k : A → Gen B) :
  never_message m → (∀ a, never_message (k a)) → never_message (gbind m k).
Proof.
  intros Hm Hk g msg g'. unfold gbind.
  destruct (m g) as [[[a|msg1|e] g1]|] eqn:Hmg; try congruence.
  - apply Hk.
  - exfalso. by apply (Hm g msg1 g1).
Qed.

Lemma never_message_randint a b : never_message (randint a b).
Proof. intros g msg g'. unfold randint. destruct (b <? a); simpl; congruence. Qed.

Lemma never_message_choice {A} (seq : list A) : never_message (choice seq).
Proof.
  intros g msg g'. unfold choice. destruct seq as [|a seq']; [congruence|].
  simpl. destruct (_ !! _); congruence.
Qed.

Lemma never_message_frequent_phase k mcr s : never_message (frequent_phase k mcr s).
Proof.
  revert s. induction k as [|k IH]; intros s; [apply never_message_ret|].
  destruct mcr as [|a l] eqn:Heq; [apply IH|].
  rewrite <- Heq in *.
  assert (frequent_phase (S k) mcr s
          = gbind (choice mcr) (fun x => frequent_phase k mcr ({[x]} ∪ s))) as ->
    by (by rewrite Heq).
  apply never_message_bind; [apply never_message_choice|]. intros x. apply IH.
Qed.

Lemma never_message_attempts_loop left a b s : never_message (attempts_loop left a b s).
Proof.
  induction left as [|left IH]; [apply never_message_ret|].
  cbn [attempts_loop]. apply never_message_bind; [apply never_message_randint|].
  intros x. destruct (decide (x ∈ s)); [apply IH|apply never_message_ret].
Qed.

Lemma never_message_ranged_phase k pool s : never_message (ranged_phase k pool s).
Proof.
  revert s. induction k as [|k IH]; intros s; [apply never_message_ret|].
  rewrite ranged_phase_step. destruct (5 <=? size s)%nat; [apply never_message_ret|].
  apply never_message_bind; [apply never_message_choice|]. intros i.
  apply never_message_bind; [apply never_message_attempts_loop|]. apply IH.
Qed.

Lemma never_message_top_up fuel s : never_message (top_up fuel s).
Proof.
  revert s. induction fuel as [|fuel IH]; intros s.
  - simpl. destruct (size s <? 5)%nat; [|apply never_message_ret].
    intros g msg g'. congruence.
  - rewrite top_up_step. destruct (size s <? 5)%nat; [|apply never_message_ret].
    apply never_message_bind; [apply never_message_randint|]. intros x. apply IH.
Qed.

Lemma never_message_pick_hot mch : never_message (pick_hot mch).
Proof.
  destruct mch as [|h l] eqn:Heq; [apply never_message_randint|].
  rewrite <- Heq.
  assert (pick_hot mch = choice mch) as -> by (by rewrite Heq).
  apply never_message_choice.
Qed.

Lemma never_message_one_prediction fuel mcr mch avg :
  never_message (one_prediction fuel mcr mch avg).
Proof.
  unfold one_prediction, candidate_before_top_up.
  repeat (apply never_message_bind; [|intros ?]);
    auto using never_message_frequent_phase, never_message_ranged_phase,
      never_message_top_up, never_message_pick_hot, never_message_ret.
Qed.

Lemma never_message_predictions_loop k fuel mcr mch avg acc :
  never_message (predictions_loop k fuel mcr mch avg acc).
Proof.
  revert acc. induction k as [|k IH]; intros acc; [apply never_message_ret|].
  cbn [predictions_loop]. apply never_message_bind; [apply never_message_one_prediction|].
  intros p. apply IH.
Qed.

Lemma predict_message fuel n st g :
  (∃ msg g', predict_next_result fuel n st g = Some (Message msg, g')) ↔ (length st < 3)%nat.
Proof.
  unfold predict_next_result. destruct (length st <? 3)%nat eqn:Hlt.
  - apply Nat.ltb_lt in Hlt. split; [done|]. intros _. by eexists _, _.
  - apply Nat.ltb_ge in Hlt. split; [|lia]. intros (msg & g' & Hrun). exfalso.
    destruct (analyze_patterns st) as [p|m|e].
    + by apply never_message_predictions_loop in Hrun.
    + unfold graise in Hrun. congruence.
    + unfold graise in Hrun. congruence.
Qed.

Section Floors.
Context {F : Type} `{FloatOps F}.

Lemma chaos_message st :
  is_message (chaos_theory_analysis st) ↔ (length st < 3)%nat.
Proof.
  destruct (decide (length st < 3)%nat) as [Hlt|Hge].
  - unfold chaos_theory_analysis. apply Nat.ltb_lt in Hlt as Hb. rewrite Hb. simpl. tauto.
  - assert (is_value (chaos_theory_analysis st)) as Hv by (apply chaos_value; lia).
    destruct (chaos_theory_analysis st); simpl in *; tauto.
Qed.

(** C4 (amended). On a store of valid draws: [analyze_patterns] returns
    its "not enough data" message exactly when the store holds fewer than
    two draws; [chaos_theory_analysis] and [predict_next_result] return
    theirs exactly when it holds fewer than three.  From its floor count on
    [analyze_patterns] returns its lists and [chaos_theory_analysis] its
    signal.  From three draws on [predict_next_result] never ends in an
    error: every call that returns, returns a list of predictions, and the
    call does return whenever the random source escapes (cannot repeat for
    ever the values of a set of fewer than five numbers); it need not return
    for every random source. *)
Theorem insufficient_data_floors (st : list Draw) :
  valid_store st →
  (is_message (analyze_patterns st) ↔ (length st < 2)%nat) ∧
  (is_message (chaos_theory_analysis st) ↔ (length st < 3)%nat) ∧
  (∀ fuel n g,
     (∃ msg g', predict_next_result fuel n st g = Some (Message msg, g'))
     ↔ (length st < 3)%nat) ∧
  ((2 ≤ length st)%nat → is_value (analyze_patterns st)) ∧
  ((3 ≤ length st)%nat → is_value (chaos_theory_analysis st)) ∧
  ((3 ≤ length st)%nat → ∀ fuel n g r,
     predict_next_result fuel n st g = Some r → ∃ ps g', r = (Value ps, g')) ∧
  ((3 ≤ length st)%nat → ∀ n g, escapes (source g) →
     ∃ fuel ps g', ∀ f, (fuel ≤ f)%nat →
       predict_next_result f n st g = Some (Value ps, g')).
Proof.
  intros Hvalid.
  split; [apply analyze_patterns_message|].
  split; [apply chaos_message|].
  split; [intros; apply predict_message|].
  split; [|split; [|split]].
  - intros Hlen. destruct (analyze_patterns_value st Hvalid Hlen) as [p ->]. exact I.
  - apply chaos_value.
  - intros Hlen fuel n g r Hr.
    destruct (predict_safe fuel n st Hvalid Hlen g r Hr) as (ps & g' & -> & _).
    by exists ps, g'.
  - intros Hlen n g Hesc.
    destruct (predict_converges n st g Hvalid Hlen Hesc) as (fuel & ps & g' & Hrun & _).
    by exists fuel, ps, g'.
Qed.

End Floors.

Lemma insufficient_data_floors_witness :
  is_value (analyze_patterns example_store) ∧
  is_value (@chaos_theory_analysis R R_ops example_store) ∧
  ∃ fuel ps g', ∀ f, (fuel ≤ f)%nat →
    predict_next_result f 2 example_store counting_source = Some (Value ps, g').
Proof.
  destruct (@insufficient_data_floors R R_ops example_store example_store_valid)
    as (_ & _ & _ & Hp & Hc & _ & Hg).
  assert (3 ≤ length example_store)%nat as Hlen by (vm_compute; lia).
  split; [apply Hp; lia|]. split; [by apply Hc|].
  exact (Hg Hlen 2 counting_source counting_source_escapes).
Defined.

(** C4, counterexample. The example store holds exactly three draws, the
    floor of [predict_next_result]; asked for the default five predictions
    with a source that always gives the same raw value, the call neither
    fails nor succeeds: it does not return, whatever the fuel. *)
Lemma predict_at_floor_need_not_return :
  valid_store example_store ∧ length example_store = 3%nat ∧
  ∀ fuel, predict_next_result fuel 5 example_store (constant_source 0) = None.
Proof.
  split; [exact example_store_valid|]. split; [reflexivity|].
  intros fuel.
  rewrite (predict_unfold fuel 5 example_store _ ltac:(vm_compute; lia) example_patterns).
  change (Z.to_nat 5) with 5%nat. cbn [predictions_loop range_distribution].
  unfold one_prediction, gbind at 1 2 3.
  by rewrite example_before_top_up, example_top_up_stuck.
Qed.

(** ** The ranged fill *)

Lemma pool_count avg i :
  (i < 4)%nat →
  count_occ Z.eq_dec (ranges_to_pick_of avg) (Z.of_nat i)
  = Z.to_nat (Z.max 1 (int_of_float (nth i avg 0%Q * 2)%Q)).
Proof.
  intros Hi. rewrite ranges_to_pick_unfold, !count_occ_app.
  destruct i as [|[|[|[|i]]]]; [| | | |lia]; cbn [Z.of_nat Pos.of_succ_nat Pos.succ];
    repeat first [rewrite count_occ_repeat_eq by reflexivity
                 |rewrite count_occ_repeat_neq by discriminate]; lia.
Qed.

Lemma totals_step_nth (acc dist : list Z) i :
  (i < 4)%nat →
  nth i (map (fun i => nth i acc 0 + nth i dist 0) (seq 0 4)) 0
  = nth i acc 0 + nth i dist 0.
Proof. intros Hi. destruct i as [|[|[|[|i]]]]; [done|done|done|done|lia]. Qed.

Lemma totals_nth dists acc i :
  (i < 4)%nat →
  nth i (fold_left (fun avg dist => map (fun i => nth i avg 0 + nth i dist 0) (seq 0 4))
           dists acc) 0
  = nth i acc 0 + sum (map (fun d => nth i d 0) dists).
Proof.
  intros Hi. revert acc. induction dists as [|d dists IH]; intros acc.
  - simpl. unfold sum. simpl. lia.
  - cbn [fold_left map]. rewrite IH, totals_step_nth, sum_cons by done. lia.
Qed.

Lemma totals_length dists acc :
  length acc = 4%nat →
  length (fold_left (fun avg dist => map (fun i => nth i avg 0 + nth i dist 0) (seq 0 4))
            dists acc) = 4%nat.
Proof.
  revert acc. induction dists as [|d dists IH]; intros acc Hacc; [done|].
  cbn [fold_left]. apply IH. by rewrite length_map, length_seq.
Qed.

Lemma avg_range_mean dists i :
  (i < 4)%nat →
  nth i (avg_range_of dists) 0%Q
  = (inject_Z (sum (map (fun d => nth i d 0%Z) dists))
     / inject_Z (Z.of_nat (length dists)))%Q.
Proof.
  intros Hi. unfold avg_range_of.
  set (f := fun r => (inject_Z r / inject_Z (Z.of_nat (length dists)))%Q).
  rewrite (nth_indep _ 0%Q (f 0)).
  2:{ rewrite length_map, totals_length by done. done. }
  rewrite map_nth, totals_nth by done. subst f. cbn [nth].
  destruct i as [|[|[|[|i]]]]; [done|done|done|done|lia].
Qed.

(** [int] of twice a mean of counts is the integer quotient: the fraction
    is dropped, never rounded up. *)
Lemma int_of_mean_truncates a n :
  0 <= a → 0 < n → int_of_float (inject_Z a / inject_Z n * 2)%Q = (2 * a) / n.
Proof.
  intros Ha Hn. destruct n as [|p|p]; try lia.
  unfold int_of_float, Qfloor, Qceiling, Qdiv, Qmult, Qinv, inject_Z. simpl.
  destruct (0 <=? a * 1 * 2) eqn:Hsign; [|apply Z.leb_gt in Hsign; lia].
  rewrite Pos.mul_1_r. f_equal. lia.
Qed.

Lemma attempts_loop_all_duplicates left a b s src p :
  a <= b →
  (∀ j, (j < left)%nat → randint_value a b (src (p + j)%nat) ∈ s) →
  attempts_loop left a b s (mkRng src p) = Some (Value s, mkRng src (p + left)).
Proof.
  intros Hab. revert p. induction left as [|left IH]; intros p Hdup.
  - simpl. unfold gret. by rewrite Nat.add_0_r.
  - cbn [attempts_loop]. unfold gbind. rewrite randint_ok by done. cbn [source pos].
    rewrite decide_True.
    2:{ specialize (Hdup 0%nat). rewrite Nat.add_0_r in Hdup. apply Hdup. lia. }
    rewrite IH.
    + do 3 f_equal. lia.
    + intros j Hj. replace (S p + j)%nat with (p + S j)%nat by lia. apply Hdup. lia.
Qed.

Lemma attempts_loop_first_fresh left a b s src p j :
  a <= b → (j < left)%nat →
  (∀ j', (j' < j)%nat → randint_value a b (src (p + j')%nat) ∈ s) →
  randint_value a b (src (p + j)%nat) ∉ s →
  attempts_loop left a b s (mkRng src p)
  = Some (Value ({[randint_value a b (src (p + j)%nat)]} ∪ s), mkRng src (p + S j)).
Proof.
  intros Hab. revert left p. induction j as [|j IH]; intros left p Hj Hdup Hfresh.
  - destruct left as [|left]; [lia|].
    cbn [attempts_loop]. unfold gbind. rewrite randint_ok by done. cbn [source pos].
    rewrite Nat.add_0_r in Hfresh |- *. rewrite decide_False by done.
    unfold gret. do 3 f_equal. lia.
  - destruct left as [|left]; [lia|].
    cbn [attempts_loop]. unfold gbind. rewrite randint_ok by done. cbn [source pos].
    rewrite decide_True.
    2:{ specialize (Hdup 0%nat). rewrite Nat.add_0_r in Hdup. apply Hdup. lia. }
    replace (p + S j)%nat with (S p + j)%nat in * by lia.
    rewrite (IH left (S p)); [|lia| |done].
    + do 3 f_equal. lia.
    + intros j' Hj'. replace (S p + j')%nat with (p + S j')%nat by lia. apply Hdup. lia.
Qed.

(** C2 (amended). The pool of bucket indices holds index [i] exactly
    [max(1, int(avg_range[i] * 2))] times, where [avg_range] is the
    component-wise mean of the four-bucket histograms and [int] truncates:
    for a mean [a / n] it is the integer quotient of [2a] by [n].  A slot's
    ranged fill makes at most ten tries: it stops at the first value not yet
    in the set and adds it, and after ten values already in the set it gives
    the slot up, the set unchanged.  For bucket [i] each try is
    [randint(11 i, min(43, 11 i + 10))], a value of that range. *)
Theorem ranged_fill_policy :
  (∀ (avg : list Q) (i : nat), (i < 4)%nat →
     count_occ Z.eq_dec (ranges_to_pick_of avg) (Z.of_nat i)
     = Z.to_nat (Z.max 1 (int_of_float (nth i avg 0%Q * 2)%Q))) ∧
  (∀ (dists : list (list Z)) (i : nat), (i < 4)%nat →
     nth i (avg_range_of dists) 0%Q
     = (inject_Z (sum (map (fun d => nth i d 0%Z) dists))
        / inject_Z (Z.of_nat (length dists)))%Q) ∧
  (∀ a n, 0 <= a → 0 < n →
     int_of_float (inject_Z a / inject_Z n * 2)%Q = (2 * a) / n) ∧
  (∀ a b s src p, a <= b →
     (∀ j, (j < 10)%nat → randint_value a b (src (p + j)%nat) ∈ s) →
     attempts_loop 10 a b s (mkRng src p) = Some (Value s, mkRng src (p + 10))) ∧
  (∀ a b s src p j, a <= b → (j < 10)%nat →
     (∀ j', (j' < j)%nat → randint_value a b (src (p + j')%nat) ∈ s) →
     randint_value a b (src (p + j)%nat) ∉ s →
     attempts_loop 10 a b s (mkRng src p)
     = Some (Value ({[randint_value a b (src (p + j)%nat)]} ∪ s), mkRng src (p + S j))) ∧
  (∀ k pool s, (size s < 5)%nat →
     ranged_phase (S k) pool s
     = gbind (choice pool) (fun i =>
         gbind (attempts_loop 10 (i * 11) (Z.min 43 ((i + 1) * 11 - 1)) s)
               (fun s' => ranged_phase k pool s'))) ∧
  (∀ i r, 0 <= i <= 3 →
     (i + 1) * 11 - 1 = 11 * i + 10 ∧
     11 * i <= randint_value (i * 11) (Z.min 43 ((i + 1) * 11 - 1)) r
            <= Z.min 43 (11 * i + 10)).
Proof.
  split; [exact pool_count|].
  split; [exact avg_range_mean|].
  split; [exact int_of_mean_truncates|].
  split; [intros; by apply attempts_loop_all_duplicates|].
  split; [intros; by apply attempts_loop_first_fresh|].
  split.
  - intros k pool s Hsz. rewrite ranged_phase_step.
    apply Nat.ltb_lt in Hsz. rewrite Nat.ltb_antisym in Hsz.
    apply negb_true_iff in Hsz. by rewrite Hsz.
  - intros i r Hi. split; [lia|].
    pose proof (randint_value_range (i * 11) (Z.min 43 ((i + 1) * 11 - 1)) r). lia.
Qed.

(** C2, counterexample. On the example store the mean of bucket 1 is
    [4/3]; twice that is [2.67], which rounds to [3], but index 1 is in the
    pool twice. *)
Lemma pool_count_is_not_rounded :
  ∃ p, analyze_patterns example_store = Value p ∧
       count_occ Z.eq_dec (ranges_to_pick_of (avg_range_of (range_distribution p))) 1
       ≠ Z.to_nat (Z.max 1 (arithmetic_round
                              (nth 1 (avg_range_of (range_distribution p)) 0%Q * 2)%Q)).
Proof.
  eexists. split; [exact example_patterns|]. vm_compute. discriminate.
Qed.

(** * Further properties of the code *)

(** ** add_result and the store *)

Lemma existsb_perm {A} (f : A → bool) (l l' : list A) :
  l ≡ₚ l' → existsb f l = existsb f l'.
Proof.
  intros Hp. apply eq_true_iff_eq. rewrite !existsb_exists.
  split; intros (x & Hx & Hf); exists x; (split; [|done]).
  - by eapply Permutation_in.
  - eapply Permutation_in; [symmetry; exact Hp|done].
Qed.

Lemma sorted_perm_eq l l' : l ≡ₚ l' → sorted l = sorted l'.
Proof.
  intros Hp. apply (Sorted_unique Z.le); [apply sorted_Sorted|apply sorted_Sorted|].
  by rewrite !sorted_perm.
Qed.

(** X1. [add_result] does not depend on the order in which the regular
    numbers are given: two sequences that are rearrangements of one another
    are both refused with the same error, or both stored as the same draw. *)
Theorem add_result_order_insensitive (regs regs' : list Z) (h : Z) (st : list Draw) :
  regs ≡ₚ regs' → add_result regs h st = add_result regs' h st.
Proof.
  intros Hp. unfold add_result.
  rewrite (Permutation_length Hp), (existsb_perm _ _ _ Hp), (sorted_perm_eq _ _ Hp).
  by rewrite (list_to_set_perm_L (C:=gset Z) _ _ Hp).
Qed.

Lemma add_result_order_insensitive_witness :
  add_result [40; 5; 31; 12; 23] 3 [] = add_result [5; 12; 23; 31; 40] 3 [].
Proof.
  apply add_result_order_insensitive.
  change [40; 5; 31; 12; 23] with ([40] ++ [5] ++ [31] ++ [12; 23]).
  change [5; 12; 23; 31; 40] with ([5] ++ [12; 23] ++ [31] ++ [40]).
  rewrite (Permutation_app_comm [31] [12; 23]).
  rewrite (Permutation_app_comm [40]). by rewrite <- !app_assoc.
Defined.

Lemma add_result_snd regs h st :
  snd (add_result regs h st)
  = st ++ (if decide (rejected regs h) then [] else [mkDraw (sorted regs) h]).
Proof.
  destruct (decide (rejected regs h)) as [Hrej|Hok].
  - rewrite (proj2 (add_result_rejected regs h st Hrej)). by rewrite app_nil_r.
  - by rewrite (add_result_accepted regs h st Hok).
Qed.

(** X2. A sequence of [add_result] calls never alters or drops a draw that
    is already stored: the store afterwards is the store before, followed by
    the sorted copies of exactly the inputs that were not refused, in call
    order. *)
Theorem add_results_appends_accepted (inputs : list (list Z * Z)) (st : list Draw) :
  add_results inputs st
  = st ++ map (fun i => mkDraw (sorted (fst i)) (snd i))
            (filter (fun i => ¬ rejected (fst i) (snd i)) inputs).
Proof.
  unfold add_results. revert st. induction inputs as [|i inputs IH]; intros st.
  - simpl. by rewrite app_nil_r.
  - cbn [fold_left]. rewrite IH, add_result_snd, filter_cons.
    destruct (decide (rejected i.1 i.2)) as [Hrej|Hok].
    + rewrite decide_False by tauto. by rewrite app_nil_r.
    + rewrite decide_True by done. by rewrite <- app_assoc.
Qed.

(** X3. Every draw in a store built by [add_result] calls has exactly five
    regular numbers, all distinct, all in [0,43], in ascending order, and a
    hot number in [1,16]. *)
Theorem store_invariant (inputs : list (list Z * Z)) :
  Forall (fun d =>
            length (regular d) = 5%nat ∧ NoDup (regular d) ∧
            Forall (fun x => 0 <= x <= 43) (regular d) ∧
            Sorted Z.le (regular d) ∧ 1 <= hot d <= 16)
         (add_results inputs []).
Proof.
  pose proof (add_results_valid inputs [] (Forall_nil_2 _)) as Hvalid.
  eapply Forall_impl; [exact Hvalid|]. intros d Hd. exact Hd.
Qed.

(** ** analyze_frequency and most_common *)

Lemma counter_get_incr k c k' :
  counter_get (counter_incr k c) k'
  = counter_get c k' + (if decide (k' = k) then 1 else 0).
Proof.
  induction c as [|[k0 n] c IH]; simpl.
  - destruct (decide (k' = k)); lia.
  - destruct (decide (k = k0)) as [->|Hne]; simpl.
    + destruct (decide (k' = k0)); lia.
    + destruct (decide (k' = k0)) as [->|Hne'].
      * rewrite decide_False by congruence. lia.
      * exact IH.
Qed.

Lemma counter_get_update l c k :
  counter_get (counter_update c l) k
  = counter_get c k + Z.of_nat (count_occ Z.eq_dec l k).
Proof.
  unfold counter_update. revert c. induction l as [|x l IH]; intros c; simpl; [lia|].
  rewrite IH, counter_get_incr.
  destruct (Z.eq_dec x k) as [->|Hne].
  - rewrite decide_True by done. lia.
  - rewrite decide_False by congruence. lia.
Qed.

Lemma frequency_loop_get st f :
  (∀ k, counter_get (freq_regular (frequency_loop st f)) k
        = counter_get (freq_regular f) k + regular_occurrences st k) ∧
  (∀ k, counter_get (freq_hot (frequency_loop st f)) k
        = counter_get (freq_hot f) k + hot_occurrences st k).
Proof.
  unfold regular_occurrences, hot_occurrences.
  revert f. induction st as [|d st IH]; intros f.
  - simpl. split; intros k; lia.
  - rewrite frequency_loop_cons.
    destruct (IH (mkFrequency (counter_update (freq_regular f) (regular d))
                              (counter_update (freq_hot f) [hot d]))) as [IHr IHh].
    split; intros k; [rewrite IHr|rewrite IHh]; cbn [freq_regular freq_hot];
      rewrite counter_get_update; cbn [flat_map map].
    + rewrite count_occ_app. lia.
    + change (hot d :: map hot st) with ([hot d] ++ map hot st).
      rewrite count_occ_app. lia.
Qed.

(** A counter whose keys are distinct and whose counts are positive. *)
Lemma counter_incr_positive k c :
  Forall (fun x => 0 < snd x) c → Forall (fun x => 0 < snd x) (counter_incr k c).
Proof.
  induction 1 as [|[k0 n] c Hn Hc IH]; simpl.
  - constructor; [simpl; lia|constructor].
  - destruct (decide (k = k0)); constructor; simpl in *; try done; lia.
Qed.

Lemma counter_update_positive l c :
  Forall (fun x => 0 < snd x) c → Forall (fun x => 0 < snd x) (counter_update c l).
Proof.
  unfold counter_update. revert c. induction l as [|k l IH]; intros c Hc; simpl; [done|].
  by apply IH, counter_incr_positive.
Qed.

Lemma frequency_loop_positive st f :
  Forall (fun x => 0 < snd x) (freq_regular f) →
  Forall (fun x => 0 < snd x) (freq_hot f) →
  Forall (fun x => 0 < snd x) (freq_regular (frequency_loop st f)) ∧
  Forall (fun x => 0 < snd x) (freq_hot (frequency_loop st f)).
Proof.
  revert f. induction st as [|d st IH]; intros f Hr Hh; [done|].
  rewrite frequency_loop_cons. apply IH; by apply counter_update_positive.
Qed.

Lemma counter_get_elem c k n :
  NoDup (map fst c) → (k, n) ∈ c → counter_get c k = n.
Proof.
  induction c as [|[k0 n0] c IH]; intros Hnd Hin; [by apply not_elem_of_nil in Hin|].
  simpl in Hnd. apply NoDup_cons in Hnd as [Hk0 Hnd].
  apply elem_of_cons in Hin as [[= -> ->]|Hin]; simpl.
  - by rewrite decide_True.
  - rewrite decide_False; [by apply IH|].
    intros ->. apply Hk0. apply list_elem_of_fmap. by exists (k0, n).
Qed.

Lemma counter_get_missing c k : k ∉ map fst c → counter_get c k = 0.
Proof.
  induction c as [|[k0 n0] c IH]; intros Hk; [done|]. simpl in *.
  apply not_elem_of_cons in Hk as [Hne Hk]. rewrite decide_False by done. by apply IH.
Qed.

Lemma counter_elem_iff c k n :
  NoDup (map fst c) → Forall (fun x => 0 < snd x) c →
  (k, n) ∈ c ↔ counter_get c k = n ∧ 0 < n.
Proof.
  intros Hnd Hpos. split.
  - intros Hin. split; [by apply counter_get_elem|].
    by apply (proj1 (Forall_forall _ _) Hpos (k, n)).
  - intros [Hget Hn]. destruct (decide (k ∈ map fst c)) as [Hk|Hk].
    + apply list_elem_of_fmap in Hk as ([k1 n1] & -> & Hin). simpl in *.
      by rewrite (counter_get_elem c k1 n1 Hnd Hin) in Hget; subst.
    + rewrite counter_get_missing in Hget by done. lia.
Qed.

(** X4. The counters of [analyze_frequency] are exact: [(k, n)] is an item
    of the regular counter exactly when [k] occurs [n > 0] times among the
    regular numbers of the store, and an item of the hot counter exactly when
    [n > 0] draws have hot number [k]; no key is listed twice. *)
Theorem frequency_counts_exact (st : list Draw) :
  (∀ k n, (k, n) ∈ freq_regular (analyze_frequency st)
          ↔ n = Z.of_nat (count_occ Z.eq_dec (flat_map regular st) k) ∧ 0 < n) ∧
  (∀ k n, (k, n) ∈ freq_hot (analyze_frequency st)
          ↔ n = Z.of_nat (count_occ Z.eq_dec (map hot st) k) ∧ 0 < n) ∧
  NoDup (map fst (freq_regular (analyze_frequency st))) ∧
  NoDup (map fst (freq_hot (analyze_frequency st))).
Proof.
  unfold analyze_frequency.
  destruct (frequency_loop_NoDup st (mkFrequency [] [])) as [Hndr Hndh];
    [constructor|constructor|].
  destruct (frequency_loop_positive st (mkFrequency [] [])) as [Hpr Hph];
    [constructor|constructor|].
  destruct (frequency_loop_get st (mkFrequency [] [])) as [Hgr Hgh].
  split; [|split; [|done]].
  - intros k n. rewrite (counter_elem_iff _ k n Hndr Hpr), Hgr.
    unfold regular_occurrences. simpl. intuition lia.
  - intros k n. rewrite (counter_elem_iff _ k n Hndh Hph), Hgh.
    unfold hot_occurrences. simpl. intuition lia.
Qed.

Lemma insert_by_count_filter (v : Z) x l :
  filter (fun y => snd y = v) (insert_by_count x l)
  = filter (fun y => snd y = v) (x :: l).
Proof.
  induction l as [|y l IH]; [done|]. simpl.
  destruct (snd x <? snd y) eqn:Hlt; [|done].
  apply Z.ltb_lt in Hlt. rewrite filter_cons, IH, !filter_cons.
  destruct (decide (snd y = v)), (decide (snd x = v)); try done. lia.
Qed.

Lemma insert_by_count_sorted x l :
  StronglySorted (fun a b => snd b <= snd a) l →
  StronglySorted (fun a b => snd b <= snd a) (insert_by_count x l).
Proof.
  induction 1 as [|y l Hl IH Hy]; simpl.
  - repeat constructor.
  - destruct (snd x <? snd y) eqn:Hlt.
    + apply Z.ltb_lt in Hlt. constructor; [done|].
      rewrite insert_by_count_perm. constructor; [lia|done].
    + apply Z.ltb_ge in Hlt. constructor; [by constructor|].
      constructor; [done|]. eapply Forall_impl; [exact Hy|]. intros z Hz. simpl in Hz. lia.
Qed.

Lemma sort_by_count_sorted c :
  StronglySorted (fun a b => snd b <= snd a) (sort_by_count c).
Proof.
  unfold sort_by_count. induction c as [|x c IH]; simpl; [constructor|].
  by apply insert_by_count_sorted.
Qed.

Lemma sort_by_count_stable (v : Z) c :
  filter (fun y => snd y = v) (sort_by_count c) = filter (fun y => snd y = v) c.
Proof.
  unfold sort_by_count. induction c as [|x c IH]; [done|]. simpl.
  by rewrite insert_by_count_filter, !filter_cons, IH.
Qed.

(** X5. [most_common(n)] gives the first [min(n, number of keys)] items of
    a rearrangement of the counter that is in order of non-increasing count
    and keeps items of equal count in their insertion order; so no item left
    out has a larger count than an item returned. *)
Theorem most_common_top (n : nat) (c : list (Z * Z)) :
  ∃ rest,
    most_common n c ++ rest ≡ₚ c ∧
    length (most_common n c) = (n `min` length c)%nat ∧
    StronglySorted (fun a b => snd b <= snd a) (most_common n c ++ rest) ∧
    (∀ v, filter (fun y => snd y = v) (most_common n c ++ rest)
          = filter (fun y => snd y = v) c) ∧
    (∀ x y, x ∈ most_common n c → y ∈ rest → snd y <= snd x).
Proof.
  exists (drop n (sort_by_count c)). unfold most_common.
  rewrite take_drop. split; [apply sort_by_count_perm|].
  split; [apply (most_common_length n c)|].
  split; [apply sort_by_count_sorted|].
  split; [intros v; apply sort_by_count_stable|].
  intros x y Hx Hy.
  pose proof (sort_by_count_sorted c) as Hs. rewrite <- (take_drop n) in Hs.
  by apply (StronglySorted_app_1_elem_of _ _ _ x y) in Hs.
Qed.

(** ** analyze_patterns *)

Lemma bucket_index x i :
  0 <= x <= 43 → (i < 4)%nat →
  Z.min 3 (x / 11) = Z.of_nat i ↔ 11 * Z.of_nat i <= x <= 11 * Z.of_nat i + 10.
Proof.
  intros Hx Hi.
  assert (0 <= x / 11 <= 3) as Hq.
  { split; [apply Z.div_pos; lia|].
    assert (x / 11 < 4) by (apply Z.div_lt_upper_bound; lia). lia. }
  rewrite Z.min_r by lia.
  pose proof (Z.div_mod x 11 ltac:(lia)). pose proof (Z.mod_pos_bound x 11 ltac:(lia)).
  split; intros Hb; [lia|]. nia.
Qed.

Lemma bump_spec (a b c d idx : Z) :
  0 <= idx <= 3 →
  ∃ a' b' c' d',
    bump [a; b; c; d] idx = Some [a'; b'; c'; d'] ∧
    a' = a + (if decide (idx = 0) then 1 else 0) ∧
    b' = b + (if decide (idx = 1) then 1 else 0) ∧
    c' = c + (if decide (idx = 2) then 1 else 0) ∧
    d' = d + (if decide (idx = 3) then 1 else 0).
Proof.
  intros Hidx.
  assert (idx = 0 ∨ idx = 1 ∨ idx = 2 ∨ idx = 3) as [-> | [-> | [-> | ->]]] by lia;
    eexists _, _, _, _; (split; [reflexivity|]); simpl; repeat split; lia.
Qed.

Lemma in_bucket_cons i x nums :
  0 <= x <= 43 → (i < 4)%nat →
  Z.of_nat (length (in_bucket i (x :: nums)))
  = Z.of_nat (length (in_bucket i nums))
    + (if decide (Z.min 3 (x / 11) = Z.of_nat i) then 1 else 0).
Proof.
  intros Hx Hi. unfold in_bucket. rewrite filter_cons.
  pose proof (bucket_index x i Hx Hi) as Hb.
  destruct (decide (11 * Z.of_nat i <= x <= 11 * Z.of_nat i + 10)) as [Hin|Hout].
  - rewrite decide_True by tauto. simpl. lia.
  - rewrite decide_False by tauto. lia.
Qed.

Lemma range_histogram_spec nums (a b c d : Z) :
  Forall (fun x => 0 <= x <= 43) nums →
  range_histogram nums [a; b; c; d]
  = Some [a + Z.of_nat (length (in_bucket 0 nums));
          b + Z.of_nat (length (in_bucket 1 nums));
          c + Z.of_nat (length (in_bucket 2 nums));
          d + Z.of_nat (length (in_bucket 3 nums))].
Proof.
  intros Hr. revert a b c d. induction Hr as [|x nums Hx _ IH]; intros a b c d.
  - simpl. repeat f_equal; lia.
  - cbn [range_histogram].
    assert (0 <= Z.min 3 (x / 11) <= 3) as Hidx.
    { pose proof (Z.div_pos x 11). lia. }
    destruct (bump_spec a b c d _ Hidx) as (a' & b' & c' & d' & -> & -> & -> & -> & ->).
    rewrite IH.
    rewrite (in_bucket_cons 0 x nums), (in_bucket_cons 1 x nums),
      (in_bucket_cons 2 x nums), (in_bucket_cons 3 x nums) by (done || lia).
    change (Z.of_nat 0) with 0. change (Z.of_nat 1) with 1.
    change (Z.of_nat 2) with 2. change (Z.of_nat 3) with 3.
    f_equal. do 4 (apply (f_equal2 cons); [lia|]). reflexivity.
Qed.

Lemma in_bucket_total nums :
  Forall (fun x => 0 <= x <= 43) nums →
  (length (in_bucket 0 nums) + length (in_bucket 1 nums)
   + length (in_bucket 2 nums) + length (in_bucket 3 nums))%nat = length nums.
Proof.
  induction 1 as [|x nums Hx _ IH]; [done|].
  pose proof (in_bucket_cons 0 x nums Hx ltac:(lia)) as H0.
  pose proof (in_bucket_cons 1 x nums Hx ltac:(lia)) as H1.
  pose proof (in_bucket_cons 2 x nums Hx ltac:(lia)) as H2.
  pose proof (in_bucket_cons 3 x nums Hx ltac:(lia)) as H3.
  assert (0 <= Z.min 3 (x / 11) <= 3) as Hidx.
  { pose proof (Z.div_pos x 11). lia. }
  change (Z.of_nat 0) with 0 in *. change (Z.of_nat 1) with 1 in *.
  change (Z.of_nat 2) with 2 in *. change (Z.of_nat 3) with 3 in *.
  cbn [length].
  destruct (decide (Z.min 3 (x / 11) = 0)), (decide (Z.min 3 (x / 11) = 1)),
    (decide (Z.min 3 (x / 11) = 2)), (decide (Z.min 3 (x / 11) = 3)); lia.
Qed.

Lemma pattern_step_spec p d :
  valid_draw d →
  pattern_step p d
  = Value (mkPatterns
      (sum_regular p ++ [sum (regular d)])
      (odd_even_ratio p ++ [(odd_count (regular d) # 5)%Q])
      (range_distribution p ++ [histogram_of d])
      (consecutive_numbers p ++ [has_consecutive (regular d)])
      (hot_correlation p ++ [bool_decide (hot d ∈ regular d)])).
Proof.
  intros (_ & _ & Hr & _). unfold pattern_step.
  rewrite range_histogram_spec by exact Hr. reflexivity.
Qed.

Lemma patterns_loop_spec st p :
  valid_store st →
  patterns_loop st p
  = Value (mkPatterns
      (sum_regular p ++ map (fun d => sum (regular d)) st)
      (odd_even_ratio p ++ map (fun d => (odd_count (regular d) # 5)%Q) st)
      (range_distribution p ++ map histogram_of st)
      (consecutive_numbers p ++ map (fun d => has_consecutive (regular d)) st)
      (hot_correlation p ++ map (fun d => bool_decide (hot d ∈ regular d)) st)).
Proof.
  intros Hst. revert p. induction Hst as [|d st Hd _ IH]; intros p.
  - simpl. rewrite !app_nil_r. by destruct p.
  - cbn [patterns_loop]. rewrite (pattern_step_spec p d Hd), IH. cbn [sum_regular
      odd_even_ratio range_distribution consecutive_numbers hot_correlation map].
    by rewrite <- !app_assoc.
Qed.

(** X6. On a store of valid draws with at least two draws,
    [analyze_patterns] returns five lists with one entry per draw, in store
    order: the sum of the draw's regular numbers, its count of odd numbers
    over 5, its range histogram, the consecutive flag and whether the hot
    number is among the regular numbers.  The histogram has four entries,
    entry [i] being the number of regular numbers in [11 i .. 11 i + 10], and
    its entries add up to 5. *)
Theorem patterns_per_draw (st : list Draw) :
  valid_store st → (2 ≤ length st)%nat →
  ∃ p, analyze_patterns st = Value p ∧
    sum_regular p = map (fun d => sum (regular d)) st ∧
    odd_even_ratio p = map (fun d => (odd_count (regular d) # 5)%Q) st ∧
    consecutive_numbers p = map (fun d => has_consecutive (regular d)) st ∧
    hot_correlation p = map (fun d => bool_decide (hot d ∈ regular d)) st ∧
    range_distribution p
    = map (fun d => map (fun i => Z.of_nat (length
             (filter (fun x => 11 * Z.of_nat i <= x <= 11 * Z.of_nat i + 10) (regular d))))
           (seq 0 4)) st ∧
    Forall (fun h => length h = 4%nat ∧ sum h = 5) (range_distribution p).
Proof.
  intros Hst Hlen. unfold analyze_patterns.
  destruct (length st <? 2)%nat eqn:Hlt; [apply Nat.ltb_lt in Hlt; lia|].
  rewrite patterns_loop_spec by done. eexists. split; [reflexivity|].
  cbn [sum_regular odd_even_ratio range_distribution consecutive_numbers
       hot_correlation app].
  repeat (split; [reflexivity|]).
  apply Forall_forall. intros h Hh.
  apply list_elem_of_fmap in Hh as (d & -> & Hd).
  split; [reflexivity|].
  pose proof (proj1 (Forall_forall _ _) Hst d Hd) as (Hl & _ & Hr & _).
  pose proof (in_bucket_total (regular d) Hr) as Ht.
  unfold histogram_of, sum. simpl. lia.
Qed.

Lemma patterns_per_draw_witness :
  ∃ p, analyze_patterns example_store = Value p ∧
       range_distribution p = [[1; 1; 2; 1]; [1; 2; 1; 1]; [1; 1; 2; 1]].
Proof.
  destruct (patterns_per_draw example_store example_store_valid) as (p & Hp & Hrest).
  - vm_compute. lia.
  - exists p. split; [exact Hp|].
    destruct Hrest as (_ & _ & _ & _ & -> & _). reflexivity.
Defined.

Lemma scan_has_step (s : list Z) :
  existsb (fun i => nth (S i) s 0 - nth i s 0 =? 1) (seq 0 (length s - 1)) = has_step s.
Proof.
  induction s as [|a [|b r] IH]; [done|done|].
  replace (length (a :: b :: r) - 1)%nat with (S (length (b :: r) - 1)) by (simpl; lia).
  change (has_step (a :: b :: r)) with ((b - a =? 1) || has_step (b :: r)).
  cbn [seq existsb nth]. f_equal. rewrite <- IH.
  rewrite <- seq_shift. clear IH. generalize (seq 0 (length (b :: r) - 1)).
  intros l. induction l as [|i l IHl]; [done|]. simpl. by rewrite IHl.
Qed.

Lemma has_step_sorted (s : list Z) :
  StronglySorted Z.le s → has_step s = true ↔ ∃ x, x ∈ s ∧ x + 1 ∈ s.
Proof.
  induction 1 as [|a l Hl IH Ha].
  - simpl. split; [done|]. intros (x & Hx & _). by apply not_elem_of_nil in Hx.
  - destruct l as [|b r].
    + simpl. split; [done|]. intros (x & Hx & Hx1).
      apply list_elem_of_singleton in Hx. apply list_elem_of_singleton in Hx1. lia.
    + change (has_step (a :: b :: r)) with ((b - a =? 1) || has_step (b :: r)).
      rewrite orb_true_iff, IH, Z.eqb_eq.
      apply Forall_cons in Ha as Hab. destruct Hab as [Hab Har].
      apply StronglySorted_inv in Hl as [_ Hbr].
      split.
      * intros [Hstep|(x & Hx & Hx1)].
        -- exists a. split; [by left|].
           replace (a + 1) with b by lia. right. by left.
        -- exists x. split; by right.
      * intros (x & Hx & Hx1).
        apply elem_of_cons in Hx as [->|Hx].
        -- apply elem_of_cons in Hx1 as [?|Hx1]; [lia|].
           destruct (decide (b = a + 1)) as [->|Hne]; [left; lia|].
           destruct (decide (b = a)) as [->|Hne'].
           ++ right. exists a. split; [by left|done].
           ++ exfalso. apply elem_of_cons in Hx1 as [?|Hx1]; [lia|].
              pose proof (proj1 (Forall_forall _ _) Hbr _ Hx1). lia.
        -- apply elem_of_cons in Hx1 as [Heq|Hx1].
           ++ exfalso. pose proof (proj1 (Forall_forall _ _) Ha _ Hx). lia.
           ++ right. by exists x.
Qed.

(** X7. The consecutive flag of [analyze_patterns] is set exactly when the
    list holds some number together with its successor; scanning only the
    neighbours of the sorted list misses no such pair, whatever the list. *)
Theorem has_consecutive_spec (nums : list Z) :
  has_consecutive nums = true ↔ ∃ x, x ∈ nums ∧ x + 1 ∈ nums.
Proof.
  unfold has_consecutive. rewrite scan_has_step, has_step_sorted.
  - split; intros (x & Hx & Hx1); exists x.
    + by rewrite <- !(sorted_perm nums).
    + by rewrite !(sorted_perm nums).
  - apply (StronglySorted_merge_sort Z.le).
Qed.

(** ** enigma_inspired_analysis *)

(** The table built by the first loop. *)
Lemma enigma_table_lookup (s j : Z) :
  fold_left (fun tr i => <[i := (i + s) mod (max_number + 1)]> tr)
    (seqZ 0 (max_number + 1)) (∅ : gmap Z Z) !! j
  = if decide (0 <= j <= 43) then Some (rotate s j) else None.
Proof.
  rewrite (table_lookup (fun i => (i + s) mod (max_number + 1))), lookup_empty.
  destruct (decide (0 <= j <= 43)) as [Hin|Hout].
  - rewrite decide_True; [done|]. apply elem_of_seqZ. unfold max_number. lia.
  - rewrite decide_False; [done|]. rewrite elem_of_seqZ. unfold max_number. lia.
Qed.

Lemma enigma_run st d :
  valid_store st → last st = Some d →
  ∃ tr, enigma_inspired_analysis st
        = Value (mkEnigma tr (map (fun r => map (rotate (sum (regular d))) (regular r)) st)).
Proof.
  intros Hvalid Hlast. unfold enigma_inspired_analysis. rewrite Hlast.
  set (tr := fold_left _ _ _).
  rewrite (transform_all_in_table tr (rotate (sum (regular d)))).
  - by eexists.
  - eapply Forall_impl; [exact Hvalid|]. intros r (_ & _ & Hr & _).
    eapply Forall_impl; [exact Hr|]. intros x Hx. subst tr.
    rewrite enigma_table_lookup, decide_True; [done|]. unfold max_number in Hx. lia.
Qed.

Lemma rotate_range s x : 0 <= rotate s x <= 43.
Proof.
  unfold rotate, max_number. pose proof (Z.mod_pos_bound (x + s) (43 + 1)). lia.
Qed.

Lemma rotate_back_rotate s x : 0 <= x <= 43 → rotate_back s (rotate s x) = x.
Proof.
  intros Hx. unfold rotate_back, rotate, max_number.
  rewrite Zminus_mod_idemp_l. replace (x + s - s) with x by lia.
  apply Z.mod_small. lia.
Qed.

(** X8. On a non-empty store of valid draws the substitution is a rotation
    that can be undone: subtracting the sum [S] modulo 44 from every
    transformed number gives back the stored regular numbers, draw by draw;
    and each transformed list again holds five distinct numbers of
    [0..43]. *)
Theorem enigma_invertible (st : list Draw) (d : Draw) :
  valid_store st → last st = Some d →
  ∃ e, enigma_inspired_analysis st = Value e ∧
       map (map (fun t => (t - sum (regular d)) mod 44)) (transformed_results e)
       = map regular st ∧
       Forall (fun ts => length ts = 5%nat ∧ NoDup ts ∧ Forall (fun t => 0 <= t <= 43) ts)
              (transformed_results e).
Proof.
  intros Hvalid Hlast. destruct (enigma_run st d Hvalid Hlast) as [tr ->].
  eexists. split; [reflexivity|]. cbn [transformed_results]. split.
  - rewrite map_map. apply map_ext_in. intros r Hr.
    apply list_elem_of_In in Hr.
    pose proof (proj1 (Forall_forall _ _) Hvalid r Hr) as (_ & _ & Hrange & _).
    rewrite map_map. rewrite <- (map_id (regular r)) at 2. apply map_ext_in.
    intros x Hx. apply list_elem_of_In in Hx.
    apply (rotate_back_rotate (sum (regular d)) x).
    pose proof (proj1 (Forall_forall _ _) Hrange x Hx) as Hx'. unfold max_number in Hx'. lia.
  - apply Forall_forall. intros ts Hts.
    apply list_elem_of_fmap in Hts as (r & -> & Hr).
    pose proof (proj1 (Forall_forall _ _) Hvalid r Hr) as (Hlen & Hnd & Hrange & _).
    split; [by rewrite length_map|]. split.
    + apply (NoDup_fmap_2_strong (rotate (sum (regular d)))); [|done].
      intros x y Hx Hy Heq.
      pose proof (proj1 (Forall_forall _ _) Hrange x Hx) as Hx'.
      pose proof (proj1 (Forall_forall _ _) Hrange y Hy) as Hy'.
      unfold max_number in *.
      rewrite <- (rotate_back_rotate (sum (regular d)) x) by lia.
      rewrite <- (rotate_back_rotate (sum (regular d)) y) by lia.
      by rewrite Heq.
    + apply Forall_forall. intros t Ht.
      apply list_elem_of_fmap in Ht as (x & -> & _). apply rotate_range.
Qed.

Lemma enigma_invertible_witness :
  ∃ e, enigma_inspired_analysis example_store = Value e ∧
       map (map (fun t => (t - 115) mod 44)) (transformed_results e)
       = [[5; 12; 23; 31; 40]; [2; 12; 19; 31; 38]; [5; 18; 23; 29; 40]].
Proof.
  destruct (enigma_invertible example_store (mkDraw [5; 18; 23; 29; 40] 3)
              example_store_valid eq_refl) as (e & He & Hback & _).
  exists e. split; [exact He|]. exact Hback.
Defined.

Lemma transform_missing_key (tr : gmap Z Z) (f : Z → Z) nums :
  (∀ x, tr !! x = if decide (0 <= x <= 43) then Some (f x) else None) →
  Exists (fun x => ¬ 0 <= x <= 43) nums →
  ∃ k, transform tr nums = Raised (KeyError k) ∧ ¬ 0 <= k <= 43 ∧ k ∈ nums.
Proof.
  intros Htr. induction nums as [|x nums IH]; intros Hex; [by apply Exists_nil in Hex|].
  cbn [transform]. rewrite Htr.
  destruct (decide (0 <= x <= 43)) as [Hin|Hout].
  - apply Exists_cons in Hex as [?|Hex]; [done|].
    destruct (IH Hex) as (k & -> & Hk & Hkin). exists k. split; [done|].
    split; [done|]. by right.
  - exists x. split; [done|]. split; [done|]. by left.
Qed.

Lemma transform_value_or_key (tr : gmap Z Z) (f : Z → Z) nums :
  (∀ x, tr !! x = if decide (0 <= x <= 43) then Some (f x) else None) →
  (Forall (fun x => 0 <= x <= 43) nums ∧ transform tr nums = Value (map f nums)) ∨
  (∃ k, transform tr nums = Raised (KeyError k) ∧ ¬ 0 <= k <= 43 ∧ k ∈ nums).
Proof.
  intros Htr.
  destruct (decide (Forall (fun x => 0 <= x <= 43) nums)) as [Hall|Hnot].
  - left. split; [done|]. apply transform_in_table.
    eapply Forall_impl; [exact Hall|]. intros x Hx. by rewrite Htr, decide_True.
  - right. apply (transform_missing_key tr f); [done|].
    apply not_Forall_Exists in Hnot; [|apply _].
    eapply Exists_impl; [exact Hnot|]. intros x Hx. exact Hx.
Qed.

Lemma transform_all_missing_key (tr : gmap Z Z) (f : Z → Z) st acc :
  (∀ x, tr !! x = if decide (0 <= x <= 43) then Some (f x) else None) →
  Exists (fun d => Exists (fun x => ¬ 0 <= x <= 43) (regular d)) st →
  ∃ k, transform_all tr st acc = Raised (KeyError k) ∧ ¬ 0 <= k <= 43 ∧
       ∃ d, d ∈ st ∧ k ∈ regular d.
Proof.
  intros Htr. revert acc. induction st as [|d st IH]; intros acc Hex;
    [by apply Exists_nil in Hex|].
  cbn [transform_all].
  destruct (transform_value_or_key tr f (regular d) Htr)
    as [[Hall ->]|(k & -> & Hk & Hkin)].
  - apply Exists_cons in Hex as [Hd|Hex].
    { exfalso. apply Exists_exists in Hd as (x & Hx & Hout).
      by apply Hout, (proj1 (Forall_forall _ _) Hall). }
    destruct (IH (acc ++ [map f (regular d)]) Hex) as (k & -> & Hk & d' & Hd' & Hkin).
    exists k. split; [done|]. split; [done|]. exists d'. split; [by right|done].
  - exists k. split; [done|]. split; [done|]. exists d. split; [by left|done].
Qed.

(** X9. [enigma_inspired_analysis] looks every stored regular number up in
    a table whose keys are [0..43]: if the store is not empty and holds a
    regular number outside that range (which [add_result] never stores), the
    method raises [KeyError] for such a number and returns nothing. *)
Theorem enigma_key_error (st : list Draw) :
  st ≠ [] →
  Exists (fun d => Exists (fun x => ¬ 0 <= x <= 43) (regular d)) st →
  ∃ k, enigma_inspired_analysis st = Raised (KeyError k) ∧ ¬ 0 <= k <= 43 ∧
       ∃ d, d ∈ st ∧ k ∈ regular d.
Proof.
  intros Hne Hex. unfold enigma_inspired_analysis.
  destruct (last st) as [d0|] eqn:Hlast; [|by apply last_None in Hlast].
  destruct (transform_all_missing_key
              (fold_left (fun tr i => <[i := (i + sum (regular d0)) mod (max_number + 1)]> tr)
                 (seqZ 0 (max_number + 1)) (∅ : gmap Z Z))
              (rotate (sum (regular d0))) st [])
    as (k & -> & Hk & Hd); [apply enigma_table_lookup|done|].
  by exists k.
Qed.

Lemma enigma_key_error_witness :
  ∃ k, enigma_inspired_analysis [mkDraw [1; 2; 3; 4; 44] 1] = Raised (KeyError k) ∧
       ¬ 0 <= k <= 43.
Proof.
  destruct (enigma_key_error [mkDraw [1; 2; 3; 4; 44] 1]) as (k & Hk & Hout & _).
  - discriminate.
  - apply Exists_cons_hd. simpl. do 4 apply Exists_cons_tl. apply Exists_cons_hd. lia.
  - by exists k.
Defined.

(** ** predict_next_result *)

Lemma safe_conj {A} (m : Gen A) (P Q : A → Prop) :
  safe m P → safe m Q → safe m (fun a => P a ∧ Q a).
Proof.
  intros HP HQ g r Hr.
  destruct (HP g r Hr) as (a & g' & -> & Ha).
  destruct (HQ g _ Hr) as (a' & g'' & [= <- <-] & Ha').
  by exists a, g'.
Qed.

Lemma frequent_phase_grows k mcr s :
  safe (frequent_phase k mcr s) (fun s' => s ⊆ s').
Proof.
  revert s. induction k as [|k IH]; intros s; [by apply safe_ret|].
  destruct mcr as [|a l] eqn:Heq; [apply IH|].
  rewrite <- Heq in *.
  assert (frequent_phase (S k) mcr s
          = gbind (choice mcr) (fun x => frequent_phase k mcr ({[x]} ∪ s))) as ->
    by (by rewrite Heq).
  eapply safe_bind; [apply safe_choice; by rewrite Heq|].
  intros x _. eapply safe_weaken; [apply IH|]. intros s' Hs'. set_solver.
Qed.

Lemma frequent_phase_member k mcr s :
  mcr ≠ [] →
  safe (frequent_phase (S k) mcr s) (fun s' => ∃ x, x ∈ mcr ∧ x ∈ s').
Proof.
  intros Hne.
  assert (frequent_phase (S k) mcr s
          = gbind (choice mcr) (fun x => frequent_phase k mcr ({[x]} ∪ s))) as ->
    by (by destruct mcr).
  eapply safe_bind; [by apply safe_choice|].
  intros x Hx. eapply safe_weaken; [apply frequent_phase_grows|].
  intros s' Hs'. exists x. split; [done|]. set_solver.
Qed.

Lemma attempts_loop_grows left a b s :
  a <= b → safe (attempts_loop left a b s) (fun s' => s ⊆ s').
Proof.
  intros Hab. induction left as [|left IH]; [by apply safe_ret|].
  cbn [attempts_loop]. eapply safe_bind; [by apply safe_randint|].
  intros x _. destruct (decide (x ∈ s)); [apply IH|].
  apply safe_ret. set_solver.
Qed.

Lemma ranged_phase_grows k pool s :
  pool ≠ [] → (∀ i, i ∈ pool → 0 <= i <= 3) →
  safe (ranged_phase k pool s) (fun s' => s ⊆ s').
Proof.
  intros Hne Hpool. revert s. induction k as [|k IH]; intros s; [by apply safe_ret|].
  rewrite ranged_phase_step. destruct (5 <=? size s)%nat; [by apply safe_ret|].
  eapply safe_bind; [by apply safe_choice|]. intros i Hi. apply Hpool in Hi.
  eapply safe_bind; [apply attempts_loop_grows; unfold max_number; lia|]. intros s1 Hs1.
  eapply safe_weaken; [apply IH|]. intros s' Hs'. set_solver.
Qed.

Lemma top_up_grows fuel s : safe (top_up fuel s) (fun s' => s ⊆ s').
Proof.
  revert s. induction fuel as [|fuel IH]; intros s.
  - simpl. destruct (size s <? 5)%nat; [|by apply safe_ret]. intros g r Hr. done.
  - rewrite top_up_step. destruct (size s <? 5)%nat; [|by apply safe_ret].
    eapply safe_bind; [apply (safe_randint 0 max_number); by unfold max_number|].
    intros x _. eapply safe_weaken; [apply IH|]. intros s' Hs'. set_solver.
Qed.

Lemma pick_hot_member mch : mch ≠ [] → safe (pick_hot mch) (fun h => h ∈ mch).
Proof.
  intros Hne. assert (pick_hot mch = choice mch) as -> by (by destruct mch).
  by apply safe_choice.
Qed.

Lemma one_prediction_from_lists fuel mcr mch avg :
  mcr ≠ [] → mch ≠ [] →
  (∀ x, x ∈ mcr → 0 <= x <= max_number) →
  safe (one_prediction fuel mcr mch avg)
    (fun p => (∃ x, x ∈ mcr ∧ x ∈ pred_regular p) ∧ pred_hot p ∈ mch).
Proof.
  intros Hmcr Hmch Hrange. unfold one_prediction, candidate_before_top_up.
  eapply (safe_bind _ _
            (fun s => (in_range_set s ∧ (size s ≤ 5)%nat) ∧ ∃ x, x ∈ mcr ∧ x ∈ s)).
  { eapply (safe_bind _ _
              (fun s => (in_range_set s ∧ (size s ≤ size (∅ : gset Z) + 3)%nat)
                        ∧ ∃ x, x ∈ mcr ∧ x ∈ s)).
    - apply safe_conj; [|by apply frequent_phase_member].
      apply frequent_phase_safe; [done|]. intros x Hx. by apply not_elem_of_empty in Hx.
    - intros s [[Hs Hsz] (x & Hx & Hxs)]. rewrite size_empty in Hsz.
      eapply safe_weaken.
      + apply safe_conj.
        * apply ranged_phase_safe; [apply ranges_to_pick_nonempty| |done|lia].
          apply ranges_to_pick_range.
        * apply ranged_phase_grows;
            [apply ranges_to_pick_nonempty|apply ranges_to_pick_range].
      + intros s' [Hs' Hsub]. split; [done|]. exists x. split; [done|]. set_solver. }
  intros s [[Hs Hsz] (x & Hx & Hxs)].
  eapply (safe_bind _ _ (fun s' => (in_range_set s' ∧ size s' = 5%nat) ∧ s ⊆ s')).
  { apply safe_conj; [by apply top_up_safe|apply top_up_grows]. }
  intros s' [[Hs' Hfive] Hsub].
  eapply safe_bind; [by apply pick_hot_member|].
  intros h Hh. apply safe_ret. cbn [pred_regular pred_hot]. split; [|done].
  exists x. split; [done|].
  assert (length (elements s') = 5%nat) as Hlen by exact Hfive.
  rewrite take_ge by lia. rewrite sorted_perm. apply elem_of_elements. set_solver.
Qed.

Lemma predictions_loop_from_lists k fuel mcr mch avg acc :
  mcr ≠ [] → mch ≠ [] →
  (∀ x, x ∈ mcr → 0 <= x <= max_number) →
  Forall (fun p => (∃ x, x ∈ mcr ∧ x ∈ pred_regular p) ∧ pred_hot p ∈ mch) acc →
  safe (predictions_loop k fuel mcr mch avg acc)
    (Forall (fun p => (∃ x, x ∈ mcr ∧ x ∈ pred_regular p) ∧ pred_hot p ∈ mch)).
Proof.
  intros Hmcr Hmch Hrange. revert acc. induction k as [|k IH]; intros acc Hacc.
  - by apply safe_ret.
  - cbn [predictions_loop]. eapply safe_bind; [by apply one_prediction_from_lists|].
    intros p Hp. apply IH. apply Forall_app. split; [done|]. by constructor.
Qed.

Lemma most_common_regular_in_store st x :
  x ∈ most_common_regular_of st → ∃ d, d ∈ st ∧ x ∈ regular d.
Proof.
  intros Hx. apply most_common_keys in Hx.
  apply (proj1 (frequency_loop_keys st (mkFrequency [] []))) in Hx
    as [Hd|Hx]; [done|by apply not_elem_of_nil in Hx].
Qed.

Lemma most_common_hot_in_store st h :
  h ∈ most_common_hot_of st → ∃ d, d ∈ st ∧ h = hot d.
Proof.
  intros Hh. apply most_common_keys in Hh.
  apply (proj2 (frequency_loop_keys st (mkFrequency [] []))) in Hh
    as [Hd|Hh]; [done|by apply not_elem_of_nil in Hh].
Qed.

Lemma nonempty_of_length {A} (l : list A) n : (S n ≤ length l)%nat → l ≠ [].
Proof. destruct l; simpl; [lia|done]. Qed.

(** X10. Whenever [predict_next_result] returns its list on a store of at
    least three valid draws, every prediction is anchored in the history:
    its hot number is one of the (at most three) most frequent hot numbers,
    so the hot number of some stored draw, and its regular part contains at
    least one of the (at most ten) most frequent regular numbers, so a
    regular number of some stored draw. *)
Theorem predictions_from_history (fuel : nat) (n : Z) (st : list Draw) (g g' : Rng)
    (ps : list Prediction) :
  valid_store st → (3 ≤ length st)%nat →
  predict_next_result fuel n st g = Some (Value ps, g') →
  Forall (fun p =>
            (∃ x, x ∈ pred_regular p ∧ x ∈ most_common_regular_of st ∧
                  ∃ d, d ∈ st ∧ x ∈ regular d) ∧
            pred_hot p ∈ most_common_hot_of st ∧
            ∃ d, d ∈ st ∧ pred_hot p = hot d) ps.
Proof.
  intros Hvalid Hlen Hrun.
  destruct (analyze_patterns_value st Hvalid) as [p Hp]; [lia|].
  rewrite (predict_unfold fuel n st p Hlen Hp) in Hrun.
  destruct st as [|d0 st0] eqn:Hst; [simpl in Hlen; lia|]. rewrite <- Hst in *.
  assert (d0 ∈ st) as Hd0 by (rewrite Hst; by left).
  pose proof (most_common_regular_length st d0 Hvalid Hd0) as Hr.
  pose proof (most_common_hot_length st d0 Hd0) as Hh.
  destruct (predictions_loop_from_lists (Z.to_nat n) fuel (most_common_regular_of st)
              (most_common_hot_of st) (avg_range_of (range_distribution p)) []
              (nonempty_of_length _ 4 Hr) (nonempty_of_length _ 0 Hh)
              (fun x Hx => most_common_regular_range st x Hvalid Hx)
              (Forall_nil_2 _) g _ Hrun) as (ps' & g'' & [= <- <-] & Hps).
  eapply Forall_impl; [exact Hps|]. intros q [(x & Hx & Hxq) Hq].
  split; [|split; [done|by apply most_common_hot_in_store]].
  exists x. split; [done|]. split; [done|]. by apply most_common_regular_in_store.
Qed.

Lemma predictions_from_history_witness :
  ∃ fuel ps g',
    predict_next_result fuel 3 example_store counting_source = Some (Value ps, g') ∧
    Forall (fun p => pred_hot p ∈ most_common_hot_of example_store) ps.
Proof.
  assert (3 ≤ length example_store)%nat as Hlen by (vm_compute; lia).
  destruct (predict_converges 3 example_store counting_source example_store_valid Hlen
              counting_source_escapes) as (fuel & ps & g' & Hrun & _).
  exists fuel, ps, g'. split; [exact (Hrun fuel (le_n fuel))|].
  pose proof (predictions_from_history fuel 3 example_store counting_source g' ps
                example_store_valid Hlen (Hrun fuel (le_n fuel))) as H.
  eapply Forall_impl; [exact H|]. intros p (_ & Hp & _). exact Hp.
Defined.

(** X11. Asked for zero or a negative number of predictions on a store of
    at least three valid draws, [predict_next_result] returns the empty list
    and reads nothing from the random source. *)
Theorem predict_nothing (fuel : nat) (n : Z) (st : list Draw) (g : Rng) :
  valid_store st → (3 ≤ length st)%nat → n <= 0 →
  predict_next_result fuel n st g = Some (Value [], g).
Proof.
  intros Hvalid Hlen Hn.
  destruct (analyze_patterns_value st Hvalid) as [p Hp]; [lia|].
  rewrite (predict_unfold fuel n st p Hlen Hp).
  replace (Z.to_nat n) with 0%nat by lia. reflexivity.
Qed.

Lemma predict_nothing_witness :
  predict_next_result 0 0 example_store (constant_source 0)
  = Some (Value [], constant_source 0).
Proof.
  apply predict_nothing; [exact example_store_valid|vm_compute; lia|lia].
Defined.

(** ** chaos_theory_analysis over the reals *)

Lemma fold_left_Rplus_shift (l : list R) (a : R) :
  fold_left Rplus l a = (a + fold_left Rplus l 0)%R.
Proof.
  revert a. induction l as [|x l IH]; intros a; simpl; [lra|].
  rewrite (IH (a + x)%R), (IH (0 + x)%R). lra.
Qed.

Lemma fsum_real_cons (x : R) (l : list R) :
  @fsum R R_ops (x :: l) = (x + @fsum R R_ops l)%R.
Proof. unfold fsum. simpl. rewrite fold_left_Rplus_shift. lra. Qed.

Lemma fsum_real_sign (l : list R) :
  Forall (fun x => (0 <= x)%R) l →
  (0 <= @fsum R R_ops l)%R ∧
  ((0 < @fsum R R_ops l)%R ↔ Exists (fun x => (0 < x)%R) l).
Proof.
  induction 1 as [|x l Hx _ [IH0 IH]].
  - unfold fsum. simpl. split; [lra|]. split; [lra|]. intros He. by apply Exists_nil in He.
  - rewrite fsum_real_cons. split; [lra|]. rewrite Exists_cons. split.
    + intros Hpos. destruct (Rlt_dec 0 x) as [?|Hnx]; [by left|].
      right. apply IH. lra.
    + intros [Hpx|Hpl]; [lra|]. apply IH in Hpl. lra.
Qed.

Lemma log_term_real_sign (d : Z) :
  0 <= d →
  (0 <= @log_term R R_ops d)%R ∧ ((0 < @log_term R R_ops d)%R ↔ 2 <= d).
Proof.
  intros Hd. unfold log_term. simpl. rewrite Z.abs_eq by done.
  destruct (decide (d ≠ 0)) as [Hne|Heq].
  - destruct (decide (d = 1)) as [->|Hne1].
    + rewrite ln_1. split; [lra|]. split; [lra|lia].
    + assert (1 < IZR d)%R as Hlt by (apply IZR_lt; lia).
      pose proof (ln_increasing 1 (IZR d) ltac:(lra) Hlt) as Hln. rewrite ln_1 in Hln.
      split; [lra|]. split; [lia|done].
  - split; [lra|]. split; [lra|lia].
Qed.

(** X12. With exact real arithmetic in place of floats, the estimate of
    [chaos_theory_analysis] is never negative, and [is_chaotic] is true
    exactly when some two neighbours of the flattened stream differ by 2 or
    more: only a history whose consecutive differences are all 0 or 1 is
    reported as not chaotic. *)
Theorem chaos_real_sign (st : list Draw) :
  (3 ≤ length st)%nat →
  ∃ c, @chaos_theory_analysis R R_ops st = Value c ∧
       (0 <= lyapunov_estimate c)%R ∧
       (is_chaotic c = true ↔ ∃ d, d ∈ differences (total_numbers st) ∧ 2 <= d).
Proof.
  intros Hlen. unfold chaos_theory_analysis.
  destruct (length st <? 3)%nat eqn:Hlt; [apply Nat.ltb_lt in Hlt; lia|].
  pose proof (differences_nonempty st Hlen) as Hne.
  assert (Forall (fun d => 0 <= d) (differences (total_numbers st))) as Hnn.
  { rewrite total_numbers_stream, differences_spec. apply spec_differences_nonneg. }
  destruct (differences (total_numbers st)) as [|d0 ds] eqn:Hds; [done|].
  set (l := d0 :: ds) in *.
  eexists. split; [reflexivity|]. cbn [lyapunov_estimate is_chaotic].
  assert (Forall (fun x => (0 <= x)%R) (map (@log_term R R_ops) l)) as Hterms.
  { apply Forall_forall. intros x Hx. apply list_elem_of_fmap in Hx as (d & -> & Hd).
    apply log_term_real_sign. by apply (proj1 (Forall_forall _ _) Hnn). }
  destruct (fsum_real_sign _ Hterms) as [Hsum0 Hsum].
  assert (0 < IZR (Z.of_nat (length l)))%R as Hn.
  { apply IZR_lt. subst l. simpl. lia. }
  set (total := @fsum R R_ops (map (@log_term R R_ops) l)) in *.
  change (@fdiv R R_ops) with Rdiv. change (@of_int R R_ops) with IZR.
  change (@fpositive R R_ops) with (fun x : R => if Rlt_dec 0 x then true else false).
  cbv beta. split.
  - unfold Rdiv. apply Rle_mult_inv_pos; done.
  - destruct (Rlt_dec 0 (total / IZR (Z.of_nat (length l)))) as [Hpos|Hnpos].
    + split; [intros _|done].
      assert (0 < total)%R as Hs.
      { destruct (Rlt_dec 0 total) as [?|Hn0]; [done|].
        exfalso. assert (total = 0%R) as Hz by lra.
        rewrite Hz in Hpos. unfold Rdiv in Hpos. rewrite Rmult_0_l in Hpos. lra. }
      apply Hsum in Hs. apply Exists_exists in Hs as (x & Hx & Hxpos).
      apply list_elem_of_fmap in Hx as (d & -> & Hd).
      exists d. split; [done|]. apply log_term_real_sign; [|done].
      by apply (proj1 (Forall_forall _ _) Hnn).
    + split; [done|]. intros (d & Hd & Hd2). exfalso. apply Hnpos.
      apply Rdiv_lt_0_compat; [|done]. apply Hsum. apply Exists_exists.
      exists (@log_term R R_ops d). split; [apply list_elem_of_fmap; by exists d|].
      apply log_term_real_sign; [|done]. by apply (proj1 (Forall_forall _ _) Hnn).
Qed.

Lemma chaos_real_sign_witness :
  ∃ c, @chaos_theory_analysis R R_ops example_store = Value c ∧ is_chaotic c = true.
Proof.
  destruct (chaos_real_sign example_store) as (c & Hc & _ & Hflag).
  - vm_compute. lia.
  - exists c. split; [exact Hc|]. apply Hflag. exists 7. split; [|lia].
    assert (differences (total_numbers example_store)
            = [7; 11; 8; 9; 37; 1; 10; 7; 12; 7; 31; 2; 13; 5; 6; 11; 37]) as ->
      by (by vm_compute).
    by left.
Defined.

(** ** visualize_data *)

Lemma bump_in_bounds (f : list Z) (i : Z) :
  0 <= i < Z.of_nat (length f) →
  ∃ f', bump f i = Some f' ∧ length f' = length f ∧
        ∀ j, nth j f' 0 = nth j f 0 + (if decide (j = Z.to_nat i) then 1 else 0).
Proof.
  intros Hi. unfold bump, py_index.
  destruct ((0 <=? i) && (i <? Z.of_nat (length f))) eqn:Hb.
  2:{ apply andb_false_iff in Hb as [Hb|Hb]; [apply Z.leb_gt in Hb|apply Z.ltb_ge in Hb]; lia. }
  assert (Z.to_nat i < length f)%nat as Hlt by lia.
  destruct (lookup_lt_is_Some_2 f _ Hlt) as [x Hx]. rewrite Hx.
  eexists. split; [reflexivity|]. split; [by rewrite length_insert|].
  intros j. rewrite !nth_lookup. destruct (decide (j = Z.to_nat i)) as [->|Hne].
  - rewrite list_lookup_insert_eq by done. rewrite Hx. done.
  - rewrite list_lookup_insert_ne by done. lia.
Qed.

Lemma tally_in_bounds (nums f : list Z) :
  Forall (fun x => 0 <= x < Z.of_nat (length f)) nums →
  ∃ f', tally nums f = Some f' ∧ length f' = length f ∧
        ∀ k, 0 <= k →
             nth (Z.to_nat k) f' 0
             = nth (Z.to_nat k) f 0 + Z.of_nat (count_occ Z.eq_dec nums k).
Proof.
  revert f. induction nums as [|x nums IH]; intros f Hr.
  - exists f. split; [done|]. split; [done|]. intros k _. simpl. lia.
  - apply Forall_cons in Hr as [Hx Hr]. cbn [tally].
    destruct (bump_in_bounds f x Hx) as (f1 & -> & Hlen1 & Hnth1).
    destruct (IH f1) as (f' & -> & Hlen' & Hnth'); [by rewrite Hlen1|].
    exists f'. split; [done|]. split; [congruence|].
    intros k Hk. rewrite Hnth', Hnth1 by done. cbn [count_occ].
    destruct (Z.eq_dec x k) as [->|Hne].
    + rewrite decide_True by done. lia.
    + rewrite decide_False by lia. lia.
Qed.

Lemma tally_regular_in_bounds (st : list Draw) (f : list Z) :
  Forall (fun d => Forall (fun x => 0 <= x < Z.of_nat (length f)) (regular d)) st →
  ∃ f', tally_regular st f = Some f' ∧ length f' = length f ∧
        ∀ k, 0 <= k →
             nth (Z.to_nat k) f' 0
             = nth (Z.to_nat k) f 0 + Z.of_nat (count_occ Z.eq_dec (flat_map regular st) k).
Proof.
  revert f. induction st as [|d st IH]; intros f Hr.
  - exists f. split; [done|]. split; [done|]. intros k _. simpl. lia.
  - apply Forall_cons in Hr as [Hd Hr]. cbn [tally_regular].
    destruct (tally_in_bounds (regular d) f Hd) as (f1 & -> & Hlen1 & Hnth1).
    destruct (IH f1) as (f' & -> & Hlen' & Hnth'); [by rewrite Hlen1|].
    exists f'. split; [done|]. split; [congruence|].
    intros k Hk. rewrite Hnth', Hnth1 by done. cbn [flat_map].
    rewrite count_occ_app. lia.
Qed.

Lemma tally_hot_in_bounds (st : list Draw) (f : list Z) :
  Forall (fun d => 0 <= hot d < Z.of_nat (length f)) st →
  ∃ f', tally_hot st f = Some f' ∧ length f' = length f ∧
        ∀ k, 0 <= k →
             nth (Z.to_nat k) f' 0
             = nth (Z.to_nat k) f 0 + Z.of_nat (count_occ Z.eq_dec (map hot st) k).
Proof.
  revert f. induction st as [|d st IH]; intros f Hr.
  - exists f. split; [done|]. split; [done|]. intros k _. simpl. lia.
  - apply Forall_cons in Hr as [Hd Hr]. cbn [tally_hot].
    destruct (bump_in_bounds f (hot d) Hd) as (f1 & -> & Hlen1 & Hnth1).
    destruct (IH f1) as (f' & -> & Hlen' & Hnth'); [by rewrite Hlen1|].
    exists f'. split; [done|]. split; [congruence|].
    intros k Hk. rewrite Hnth', Hnth1 by done. cbn [map count_occ].
    destruct (Z.eq_dec (hot d) k) as [->|Hne].
    + rewrite decide_True by done. lia.
    + rewrite decide_False by lia. lia.
Qed.

Lemma nth_repeat_zero (n j : nat) : nth j (repeat 0 n) 0 = 0.
Proof. revert j. induction n as [|n IH]; intros [|j]; simpl; auto. Qed.

(** X13. On an empty store [visualize_data] shows nothing and returns its
    "no data" message.  On a non-empty store of valid draws it shows 44 bars
    for the regular numbers [0..43] and 16 bars for the hot numbers [1..16],
    and the height of each bar is the count [analyze_frequency] holds for
    that number ([0] when the number is not a key of the counter). *)
Theorem chart_matches_frequency (st : list Draw) :
  valid_store st →
  match st with
  | [] => is_message (visualize_data st)
  | _ =>
      ∃ c, visualize_data st = Value (c, "Visualización generada"%string) ∧
           length (regular_bars c) = 44%nat ∧ length (hot_bars c) = 16%nat ∧
           (∀ k, 0 <= k <= 43 →
              nth (Z.to_nat k) (regular_bars c) 0
              = counter_get (freq_regular (analyze_frequency st)) k) ∧
           (∀ k, 1 <= k <= 16 →
              nth (Z.to_nat (k - 1)) (hot_bars c) 0
              = counter_get (freq_hot (analyze_frequency st)) k)
  end.
Proof.
  intros Hvalid. destruct st as [|d0 st0] eqn:Hst; [exact I|]. rewrite <- Hst in *.
  assert (visualize_data st
          = match tally_regular st (repeat 0 (Z.to_nat (max_number + 1))) with
            | None => Raised IndexError
            | Some frequencies =>
                match tally_hot st (repeat 0 (Z.to_nat (hot_number_max + 1))) with
                | None => Raised IndexError
                | Some hot_frequencies =>
                    Value (mkChart frequencies (drop 1 hot_frequencies),
                           "Visualización generada"%string)
                end
            end) as -> by (by rewrite Hst).
  destruct (tally_regular_in_bounds st (repeat 0 (Z.to_nat (max_number + 1))))
    as (rb & -> & Hrlen & Hrnth).
  { eapply Forall_impl; [exact Hvalid|]. intros d (_ & _ & Hr & _).
    eapply Forall_impl; [exact Hr|]. intros x Hx. rewrite repeat_length.
    unfold max_number in *. lia. }
  destruct (tally_hot_in_bounds st (repeat 0 (Z.to_nat (hot_number_max + 1))))
    as (hb & -> & Hhlen & Hhnth).
  { eapply Forall_impl; [exact Hvalid|]. intros d (_ & _ & _ & _ & Hh).
    rewrite repeat_length. unfold hot_number_max in *. lia. }
  rewrite repeat_length in Hrlen, Hhlen.
  destruct (frequency_loop_get st (mkFrequency [] [])) as [Hgr Hgh].
  eexists. split; [reflexivity|]. cbn [regular_bars hot_bars].
  split; [exact Hrlen|]. split; [rewrite length_drop, Hhlen; reflexivity|]. split.
  - intros k Hk. rewrite Hrnth, nth_repeat_zero by lia.
    unfold analyze_frequency. rewrite Hgr. unfold regular_occurrences. simpl. lia.
  - intros k Hk. rewrite nth_lookup, lookup_drop, <- nth_lookup.
    replace (1 + Z.to_nat (k - 1))%nat with (Z.to_nat k) by lia.
    rewrite Hhnth, nth_repeat_zero by lia.
    unfold analyze_frequency. rewrite Hgh. unfold hot_occurrences. simpl. lia.
Qed.

Lemma chart_matches_frequency_witness :
  ∃ c, visualize_data example_store = Value (c, "Visualización generada"%string) ∧
       nth 12 (regular_bars c) 0 = 2 ∧ nth 2 (hot_bars c) 0 = 2.
Proof.
  pose proof (chart_matches_frequency example_store example_store_valid) as H.
  change example_store with
    [mkDraw [5; 12; 23; 31; 40] 3; mkDraw [2; 12; 19; 31; 38] 7;
     mkDraw [5; 18; 23; 29; 40] 3] in H at 1.
  cbv iota in H. destruct H as (c & Hc & _ & _ & Hr & Hh).
  exists c. split; [exact Hc|]. split.
  - pose proof (Hr 12 ltac:(lia)) as H12. change (Z.to_nat 12) with 12%nat in H12.
    rewrite H12. reflexivity.
  - pose proof (Hh 3 ltac:(lia)) as H3. change (Z.to_nat (3 - 1)) with 2%nat in H3.
    rewrite H3. reflexivity.
Defined.

(** ** main *)

Section MainInputProperties.
Variable parse_regular : string → option (list Z).
Variable parse_hot : string → option Z.

Lemma read_week_stores_one lines st st' rest :
  read_week parse_regular parse_hot lines st = Some (st', rest) →
  ∃ regs h, ¬ rejected regs h ∧ st' = st ++ [mkDraw (sorted regs) h] ∧
            (length rest < length lines)%nat.
Proof.
  assert (∀ n lines, (length lines ≤ n)%nat → ∀ st st' rest,
            read_week parse_regular parse_hot lines st = Some (st', rest) →
            ∃ regs h, ¬ rejected regs h ∧ st' = st ++ [mkDraw (sorted regs) h] ∧
                      (length rest < length lines)%nat) as Hgen; [|by apply (Hgen (length lines))].
  clear. intros n. induction n as [|n IH]; intros lines Hn st st' rest Hrun.
  { destruct lines; [done|simpl in Hn; lia]. }
  destruct lines as [|l1 lines1]; [done|]. simpl in Hn.
  cbn [read_week] in Hrun.
  destruct (parse_regular l1) as [regs|].
  2:{ destruct (IH lines1 ltac:(lia) _ _ _ Hrun) as (r & h & ? & ? & ?).
      exists r, h. split; [done|]. split; [done|]. simpl. lia. }
  destruct lines1 as [|l2 lines2]; [done|]. simpl in Hn.
  destruct (parse_hot l2) as [h|].
  2:{ destruct (IH lines2 ltac:(lia) _ _ _ Hrun) as (r & h' & ? & ? & ?).
      exists r, h'. split; [done|]. split; [done|]. simpl. lia. }
  destruct (rejected_dec regs h) as [Hrej|Hok].
  - destruct (add_result_rejected regs h st Hrej) as [Herr Hst].
    destruct (add_result regs h st) as [[[]|m|e] st1] eqn:Hadd; simpl in Herr, Hst;
      try done; subst st1;
      destruct (IH lines2 ltac:(lia) _ _ _ Hrun) as (r & h' & ? & ? & ?);
      exists r, h'; (split; [done|]); (split; [done|]); simpl; lia.
  - rewrite (add_result_accepted regs h st Hok) in Hrun. injection Hrun as <- <-.
    exists regs, h. split; [done|]. split; [done|]. simpl. lia.
Qed.

Lemma read_weeks_grows n lines st st' rest :
  read_weeks parse_regular parse_hot n lines st = Some (st', rest) →
  valid_store st → valid_store st' ∧ length st' = (length st + n)%nat.
Proof.
  revert lines st. induction n as [|n IH]; intros lines st Hrun Hvalid.
  - injection Hrun as <- <-. split; [done|lia].
  - cbn [read_weeks] in Hrun.
    destruct (read_week parse_regular parse_hot lines st) as [[st1 rest1]|] eqn:Hweek;
      [|done].
    destruct (read_week_stores_one _ _ _ _ Hweek) as (regs & h & Hok & -> & _).
    destruct (IH _ _ Hrun) as [Hv Hl].
    + pose proof (add_result_valid regs h st Hvalid) as Hv'.
      by rewrite (add_result_accepted regs h st Hok) in Hv'.
    + split; [done|]. rewrite Hl, length_app. simpl. lia.
Qed.

(** X14. Whatever is typed, if the input loop of [main] comes to its end
    (the input does not run out first), the store holds exactly three draws,
    all valid.  So the calls [main] then makes without a check are safe:
    [analyze_patterns] returns its lists and not a message, and
    [predict_next_result(3)], whenever it returns, returns a list of three
    predictions. *)
Theorem main_fills_three_weeks (lines rest : list string) (st : list Draw) :
  read_weeks parse_regular parse_hot 3 lines [] = Some (st, rest) →
  length st = 3%nat ∧ valid_store st ∧
  is_value (analyze_patterns st) ∧
  (∀ fuel g r, predict_next_result fuel 3 st g = Some r →
     ∃ ps g', r = (Value ps, g') ∧ length ps = 3%nat).
Proof.
  intros Hrun.
  destruct (read_weeks_grows 3 lines [] st rest Hrun (Forall_nil_2 _)) as [Hvalid Hlen].
  simpl in Hlen. split; [done|]. split; [done|]. split.
  - destruct (analyze_patterns_value st Hvalid) as [p ->]; [lia|exact I].
  - intros fuel g r Hr.
    destruct (predict_safe fuel 3 st Hvalid ltac:(lia) g r Hr) as (ps & g' & -> & Hl & _).
    by exists ps, g'.
Qed.

End MainInputProperties.

Lemma main_fills_three_weeks_witness :
  ∃ st, read_weeks example_parse_regular example_parse_hot 3
          ["05-12-23-31-40"; "3"; "oops"; "05-05-23-29-40"; "3"; "02-12-19-31-38"; "x";
           "02-12-19-31-38"; "7"; "05-18-23-29-40"; "3"; "s"]%string []
        = Some (st, ["s"%string]) ∧ length st = 3%nat ∧ st = example_store.
Proof.
  eexists. split; [vm_compute; reflexivity|].
  split; [|reflexivity].
  exact (proj1 (main_fills_three_weeks example_parse_regular example_parse_hot _ _ _
                  (eq_refl : read_weeks example_parse_regular example_parse_hot 3
                     ["05-12-23-31-40"; "3"; "oops"; "05-05-23-29-40"; "3";
                      "02-12-19-31-38"; "x"; "02-12-19-31-38"; "7";
                      "05-18-23-29-40"; "3"; "s"]%string []
                   = Some (example_store, ["s"%string])))).
Defined.

(** ** The order of the counters' keys, and counting after an append *)

Lemma counter_incr_key_order k c :
  map fst (counter_incr k c)
  = if decide (k ∈ map fst c) then map fst c else map fst c ++ [k].
Proof.
  induction c as [|[k0 n] c IH]; [done|]. simpl.
  destruct (decide (k = k0)) as [->|Hne]; simpl.
  - rewrite decide_True by (by left). done.
  - rewrite IH. destruct (decide (k ∈ map fst c)) as [Hin|Hnin].
    + rewrite decide_True by (by right). done.
    + rewrite decide_False; [done|]. intros Hk. apply elem_of_cons in Hk as [?|?]; done.
Qed.

Lemma counter_update_app c l1 l2 :
  counter_update c (l1 ++ l2) = counter_update (counter_update c l1) l2.
Proof. unfold counter_update. by rewrite fold_left_app. Qed.

Lemma first_seen_snoc (l : list Z) (x : Z) :
  reverse (remove_dups (reverse (l ++ [x])))
  = if decide (x ∈ reverse (remove_dups (reverse l)))
    then reverse (remove_dups (reverse l))
    else reverse (remove_dups (reverse l)) ++ [x].
Proof.
  rewrite reverse_app, reverse_singleton.
  change ([x] ++ reverse l) with (x :: reverse l).
  change (remove_dups (x :: reverse l))
    with (if decide_rel elem_of x (reverse l)
          then remove_dups (reverse l) else x :: remove_dups (reverse l)).
  destruct (decide_rel elem_of x (reverse l)) as [Hin|Hnin].
  - rewrite decide_True; [done|]. by rewrite elem_of_reverse, elem_of_remove_dups.
  - rewrite decide_False.
    + by rewrite reverse_cons.
    + by rewrite elem_of_reverse, elem_of_remove_dups.
Qed.

Lemma counter_update_key_order (l : list Z) :
  map fst (counter_update [] l) = reverse (remove_dups (reverse l)).
Proof.
  induction l as [|x l IH] using rev_ind; [done|].
  rewrite counter_update_app, first_seen_snoc, <- IH.
  unfold counter_update at 1. cbn [fold_left]. apply counter_incr_key_order.
Qed.

Lemma frequency_loop_as_update st f :
  freq_regular (frequency_loop st f)
  = counter_update (freq_regular f) (flat_map regular st) ∧
  freq_hot (frequency_loop st f) = counter_update (freq_hot f) (map hot st).
Proof.
  revert f. induction st as [|d st IH]; intros f; [done|].
  rewrite frequency_loop_cons. destruct (IH (mkFrequency
    (counter_update (freq_regular f) (regular d))
    (counter_update (freq_hot f) [hot d]))) as [-> ->].
  cbn [freq_regular freq_hot flat_map map]. split.
  - by rewrite counter_update_app.
  - change (hot d :: map hot st) with ([hot d] ++ map hot st).
    by rewrite counter_update_app.
Qed.

(** X15. The keys of the counters of [analyze_frequency] stand in the
    order in which the numbers first appear in the store (draw by draw, and
    within a draw in ascending order); since [most_common] keeps this order
    among equal counts, ties are broken in favour of the number seen
    first. *)
Theorem counter_keys_first_seen (st : list Draw) :
  map fst (freq_regular (analyze_frequency st))
  = reverse (remove_dups (reverse (flat_map regular st))) ∧
  map fst (freq_hot (analyze_frequency st))
  = reverse (remove_dups (reverse (map hot st))) ∧
  (∀ n v, filter (fun y => snd y = v) (most_common n (freq_regular (analyze_frequency st)))
          `prefix_of` filter (fun y => snd y = v) (freq_regular (analyze_frequency st))).
Proof.
  unfold analyze_frequency.
  destruct (frequency_loop_as_update st (mkFrequency [] [])) as [-> ->].
  cbn [freq_regular freq_hot].
  split; [apply counter_update_key_order|]. split; [apply counter_update_key_order|].
  intros n v. unfold most_common.
  rewrite <- (sort_by_count_stable v (counter_update [] (flat_map regular st))).
  rewrite <- (take_drop n (sort_by_count (counter_update [] (flat_map regular st)))) at 2.
  rewrite filter_app. by apply prefix_app_r.
Qed.

Lemma count_occ_NoDup (l : list Z) (k : Z) :
  NoDup l → Z.of_nat (count_occ Z.eq_dec l k) = if decide (k ∈ l) then 1 else 0.
Proof.
  induction 1 as [|x l Hx _ IH]; [done|]. cbn [count_occ].
  destruct (Z.eq_dec x k) as [->|Hne].
  - rewrite decide_True by (by left).
    rewrite decide_False in IH by done. lia.
  - rewrite IH. destruct (decide (k ∈ l)) as [Hin|Hnin].
    + rewrite decide_True by (by right). done.
    + rewrite decide_False; [done|]. intros Hk. apply elem_of_cons in Hk as [?|?]; done.
Qed.

(** X16. Storing a draw and counting again: after an accepted
    [add_result], [analyze_frequency] counts each of the five new regular
    numbers once more than before and every other number as before, and
    counts the new hot number once more and every other hot number as
    before. *)
Theorem counts_after_append (regs : list Z) (h : Z) (st : list Draw) :
  ¬ rejected regs h →
  (∀ k, counter_get (freq_regular (analyze_frequency (snd (add_result regs h st)))) k
        = counter_get (freq_regular (analyze_frequency st)) k
          + (if decide (k ∈ regs) then 1 else 0)) ∧
  (∀ k, counter_get (freq_hot (analyze_frequency (snd (add_result regs h st)))) k
        = counter_get (freq_hot (analyze_frequency st)) k
          + (if decide (k = h) then 1 else 0)).
Proof.
  intros Hok. rewrite (add_result_accepted regs h st Hok). cbn [snd].
  unfold analyze_frequency.
  destruct (frequency_loop_get (st ++ [mkDraw (sorted regs) h]) (mkFrequency [] []))
    as [Hr1 Hh1].
  destruct (frequency_loop_get st (mkFrequency [] [])) as [Hr0 Hh0].
  assert (NoDup regs) as Hnd.
  { unfold rejected in Hok. destruct (decide (NoDup regs)); tauto. }
  split; intros k.
  - rewrite Hr1, Hr0. unfold regular_occurrences.
    rewrite flat_map_app, count_occ_app. cbn [flat_map regular]. rewrite app_nil_r.
    rewrite Nat2Z.inj_add, (count_occ_NoDup (sorted regs)) by (by rewrite sorted_perm).
    destruct (decide (k ∈ regs)) as [Hin|Hnin].
    + rewrite decide_True by (by rewrite sorted_perm). lia.
    + rewrite decide_False by (by rewrite sorted_perm). lia.
  - rewrite Hh1, Hh0. unfold hot_occurrences.
    rewrite map_app, count_occ_app. cbn [map hot count_occ].
    destruct (Z.eq_dec h k) as [->|Hne].
    + rewrite decide_True by done. lia.
    + rewrite decide_False by congruence. lia.
Qed.

Lemma counts_after_append_witness :
  counter_get (freq_regular (analyze_frequency
     (snd (add_result [5; 12; 23; 31; 40] 3 example_store)))) 12
  = counter_get (freq_regular (analyze_frequency example_store)) 12 + 1.
Proof.
  assert (¬ rejected [5; 12; 23; 31; 40] 3) as Hok.
  { apply (bool_decide_unpack _). by vm_compute. }
  destruct (counts_after_append [5; 12; 23; 31; 40] 3 example_store Hok) as [Hr _].
  rewrite (Hr 12). rewrite decide_True; [reflexivity|].
  do 1 apply list_elem_of_further. apply list_elem_of_here.
Defined.
